(** * Graph Visualizer: validator, graph state manager, execution controller

    A shallow embedding of the JavaScript core of the Graph Visualizer:

    - [utils]      : [isValidNodeId], [validateEdgeInput], [validateGraphInput]
    - [constants]  : [VALIDATION_PATTERNS], [ERROR_MESSAGES]
    - [useGraphState]          : [parseAndValidateInput], the re-parse effect,
                                 [canRunAlgorithm]
    - [useAlgorithmExecution]  : [executeAlgorithm], [setSpeed]

    JavaScript strings are sequences of UTF-16 code units; they are modelled
    as lists of code units ([N]).  String literals of the source are written
    [js "..."]. *)

From Stdlib Require Import List NArith ZArith Bool Lia String Ascii.
From Stdlib Require Import DecimalString Sorted.
Import ListNotations.

Local Open Scope N_scope.

(* ================================================================== *)
(** * JavaScript strings                                               *)
(* ================================================================== *)

Module JS.

(** A string is the list of its UTF-16 code units. *)
Definition jsstring := list N.

(** Source literals (all of them ASCII). *)
Definition js (s : string) : jsstring :=
  List.map N_of_ascii (list_ascii_of_string s).

Definition jsstring_eq_dec : forall a b : jsstring, {a = b} + {a <> b} :=
  list_eq_dec N.eq_dec.

(** [a === b] on strings. *)
Definition streq (a b : jsstring) : bool :=
  if jsstring_eq_dec a b then true else false.

(** ECMAScript WhiteSpace and LineTerminator code points: the set stripped
    by [String.prototype.trim] and matched by the regular expression
    class [\s]. *)
Definition isWhiteSpace (c : N) : bool :=
  (c =? 9) || (c =? 10) || (c =? 11) || (c =? 12) || (c =? 13) ||
  (c =? 32) || (c =? 160) || (c =? 5760) ||
  ((8192 <=? c) && (c <=? 8202)) ||
  (c =? 8232) || (c =? 8233) || (c =? 8239) || (c =? 8287) ||
  (c =? 12288) || (c =? 65279).

(** The class [\S]. *)
Definition nonWhiteSpace (c : N) : bool := negb (isWhiteSpace c).

(** The class [\d]. *)
Definition isDigit (c : N) : bool := (48 <=? c) && (c <=? 57).

Section Scan.
Variable p : N -> bool.

Fixpoint takeWhile (s : jsstring) : jsstring :=
  match s with
  | c :: r => if p c then c :: takeWhile r else []
  | [] => []
  end.

Fixpoint dropWhile (s : jsstring) : jsstring :=
  match s with
  | c :: r => if p c then dropWhile r else s
  | [] => []
  end.

(** The longest prefix in the class, and what follows it. *)
Definition span (s : jsstring) : jsstring * jsstring :=
  (takeWhile s, dropWhile s).
End Scan.

Definition trimStart (s : jsstring) : jsstring := dropWhile isWhiteSpace s.
Definition trimEnd (s : jsstring) : jsstring :=
  rev (dropWhile isWhiteSpace (rev s)).

(** [s.trim()] *)
Definition trim (s : jsstring) : jsstring := trimEnd (trimStart s).

(** [s.split('\n')]: the empty string splits into one empty piece. *)
Fixpoint split_newline (s : jsstring) : list jsstring :=
  match s with
  | [] => [[]]
  | c :: r =>
      if c =? 10 then [] :: split_newline r
      else match split_newline r with
           | h :: t => (c :: h) :: t
           | [] => [[c]]
           end
  end.

(** A string is truthy iff it is not empty. *)
Definition nonEmpty (s : jsstring) : bool :=
  match s with [] => false | _ :: _ => true end.

(** [String(n)] for a non-negative integer. *)
Definition decimal (n : nat) : jsstring :=
  js (NilEmpty.string_of_uint (Nat.to_uint n)).

(** ** Numbers

    A number is a double.  A finite one is written as the decimal it is
    equal to: every double [M * 2^k] is a decimal [m * 10^e], and the one
    form with [m] not a multiple of ten (0 * 10^0 for zero) is the one
    [toDouble] below gives to a number read from text. *)
Inductive jsnumber :=
| NaN
| Infinity (negative : bool)
| Dec (negative : bool) (mantissa : N) (exp10 : Z).   (* +-mantissa * 10^exp10 *)

(** Is [num / den] below [2^b]? *)
Definition belowPow2 (num den : N) (b : Z) : bool :=
  match b with
  | Zneg p => num * 2 ^ Npos p <? den
  | _ => num <? den * 2 ^ Z.to_N b
  end.

(** The double nearest to [m * 10^e], ties to the even significand: its
    significand [M] and exponent [k], the double being [M * 2^k] with
    [2^52 <= M < 2^53], or [M < 2^52] and [k = -1074] for a subnormal or
    zero.  [None] when the nearest double would be [2^1024] or more. *)
Definition nearestDouble (m : N) (e : Z) : option (N * Z) :=
  if m =? 0 then Some (0, 0%Z) else
  let num := match e with Zpos p => m * 10 ^ Npos p | _ => m end in
  let den := match e with Zneg p => 10 ^ Npos p | _ => 1 end in
  (* b = floor (log2 (num / den)) *)
  let b0 := (Z.of_N (N.log2 num) - Z.of_N (N.log2 den))%Z in
  let b := if belowPow2 num den b0 then (b0 - 1)%Z else b0 in
  let k := Z.max (b - 52) (-1074) in
  (* n / d = num / den / 2^k *)
  let n := match k with Zneg p => num * 2 ^ Npos p | _ => num end in
  let d := match k with Zpos p => den * 2 ^ Npos p | _ => den end in
  let q := n / d in
  let r := n mod d in
  let up := (d <? 2 * r) || ((2 * r =? d) && N.odd q) in
  let M := if up then q + 1 else q in
  let '(M, k) := if M =? 2 ^ 53 then (2 ^ 52, (k + 1)%Z) else (M, k) in
  if (971 <? k)%Z then None else Some (M, k).

Fixpoint stripZeros (fuel : nat) (m : N) (e : Z) : N * Z :=
  match fuel with
  | O => (m, e)
  | S fuel' =>
      if m mod 10 =? 0 then stripZeros fuel' (m / 10) (e + 1)%Z else (m, e)
  end.

(** [M * 2^k] as a decimal whose mantissa is not a multiple of ten. *)
Definition exactDecimal (M : N) (k : Z) : N * Z :=
  if M =? 0 then (0, 0%Z) else
  let m := match k with
           | Zneg p => M * 5 ^ Npos p
           | _ => M * 2 ^ Z.to_N k
           end in
  stripZeros (N.to_nat (N.size m)) m (Z.min k 0).

(** The Number value of the decimal [+-m * 10^e]: the nearest double, an
    infinity when that is out of range. *)
Definition toDouble (neg : bool) (m : N) (e : Z) : jsnumber :=
  match nearestDouble m e with
  | None => Infinity neg
  | Some (M, k) => let '(d, x) := exactDecimal M k in Dec neg d x
  end.

(** Whether [m * 10^e] is (+-)0 as a double: the value is at most half of
    the least subnormal, 2^-1075 (for a double, it is zero). *)
Definition roundsToZero (m : N) (e : Z) : bool :=
  match e with
  | Zneg k => m * 2 ^ 1075 <=? 10 ^ (Npos k)
  | _ => m =? 0
  end.

(** [x < 0] *)
Definition ltZero (x : jsnumber) : bool :=
  match x with
  | NaN => false
  | Infinity neg => neg
  | Dec neg m e => neg && negb (roundsToZero m e)
  end.

Definition digitsValue (ds : jsstring) : N :=
  fold_left (fun acc c => 10 * acc + (c - 48)) ds 0.

Definition isSign (c : N) : bool := (c =? 43) || (c =? 45).
Definition isExpMark (c : N) : bool := (c =? 101) || (c =? 69).

(** Does [s] start with [pre]?  Returns the rest. *)
Fixpoint stripPrefix (pre s : jsstring) : option jsstring :=
  match pre, s with
  | [], _ => Some s
  | a :: pre', b :: s' => if a =? b then stripPrefix pre' s' else None
  | _ :: _, [] => None
  end.

(** ExponentPart, if one starts here: [eE] [+-]? DecimalDigits. *)
Definition scanExponent (s : jsstring) : Z * jsstring :=
  match s with
  | c :: r =>
      if isExpMark c then
        let '(neg, r1) :=
          match r with
          | d :: r' => if isSign d then (d =? 45, r') else (false, r)
          | [] => (false, r)
          end in
        let '(ds, r2) := span isDigit r1 in
        if nonEmpty ds
        then ((if neg then Z.opp else id) (Z.of_N (digitsValue ds)), r2)
        else (0%Z, s)
      else (0%Z, s)
  | [] => (0%Z, s)
  end.

(** The longest prefix of [s] that is a StrUnsignedDecimalLiteral. *)
Definition scanUnsignedDecimal (neg : bool) (s : jsstring)
  : option (jsnumber * jsstring) :=
  match stripPrefix (js "Infinity") s with
  | Some r => Some (Infinity neg, r)
  | None =>
      let '(ip, r1) := span isDigit s in
      let '(fp, r2) :=
        match r1 with
        | c :: r' => if c =? 46 then span isDigit r' else ([], r1)
        | [] => ([], r1)
        end in
      if nonEmpty ip || nonEmpty fp then
        let '(e, r3) := scanExponent r2 in
        Some (toDouble neg (digitsValue (ip ++ fp))
                       (e - Z.of_nat (List.length fp)), r3)
      else None
  end.

(** The longest prefix of [s] that is a StrDecimalLiteral. *)
Definition scanDecimalLiteral (s : jsstring) : option (jsnumber * jsstring) :=
  match s with
  | c :: r => if isSign c then scanUnsignedDecimal (c =? 45) r
              else scanUnsignedDecimal false s
  | [] => None
  end.

(** [parseFloat(s)] *)
Definition parseFloat (s : jsstring) : jsnumber :=
  match scanDecimalLiteral (trimStart s) with
  | Some (x, _) => x
  | None => NaN
  end.

Definition isHexDigit (c : N) : bool :=
  isDigit c || ((97 <=? c) && (c <=? 102)) || ((65 <=? c) && (c <=? 70)).
Definition isOctalDigit (c : N) : bool := (48 <=? c) && (c <=? 55).
Definition isBinaryDigit (c : N) : bool := (48 <=? c) && (c <=? 49).

Definition digitOf (c : N) : N :=
  if isDigit c then c - 48
  else if (97 <=? c) then c - 87 else c - 55.

(** NonDecimalIntegerLiteral: 0x.., 0o.., 0b.. (either case), no sign. *)
Definition nonDecimalInteger (s : jsstring) : option jsnumber :=
  match s with
  | z :: m :: ds =>
      let lit (radix : N) (ok : N -> bool) :=
        if nonEmpty ds && forallb ok ds
        then Some (toDouble false
                     (fold_left (fun a c => radix * a + digitOf c) ds 0) 0)
        else None in
      if negb (z =? 48) then None
      else if (m =? 120) || (m =? 88) then lit 16 isHexDigit
      else if (m =? 111) || (m =? 79) then lit 8 isOctalDigit
      else if (m =? 98) || (m =? 66) then lit 2 isBinaryDigit
      else None
  | _ => None
  end.

(** [Number(s)] for a string [s] (StringToNumber). *)
Definition toNumber (s : jsstring) : jsnumber :=
  match trim s with
  | [] => Dec false 0 0
  | t =>
      match scanDecimalLiteral t with
      | Some (x, []) => x
      | _ => match nonDecimalInteger t with
             | Some x => x
             | None => NaN
             end
      end
  end.

(** [isNaN(s)] for a string [s]. *)
Definition isNaN (s : jsstring) : bool :=
  match toNumber s with NaN => true | _ => false end.

End JS.
Export JS.


(* ================================================================== *)
(** * constants                                                        *)
(* ================================================================== *)

Module Constants.

(** [GRAPH_TYPES] and [WEIGHT_TYPES] are plain booleans. *)
Definition DIRECTED := true.
Definition UNDIRECTED := false.
Definition WEIGHTED := true.
Definition UNWEIGHTED := false.

(** ** [VALIDATION_PATTERNS]

    Each pattern is anchored at both ends and is a sequence of greedy runs
    over character classes.  Neighbouring runs are over disjoint classes
    ([\s] against [\S], digits against the dot), so the greedy run is the
    only split a backtracking matcher can succeed with; the matchers below
    take each run with [span], left to right.  They are shown further down
    to accept exactly the strings the patterns describe, with the same
    captures ([EDGE_UNWEIGHTED_match_spec], [EDGE_WEIGHTED_match_spec]). *)

(** [[a-zA-Z0-9_-]] *)
Definition isNodeIdChar (c : N) : bool :=
  ((97 <=? c) && (c <=? 122)) || ((65 <=? c) && (c <=? 90)) ||
  ((48 <=? c) && (c <=? 57)) || (c =? 95) || (c =? 45).

(** [NODE_ID.test(s)] with [NODE_ID = /^[a-zA-Z0-9_-]+$/] *)
Definition NODE_ID_test (s : jsstring) : bool :=
  nonEmpty s && forallb isNodeIdChar s.

(** [s.match(EDGE_UNWEIGHTED)] with
    [EDGE_UNWEIGHTED = /^\s*(\S+)\s+(\S+)\s*$/]: the two captures. *)
Definition EDGE_UNWEIGHTED_match (s : jsstring)
  : option (jsstring * jsstring) :=
  let s0 := dropWhile isWhiteSpace s in                 (* ^\s*   *)
  let '(g1, s1) := span nonWhiteSpace s0 in             (* (\S+)  *)
  let '(w1, s2) := span isWhiteSpace s1 in              (* \s+    *)
  let '(g2, s3) := span nonWhiteSpace s2 in             (* (\S+)  *)
  let s4 := dropWhile isWhiteSpace s3 in                (* \s*    *)
  if nonEmpty g1 && nonEmpty w1 && nonEmpty g2 && negb (nonEmpty s4)   (* $ *)
  then Some (g1, g2) else None.

(** [(\d+(?:\.\d+)?)]: digits, then a dot and digits if both are there. *)
Definition scanWeight (s : jsstring) : jsstring * jsstring :=
  let '(ip, r1) := span isDigit s in
  if nonEmpty ip then
    match r1 with
    | c :: r' =>
        if c =? 46 then
          let '(fp, r2) := span isDigit r' in
          if nonEmpty fp then (ip ++ 46 :: fp, r2) else (ip, r1)
        else (ip, r1)
    | [] => (ip, r1)
    end
  else ([], s).

(** [s.match(EDGE_WEIGHTED)] with
    [EDGE_WEIGHTED = /^\s*(\S+)\s+(\S+)\s+(\d+(?:\.\d+)?)\s*$/]:
    the three captures. *)
Definition EDGE_WEIGHTED_match (s : jsstring)
  : option (jsstring * jsstring * jsstring) :=
  let s0 := dropWhile isWhiteSpace s in                 (* ^\s*   *)
  let '(g1, s1) := span nonWhiteSpace s0 in             (* (\S+)  *)
  let '(w1, s2) := span isWhiteSpace s1 in              (* \s+    *)
  let '(g2, s3) := span nonWhiteSpace s2 in             (* (\S+)  *)
  let '(w2, s4) := span isWhiteSpace s3 in              (* \s+    *)
  let '(g3, s5) := scanWeight s4 in                     (* (\d+(?:\.\d+)?) *)
  let s6 := dropWhile isWhiteSpace s5 in                (* \s*    *)
  if nonEmpty g1 && nonEmpty w1 && nonEmpty g2 && nonEmpty w2
     && nonEmpty g3 && negb (nonEmpty s6)               (* $ *)
  then Some (g1, g2, g3) else None.

(** ** [ERROR_MESSAGES] *)
Definition INVALID_INPUT :=
  js "Invalid input format. Please check your edge definitions.".
Definition MISSING_SOURCE :=
  js "Please specify a start node for this algorithm.".
Definition INVALID_GRAPH_TYPE :=
  js "This algorithm requires a different graph type.".
Definition ALGORITHM_ERROR :=
  js "An error occurred while running the algorithm.".
Definition EMPTY_GRAPH :=
  js "Please add some edges to create a graph.".

End Constants.
Export Constants.

(* ================================================================== *)
(** * utils: the validator                                             *)
(* ================================================================== *)

Module Utils.

(** [isValidNodeId]: its argument is always a string here. *)
Definition isValidNodeId (nodeId : jsstring) : bool := NODE_ID_test nodeId.

(** The object returned by [validateEdgeInput]: either
    [{ isValid: false, error }] or [{ isValid: true, source, target, weight }],
    where [weight] is [undefined] ([None]) in unweighted mode. *)
Inductive EdgeValidation :=
| Invalid (error : jsstring)
| Valid (source target : jsstring) (weight : option jsnumber).

(** [trimmed.match(pattern)] followed by
    [const [, source, target, weight] = match]; the third capture is
    [undefined] for the unweighted pattern. *)
Definition matchPattern (isWeighted : bool) (trimmed : jsstring)
  : option (jsstring * jsstring * option jsstring) :=
  if isWeighted then
    match EDGE_WEIGHTED_match trimmed with
    | Some (s, t, w) => Some (s, t, Some w)
    | None => None
    end
  else
    match EDGE_UNWEIGHTED_match trimmed with
    | Some (s, t) => Some (s, t, None)
    | None => None
    end.

Definition EDGE_EMPTY := js "Edge cannot be empty".
(** The two format messages quote the expected shape in double quotes
    (code unit 34). *)
Definition BAD_WEIGHTED_FORMAT :=
  js "Invalid weighted edge format. Expected: "
     ++ 34 :: js "node1 node2 weight" ++ [34].
Definition BAD_FORMAT :=
  js "Invalid edge format. Expected: " ++ 34 :: js "node1 node2" ++ [34].
Definition BAD_NODE_ID := js "Invalid node ID format".
Definition SELF_LOOP := js "Self-loops are not supported".
Definition BAD_WEIGHT := js "Weight must be a non-negative number".

(** [isNaN(weight) || parseFloat(weight) < 0]; [isNaN(undefined)] is true. *)
Definition badWeight (weight : option jsstring) : bool :=
  match weight with
  | Some w => isNaN w || ltZero (parseFloat w)
  | None => true
  end.

Definition validateEdgeInput (edgeString : jsstring) (isWeighted : bool)
  : EdgeValidation :=
  let trimmed := trim edgeString in
  if negb (nonEmpty trimmed) then Invalid EDGE_EMPTY
  else
    match matchPattern isWeighted trimmed with
    | None =>
        Invalid (if isWeighted then BAD_WEIGHTED_FORMAT else BAD_FORMAT)
    | Some (source, target, weight) =>
        if negb (isValidNodeId source) || negb (isValidNodeId target)
        then Invalid BAD_NODE_ID
        else if streq source target then Invalid SELF_LOOP
        else if isWeighted && badWeight weight then Invalid BAD_WEIGHT
        else Valid source target
               (if isWeighted
                then match weight with
                     | Some w => Some (parseFloat w)
                     | None => Some NaN
                     end
                else None)
    end.

Record Edge := mkEdge
  { source : jsstring; target : jsstring; weight : option jsnumber }.

(** The object returned by [validateGraphInput]. *)
Record GraphValidation := mkGraphValidation
  { isValid : bool; errors : list jsstring; edges : list Edge }.

(** The three locals the [forEach] callback updates: [errors], [edges] and
    [edgeSet] (a [Set] of strings, kept in insertion order). *)
Record LoopState := mkLoop
  { errs : list jsstring; accepted : list Edge; edgeSet : list jsstring }.

Definition setHas (set : list jsstring) (key : jsstring) : bool :=
  existsb (streq key) set.

(** [`Line ${index + 1}: ${text}`] *)
Definition lineMessage (index : nat) (text : jsstring) : jsstring :=
  js "Line " ++ decimal (index + 1) ++ js ": " ++ text.

Definition DUPLICATE_EDGE := js "Duplicate edge detected".

(** [`${a}-${b}`] *)
Definition edgeKeyOf (a b : jsstring) : jsstring := a ++ js "-" ++ b.

(** The callback passed to [lines.forEach]. *)
Definition forEachBody (isWeighted : bool) (st : LoopState)
    (line : jsstring) (index : nat) : LoopState :=
  match validateEdgeInput line isWeighted with
  | Invalid error =>
      mkLoop (errs st ++ [lineMessage index error]) (accepted st) (edgeSet st)
  | Valid source target weight =>
      let edgeKey := edgeKeyOf source target in
      let reverseEdgeKey := edgeKeyOf target source in
      if setHas (edgeSet st) edgeKey || setHas (edgeSet st) reverseEdgeKey
      then mkLoop (errs st ++ [lineMessage index DUPLICATE_EDGE])
                  (accepted st) (edgeSet st)
      else mkLoop (errs st)
                  (accepted st ++ [mkEdge source target weight])
                  (edgeSet st ++ [edgeKey])
  end.

(** [errors = []], [edges = []], [edgeSet = new Set()]. *)
Definition loopStart : LoopState := mkLoop [] [] [].

(** [lines.forEach((line, index) => ...)], started at [index]. *)
Fixpoint forEach (isWeighted : bool) (lines : list jsstring) (index : nat)
    (st : LoopState) : LoopState :=
  match lines with
  | [] => st
  | line :: rest =>
      forEach isWeighted rest (S index) (forEachBody isWeighted st line index)
  end.

(** [input.trim().split('\n').map(line => line.trim()).filter(Boolean)] *)
Definition graphLines (input : jsstring) : list jsstring :=
  filter nonEmpty (List.map trim (split_newline (trim input))).

Definition validateGraphInput (input : jsstring) (isWeighted : bool)
  : GraphValidation :=
  if negb (nonEmpty input) || negb (nonEmpty (trim input))
  then mkGraphValidation false [EMPTY_GRAPH] []
  else
    let st := forEach isWeighted (graphLines input) 0 loopStart in
    mkGraphValidation (Nat.eqb (List.length (errs st)) 0)
                      (errs st) (accepted st).

End Utils.
Export Utils.

(* ================================================================== *)
(** * useGraphState: the graph state manager                           *)
(* ================================================================== *)

Module GraphStateManager.

(** Modelled from the spec: the graph model produced by the graph parser
    ([parseGraphInput], imported from Hooks/DataFetch, which is not part of
    the sources): nodes carry an identifier, links are edges, and the
    adjacency structure maps a node identifier to its ordered list of
    (neighbour, weight?) pairs. *)
Record Node := mkNode { id : jsstring }.
Definition AdjList := list (jsstring * list (jsstring * option jsnumber)).
Record ParsedGraph := mkParsed
  { p_nodes : list Node; p_links : list Edge; p_adjList : AdjList }.

(** The [useState] cells of the hook. *)
Record GraphState := mkState
  { nodes : list Node;
    links : list Edge;
    adjList : AdjList;
    isDirected : bool;
    isWeighted : bool;
    inputText : jsstring;
    inputErrors : list jsstring;
    isValidGraph : bool }.

(** The hook as first rendered. *)
Definition initialState : GraphState :=
  mkState [] [] [] UNDIRECTED UNWEIGHTED [] [] false.

(** One call of the parser: its three arguments. *)
Definition ParserCall := (jsstring * bool * bool)%type.

(** A state update together with the parser calls made on the way. *)
Record Run := mkRun { after : GraphState; parserCalls : list ParserCall }.

Definition setModel (st : GraphState) (errors : list jsstring) (valid : bool)
    (ns : list Node) (ls : list Edge) (adj : AdjList) : GraphState :=
  mkState ns ls adj (isDirected st) (isWeighted st) (inputText st)
          errors valid.

Section WithParser.
(** The graph parser; [None] stands for a thrown exception. *)
Variable parseGraphInput : jsstring -> bool -> bool -> option ParsedGraph.

Definition parseAndValidateInput (input : jsstring)
    (directed weighted : bool) (st : GraphState) : Run :=
  let validation := validateGraphInput input weighted in
  if negb (isValid validation) then
    mkRun (setModel st (errors validation) false [] [] []) []
  else
    match parseGraphInput input directed weighted with
    | Some g =>
        mkRun (setModel st [] true (p_nodes g) (p_links g) (p_adjList g))
              [(input, directed, weighted)]
    | None =>                                            (* catch *)
        mkRun (setModel st [INVALID_INPUT] false [] [] [])
              [(input, directed, weighted)]
    end.

(** The effect that runs whenever the input text or a flag changes. *)
Definition reparse (st : GraphState) : Run :=
  if nonEmpty (trim (inputText st))
  then parseAndValidateInput (inputText st) (isDirected st) (isWeighted st)
                             st
  else mkRun (setModel st [] false [] [] []) [].

(** [handleInputChange], [setGraphDirected], [setGraphWeighted], each
    followed by the effect. *)
Definition handleInputChange (text : jsstring) (st : GraphState) : Run :=
  reparse (mkState (nodes st) (links st) (adjList st) (isDirected st)
                   (isWeighted st) text (inputErrors st) (isValidGraph st)).

Definition setGraphDirected (directed : bool) (st : GraphState) : Run :=
  reparse (mkState (nodes st) (links st) (adjList st) directed
                   (isWeighted st) (inputText st) (inputErrors st)
                   (isValidGraph st)).

Definition setGraphWeighted (weighted : bool) (st : GraphState) : Run :=
  reparse (mkState (nodes st) (links st) (adjList st) (isDirected st)
                   weighted (inputText st) (inputErrors st)
                   (isValidGraph st)).
(** [clearGraph]: the text and the model are emptied, and the effect runs
    on the empty text. *)
Definition clearGraph (st : GraphState) : Run :=
  reparse (mkState [] [] [] (isDirected st) (isWeighted st) [] [] false).

(** The actions through which the hook lets its user change the text and
    the flags. *)
Inductive Action :=
| InputChange (text : jsstring)
| SetDirected (directed : bool)
| SetWeighted (weighted : bool)
| ClearGraph.

Definition act (a : Action) (st : GraphState) : Run :=
  match a with
  | InputChange text => handleInputChange text st
  | SetDirected directed => setGraphDirected directed st
  | SetWeighted weighted => setGraphWeighted weighted st
  | ClearGraph => clearGraph st
  end.

(** The state after a sequence of actions. *)
Definition runActions (actions : list Action) (st : GraphState)
  : GraphState :=
  fold_left (fun s a => after (act a s)) actions st.
End WithParser.

(** The object returned by [canRunAlgorithm]; [reason] is absent on
    acceptance. *)
Record Verdict := mkVerdict { canRun : bool; reason : option jsstring }.

Definition reject (why : jsstring) : Verdict := mkVerdict false (Some why).
Definition accept : Verdict := mkVerdict true None.

Definition SOURCE_NOT_IN_GRAPH :=
  js "Source node does not exist in the graph".
Definition SCC_NEEDS_DIRECTED :=
  js "Strongly Connected Components requires a directed graph".
Definition MST_NEEDS_UNDIRECTED :=
  js "MST algorithms require an undirected graph".
Definition MST_NEEDS_WEIGHTED :=
  js "MST algorithms require a weighted graph".

(** [!sourceNode]: [null] ([None]) and the empty string are falsy. *)
Definition noSource (sourceNode : option jsstring) : bool :=
  match sourceNode with
  | None => true
  | Some s => negb (nonEmpty s)
  end.

(** [nodes.some(node => node.id === sourceNode)] *)
Definition hasNode (ns : list Node) (sourceNode : option jsstring) : bool :=
  match sourceNode with
  | Some s => existsb (fun node => streq (id node) s) ns
  | None => false
  end.

Definition canRunAlgorithm (st : GraphState) (algorithmType : jsstring)
    (sourceNode : option jsstring) : Verdict :=
  if negb (isValidGraph st) || Nat.eqb (List.length (nodes st)) 0
  then reject EMPTY_GRAPH
  else if streq algorithmType (js "dfs") || streq algorithmType (js "bfs")
          || streq algorithmType (js "dijkstra") then
    if noSource sourceNode then reject MISSING_SOURCE
    else if negb (hasNode (nodes st) sourceNode)
    then reject SOURCE_NOT_IN_GRAPH
    else accept
  else if streq algorithmType (js "scc") then
    if negb (isDirected st) then reject SCC_NEEDS_DIRECTED else accept
  else if streq algorithmType (js "prims")
          || streq algorithmType (js "kruskals") then
    if isDirected st then reject MST_NEEDS_UNDIRECTED
    else if negb (isWeighted st) then reject MST_NEEDS_WEIGHTED
    else accept
  else accept.

End GraphStateManager.
Export GraphStateManager.

(* ================================================================== *)
(** * useAlgorithmExecution: the execution controller                  *)
(* ================================================================== *)

Module Controller.

(** JavaScript values, as far as the controller looks at them. *)
Inductive jsvalue :=
| VUndefined
| VNull
| VBool (b : bool)
| VNumber (x : jsnumber)
| VString (s : jsstring)
| VObject (ref : N).

(** ToBoolean *)
Definition truthy (v : jsvalue) : bool :=
  match v with
  | VUndefined | VNull => false
  | VBool b => b
  | VNumber NaN => false
  | VNumber (Infinity _) => true
  | VNumber (Dec _ m e) => negb (roundsToZero m e)
  | VString s => nonEmpty s
  | VObject _ => true
  end.

(** [a || b] *)
Definition or_else (a b : jsvalue) : jsvalue := if truthy a then a else b.

(** The [useState] cells and the [useRef] cell of the hook. *)
Record ExecState := mkExec
  { isRunning : bool;
    error : jsvalue;
    result : jsvalue;
    resultReady : bool;
    speedrunRef : jsstring }.

Definition initialExec : ExecState :=
  mkExec false (VString []) (VString []) false [].

(** [options]; an absent [errorMessage] reads as [undefined]. *)
Record Options := mkOptions { errorMessage : jsvalue }.
Definition noOptions : Options := mkOptions VUndefined.

(** ** Statements over the hook state that complete normally or throw *)

Inductive Completion (A : Type) :=
| Normal (a : A)
| Throw (e : jsvalue).
Arguments Normal {A} a.
Arguments Throw {A} e.

Definition M (A : Type) := ExecState -> Completion A * ExecState.

Definition ret {A} (a : A) : M A := fun st => (Normal a, st).

Definition bind {A B} (m : M A) (k : A -> M B) : M B :=
  fun st =>
    match m st with
    | (Normal a, st') => k a st'
    | (Throw e, st') => (Throw e, st')
    end.

(** [try { body } catch (e) { handler(e) }] *)
Definition tryCatch {A} (body : M A) (handler : jsvalue -> M A) : M A :=
  fun st =>
    match body st with
    | (Normal a, st') => (Normal a, st')
    | (Throw e, st') => handler e st'
    end.

(** [try { body } finally { fin }]: [fin] always runs; the completion is
    that of [body] unless [fin] itself throws. *)
Definition tryFinally {A} (body : M A) (fin : M unit) : M A :=
  fun st =>
    match body st with
    | (c, st') =>
        match fin st' with
        | (Normal _, st'') => (c, st'')
        | (Throw e, st'') => (Throw e, st'')
        end
    end.

Notation "x <- m ;; k" := (bind m (fun x => k))
  (at level 61, m at next level, right associativity).
Notation "m ;; k" := (bind m (fun _ => k))
  (at level 61, right associativity).

Definition setIsRunning (b : bool) : M unit := fun st =>
  (Normal tt, mkExec b (error st) (result st) (resultReady st) (speedrunRef st)).
Definition setError (v : jsvalue) : M unit := fun st =>
  (Normal tt,
   mkExec (isRunning st) v (result st) (resultReady st) (speedrunRef st)).
Definition setResult (v : jsvalue) : M unit := fun st =>
  (Normal tt,
   mkExec (isRunning st) (error st) v (resultReady st) (speedrunRef st)).
Definition setResultReady (b : bool) : M unit := fun st =>
  (Normal tt,
   mkExec (isRunning st) (error st) (result st) b (speedrunRef st)).
(** [speedrunRef.current = s] *)
Definition setSpeedrun (s : jsstring) : M unit := fun st =>
  (Normal tt,
   mkExec (isRunning st) (error st) (result st) (resultReady st) s).
(** [console.warn], [console.error], [console.log], [performance.now]. *)
Definition console : M unit := ret tt.

(** The statements before the [try]: the guard and the reset of the state.
    Returns whether the guard let the call through.

    [isRunning] is the variable of the closure: the callback is made by
    [useCallback(..., [isRunning])] in a render of the hook, and what it
    tests is the value that render saw, whatever the state cell holds when
    the call is made. *)
Definition enter (isRunning : bool) : M bool :=
  if isRunning then
    console ;; ret false
  else
    setError (VString []) ;;
    setResult (VString []) ;;
    setResultReady false ;;
    setIsRunning true ;;
    ret true.

(** The body of the [try] after [await algorithmFn()] has produced
    [algorithmResult]. *)
Definition onResult (algorithmResult : jsvalue) : M unit :=
  (if truthy algorithmResult
   then setResult algorithmResult ;; setResultReady true
   else ret tt) ;;
  console.

(** The [catch] block. *)
Definition onError (options : Options) (algorithmError : jsvalue) : M unit :=
  console ;;
  setError (or_else (errorMessage options) (VString ALGORITHM_ERROR)).

(** The [finally] block. *)
Definition cleanup : M unit :=
  setIsRunning false ;;
  setSpeedrun [].

(** [executeAlgorithm(algorithmFn, options)], as made by a render that saw
    [isRunning].  [algorithmFn] is a statement of its own: while it runs
    (and is awaited) it may change the hook state through the hook's
    actions, and it completes with a value or throws.  The result is the
    completion of the returned promise. *)
Definition executeAlgorithm (isRunning : bool) (algorithmFn : M jsvalue)
    (options : Options) : M unit :=
  entered <- enter isRunning ;;
  if entered then
    tryFinally
      (tryCatch
         (algorithmResult <- algorithmFn ;; onResult algorithmResult)
         (onError options))
      cleanup
  else ret tt.

(** [setSpeed], [clearError], [clearResult], [reset]. *)
Definition setSpeed (speed : jsstring) : M unit := setSpeedrun speed.
Definition clearError : M unit := setError (VString []).
Definition clearResult : M unit :=
  setResult (VString []) ;; setResultReady false.
Definition reset : M unit :=
  setIsRunning false ;; setError (VString []) ;; setResult (VString []) ;;
  setResultReady false ;; setSpeedrun [].

(** ** Interleavings

    [executeAlgorithm] is [async]: between the call and the moment the
    awaited algorithm settles, other actions of the hook can run, and React
    renders the component again when it sees fit after a change of state.
    The machine below records what the latest render saw of [isRunning]
    (the component calls the [executeAlgorithm] of its latest render) and
    the invocations that passed the guard and have not settled yet. *)
Inductive Event :=
| Render                                (* React renders the hook again    *)
| Invoke (options : Options)            (* executeAlgorithm is called      *)
| Settle (c : Completion jsvalue)       (* the awaited algorithm completes *)
| SetSpeed (speed : jsstring)
| ClearError
| ClearResult
| SetResult (v : jsvalue)
| SetResultReady (b : bool)
| Reset.

Record Machine := mkMachine
  { hook : ExecState; rendered : bool; inFlight : list Options }.

Definition exec {A} (m : M A) (st : ExecState) : ExecState := snd (m st).

(** What happens once the awaited algorithm has completed with [c]. *)
Definition settle (options : Options) (c : Completion jsvalue) : M unit :=
  tryFinally
    (tryCatch
       (algorithmResult <- (fun st => (c, st)) ;; onResult algorithmResult)
       (onError options))
    cleanup.

(** An action of the hook that only changes the state cells. *)
Definition withHook (m : Machine) (st : ExecState) : Machine :=
  mkMachine st (rendered m) (inFlight m).

Definition step (m : Machine) (ev : Event) : Machine :=
  match ev with
  | Render => mkMachine (hook m) (isRunning (hook m)) (inFlight m)
  | Invoke options =>
      match enter (rendered m) (hook m) with
      | (Normal true, st) => mkMachine st (rendered m) (inFlight m ++ [options])
      | (_, st) => withHook m st
      end
  | Settle c =>
      match inFlight m with
      | options :: rest =>
          mkMachine (exec (settle options c) (hook m)) (rendered m) rest
      | [] => m
      end
  | SetSpeed speed => withHook m (exec (setSpeed speed) (hook m))
  | ClearError => withHook m (exec clearError (hook m))
  | ClearResult => withHook m (exec clearResult (hook m))
  | SetResult v => withHook m (exec (setResult v) (hook m))
  | SetResultReady b => withHook m (exec (setResultReady b) (hook m))
  | Reset => withHook m (exec reset (hook m))
  end.

Definition runEvents (trace : list Event) (m : Machine) : Machine :=
  fold_left step trace m.

Definition initialMachine : Machine := mkMachine initialExec false [].

Definition isReset (ev : Event) : bool :=
  match ev with Reset => true | _ => false end.

End Controller.
Export Controller.

(* ================================================================== *)
(** * utils: [deepClone]                                               *)
(* ================================================================== *)

Module Cloning.

(** The objects of the heap, as far as [deepClone] tells them apart: a
    [Date] with its time value; an [Array] with its elements (dense, and
    with no other property of its own); and an object made by [{}] with the
    properties of its own (enumerable data properties under distinct string
    keys, in [for...in] order), whose prototype is [Object.prototype]
    ([OPlain]) or has been replaced by [proto], [null] or another object
    ([OOther]), which is what an assignment to [__proto__] does.  No value
    is a function, and [Object.prototype], [Array.prototype] and
    [Date.prototype] are as the engine made them. *)
Inductive HeapObject :=
| ODate (time : jsnumber)
| OArray (items : list jsvalue)
| OPlain (props : list (jsstring * jsvalue))
| OOther (proto : jsvalue) (props : list (jsstring * jsvalue)).

(** The heap: [VObject a] refers to the object at position [a]. *)
Definition Heap := list HeapObject.

Definition lookup (h : Heap) (a : N) : option HeapObject :=
  nth_error h (N.to_nat a).

(** The address the next new object gets. *)
Definition fresh (h : Heap) : N := N.of_nat (List.length h).

(** Writing to an object that exists. *)
Definition store (h : Heap) (a : N) (o : HeapObject) : Heap :=
  firstn (N.to_nat a) h ++ o :: skipn (S (N.to_nat a)) h.

(** How a call of [deepClone] ends: with the clone and the heap as it is
    then, with the call stack exhausted (a [RangeError]), or with a
    [TypeError].  A reference to no object at all does not occur in a real
    heap; and what the code does with an object whose prototype is another
    object of the heap depends on the whole chain of prototypes, which is
    not followed here. *)
Inductive Result :=
| Done (clone : jsvalue) (h : Heap)
| StackOverflow
| TypeError
| NoSuchObject
| NotModelled.

(** Whether [props] has a property named [key]. *)
Definition ownKey (key : jsstring) (props : list (jsstring * jsvalue))
  : bool :=
  existsb (fun kv => streq (fst kv) key) props.

(** Whether [obj.hasOwnProperty] is the function of [Object.prototype]: it
    is unless the object has a property of that name of its own, whose
    value is then not a function, or has no prototype to take it from. *)
Definition inheritsHasOwnProperty (obj : HeapObject) : bool :=
  match obj with
  | OPlain props => negb (ownKey (js "hasOwnProperty") props)
  | _ => false
  end.

(** [clonedObj[key] = value], [clonedObj] having no property [key] yet.
    Under the key [__proto__] an object that inherits from
    [Object.prototype] finds the setter of that name: it replaces the
    prototype when [value] is an object or [null] and does nothing
    otherwise, and no property is made.  Every other assignment makes a
    property of [clonedObj]. *)
Definition assign (clonedObj : HeapObject) (key : jsstring)
    (value : jsvalue) : HeapObject :=
  match clonedObj with
  | OPlain props =>
      if streq key (js "__proto__") then
        match value with
        | VObject _ | VNull => OOther value props
        | _ => clonedObj
        end
      else OPlain (props ++ [(key, value)])
  | OOther proto props => OOther proto (props ++ [(key, value)])
  | ODate _ | OArray _ => clonedObj
  end.

Section Body.

(** The recursive calls. *)
Variable rec : Heap -> jsvalue -> Result.

(** [obj.map(item => deepClone(item))], the new array being at [a']: its
    elements are set one after the other. *)
Fixpoint cloneItems (a' : N) (todo done : list jsvalue) (h : Heap)
  : Result :=
  match todo with
  | [] => Done (VObject a') h
  | item :: rest =>
      match rec h item with
      | Done item' h1 =>
          cloneItems a' rest (done ++ [item'])
                     (store h1 a' (OArray (done ++ [item'])))
      | failure => failure
      end
  end.

(** [for (const key in obj) if (obj.hasOwnProperty(key))
      clonedObj[key] = deepClone(obj[key])], over the properties [todo] of
    [obj] that are still to come, [clonedObj] being at [a'].  [callable]
    tells whether [obj.hasOwnProperty] can be called: the call is made in
    every round, and it is a [TypeError] if not. *)
Fixpoint cloneProps (callable : bool) (a' : N)
    (todo : list (jsstring * jsvalue)) (clonedObj : HeapObject) (h : Heap)
  : Result :=
  match todo with
  | [] => Done (VObject a') h
  | (key, value) :: rest =>
      if callable then
        match rec h value with
        | Done value' h1 =>
            let clonedObj' := assign clonedObj key value' in
            cloneProps callable a' rest clonedObj' (store h1 a' clonedObj')
        | failure => failure
        end
      else TypeError
  end.

(** The body of [deepClone]. *)
Definition cloneBody (h : Heap) (obj : jsvalue) : Result :=
  match obj with
  | VObject a =>
      match lookup h a with
      | None => NoSuchObject
      | Some (ODate time) =>                (* new Date(obj.getTime()) *)
          Done (VObject (fresh h)) (h ++ [ODate time])
      | Some (OArray items) =>
          cloneItems (fresh h) items [] (h ++ [OArray []])
      | Some (OPlain props as o) | Some (OOther VNull props as o) =>
          (* const clonedObj = {} *)
          cloneProps (inheritsHasOwnProperty o) (fresh h) props
                     (OPlain []) (h ++ [OPlain []])
      | Some (OOther _ _) => NotModelled
      end
  | _ => Done obj h        (* obj === null || typeof obj !== 'object' *)
  end.

End Body.

(** [deepClone(obj)] with room for [depth] nested calls on the stack. *)
Fixpoint deepClone (depth : nat) (h : Heap) (obj : jsvalue) : Result :=
  match depth with
  | O => StackOverflow
  | S depth' => cloneBody (deepClone depth') h obj
  end.

(** ** Values as trees *)

(** What a value looks like when its references are followed. *)
#[local] Unset Elimination Schemes.
Inductive Tree :=
| TValue (v : jsvalue)
| TDate (time : jsnumber)
| TArray (items : list Tree)
| TPlain (props : list (jsstring * Tree)).
#[local] Set Elimination Schemes.

Definition isObject (v : jsvalue) : bool :=
  match v with VObject _ => true | _ => false end.

(** In heap [h] the value [v] unfolds to the tree [t], and every object
    met on the way has an address of at least [lo]. *)
Fixpoint unfolds (lo : N) (h : Heap) (t : Tree) (v : jsvalue) : Prop :=
  match t with
  | TValue p => v = p /\ isObject p = false
  | TDate time =>
      exists a, v = VObject a /\ lo <= a /\ lookup h a = Some (ODate time)
  | TArray ts =>
      exists a items,
        v = VObject a /\ lo <= a /\ lookup h a = Some (OArray items)
        /\ (fix each (ts : list Tree) (items : list jsvalue) : Prop :=
              match ts, items with
              | [], [] => True
              | t :: ts', item :: items' =>
                  unfolds lo h t item /\ each ts' items'
              | _, _ => False
              end) ts items
  | TPlain tps =>
      exists a props,
        v = VObject a /\ lo <= a /\ lookup h a = Some (OPlain props)
        /\ (fix each (tps : list (jsstring * Tree))
                     (props : list (jsstring * jsvalue)) : Prop :=
              match tps, props with
              | [], [] => True
              | (k, t) :: tps', (key, value) :: props' =>
                  k = key /\ unfolds lo h t value /\ each tps' props'
              | _, _ => False
              end) tps props
  end.

(** The two keys that [deepClone] does not treat as a plain property
    name. *)
Definition reserved (key : jsstring) : bool :=
  streq key (js "hasOwnProperty") || streq key (js "__proto__").

(** No object of the tree has a property under one of the two. *)
Fixpoint plainKeys (t : Tree) : bool :=
  match t with
  | TValue _ | TDate _ => true
  | TArray ts => forallb plainKeys ts
  | TPlain tps =>
      forallb (fun kt => negb (reserved (fst kt)) && plainKeys (snd kt)) tps
  end.

(** How deep the objects of a tree are nested. *)
Fixpoint nesting (t : Tree) : nat :=
  match t with
  | TValue _ | TDate _ => 0
  | TArray ts => S (fold_right (fun t m => Nat.max (nesting t) m) 0%nat ts)
  | TPlain tps =>
      S (fold_right (fun kt m => Nat.max (nesting (snd kt)) m) 0%nat tps)
  end.

(** The values an object holds. *)
Definition refs (o : HeapObject) : list jsvalue :=
  match o with
  | ODate _ => []
  | OArray items => items
  | OPlain props => map snd props
  | OOther proto props => proto :: map snd props
  end.

(** The object at [a] holds a reference to the object at [b]. *)
Definition child (h : Heap) (a b : N) : Prop :=
  exists o, lookup h a = Some o /\ In (VObject b) (refs o).

(** [b] is met when the references of [a] are followed, in one step or
    more. *)
Inductive reaches (h : Heap) : N -> N -> Prop :=
| reach_one a b : child h a b -> reaches h a b
| reach_more a b c : child h a b -> reaches h b c -> reaches h a c.

(** A reference that refers to an object of [h]; any other value. *)
Definition valid (h : Heap) (v : jsvalue) : Prop :=
  match v with
  | VObject b => (N.to_nat b < List.length h)%nat
  | _ => True
  end.

(** No object of [h] holds a reference to nothing, as in any real heap. *)
Definition closed (h : Heap) : Prop :=
  forall a o, lookup h a = Some o -> Forall (valid h) (refs o).

(** A date, an array, or an object that inherits from [Object.prototype]
    and has no property named [hasOwnProperty] of its own. *)
Definition ordinaryObject (o : HeapObject) : bool :=
  match o with
  | ODate _ | OArray _ => true
  | OPlain props => negb (ownKey (js "hasOwnProperty") props)
  | OOther _ _ => false
  end.

Definition ordinary (h : Heap) : Prop :=
  forall a o, lookup h a = Some o -> ordinaryObject o = true.

(** Every object of [h] is still in [h'], unchanged. *)
Definition keeps (h h' : Heap) : Prop :=
  forall a o, lookup h a = Some o -> lookup h' a = Some o.

(** What a call that clones [t] achieves: it returns, the clone unfolds to
    the same tree through objects that are all new, and the heap it started
    from is kept. *)
Definition clonesWell (call : Heap -> jsvalue -> Result) (t : Tree) : Prop :=
  forall h v,
    unfolds 0 h t v ->
    exists v' h',
      call h v = Done v' h'
      /\ unfolds (fresh h) h' t v'
      /\ keeps h h'
      /\ (List.length h <= List.length h')%nat.

End Cloning.

(* ================================================================== *)
(** * utils: [debounce] and [throttle]                                 *)
(* ================================================================== *)

Module Timing.

(** The engine's timers: the callbacks handed to [setTimeout] that have
    neither run nor been cleared, oldest first, each under its timer id.  A
    callback is kept as the data it closes over.  How long a timer waits is
    the engine's business: it runs a pending timer when it sees fit. *)
Record Timers (Callback : Type) := mkTimers
  { nextId : nat; pending : list (nat * Callback) }.
Arguments mkTimers {Callback}.
Arguments nextId {Callback}.
Arguments pending {Callback}.

(** [setTimeout(callback, wait)]: a fresh id. *)
Definition setTimeout {C} (callback : C) (t : Timers C) : nat * Timers C :=
  (nextId t, mkTimers (S (nextId t)) (pending t ++ [(nextId t, callback)])).

(** [clearTimeout(id)]; nothing happens for [undefined] or an id that is
    not pending. *)
Definition clearTimeout {C} (id : option nat) (t : Timers C) : Timers C :=
  match id with
  | None => t
  | Some i =>
      mkTimers (nextId t)
               (filter (fun p => negb (Nat.eqb (fst p) i)) (pending t))
  end.

Section WithArgs.

(** The arguments of one call ([...args]). *)
Variable Args : Type.

(** ** [debounce(func, wait)]

    The closure's variable [timeout], the timers it has set, and the calls
    of [func] made so far (their arguments, oldest first).  The callback
    [later] closes over the [args] of the call that set it. *)
Record Debounced := mkDebounced
  { timeout : option nat; timers : Timers Args; funcCalls : list Args }.

Definition debounceStart : Debounced := mkDebounced None (mkTimers 0 []) [].

(** [executedFunction(...args)] *)
Definition debouncedCall (args : Args) (st : Debounced) : Debounced :=
  let t1 := clearTimeout (timeout st) (timers st) in
  let '(id, t2) := setTimeout args t1 in
  mkDebounced (Some id) t2 (funcCalls st).

(** The engine runs the oldest pending timer, if there is one: the timer
    leaves the table and [later] runs, that is [clearTimeout(timeout)] and
    then [func(...args)]. *)
Definition debouncedFire (st : Debounced) : Debounced :=
  match pending (timers st) with
  | [] => st
  | (id, args) :: rest =>
      let t0 := mkTimers (nextId (timers st)) rest in
      mkDebounced (timeout st) (clearTimeout (timeout st) t0)
                  (funcCalls st ++ [args])
  end.

(** What happens to a debounced or throttled function. *)
Inductive Event :=
| Call (args : Args)
| Fire.

Definition debounceStep (st : Debounced) (ev : Event) : Debounced :=
  match ev with
  | Call args => debouncedCall args st
  | Fire => debouncedFire st
  end.

Definition debounceRun (trace : list Event) : Debounced :=
  fold_left debounceStep trace debounceStart.

(** ** [throttle(func, limit)]

    The closure's variable [inThrottle] ([undefined] at first, which is
    falsy), the timers it has set (each callback is
    [() => inThrottle = false]), and the calls of [func] made so far. *)
Record Throttled := mkThrottled
  { inThrottle : bool; resets : Timers unit; passedCalls : list Args }.

Definition throttleStart : Throttled := mkThrottled false (mkTimers 0 []) [].

(** Whether [func] throws on given arguments. *)
Variable throws : Args -> bool.

(** [executedFunction(...args)]: when [func] throws, the exception leaves
    the function before [inThrottle] is set. *)
Definition throttledCall (args : Args) (st : Throttled) : Throttled :=
  if negb (inThrottle st) then
    if throws args
    then mkThrottled (inThrottle st) (resets st) (passedCalls st ++ [args])
    else
      let '(_, t) := setTimeout tt (resets st) in
      mkThrottled true t (passedCalls st ++ [args])
  else st.

(** The engine runs the oldest pending timer, if there is one. *)
Definition throttledFire (st : Throttled) : Throttled :=
  match pending (resets st) with
  | [] => st
  | _ :: rest =>
      mkThrottled false (mkTimers (nextId (resets st)) rest) (passedCalls st)
  end.

Definition throttleStep (st : Throttled) (ev : Event) : Throttled :=
  match ev with
  | Call args => throttledCall args st
  | Fire => throttledFire st
  end.

Definition throttleRun (trace : list Event) : Throttled :=
  fold_left throttleStep trace throttleStart.

End WithArgs.

Arguments Call {Args} args.
Arguments Fire {Args}.
Arguments timeout {Args}.
Arguments timers {Args}.
Arguments funcCalls {Args}.
Arguments inThrottle {Args}.
Arguments resets {Args}.
Arguments passedCalls {Args}.
Arguments debounceStep {Args}.
Arguments debounceRun {Args}.
Arguments throttleStep {Args}.
Arguments throttleRun {Args}.
Arguments throttledCall {Args}.
Arguments throttledFire {Args}.

End Timing.

(* ================================================================== *)
(** * Vocabulary of the statements                                     *)
(* ================================================================== *)

Module Vocabulary.

(** ** Eligibility *)

(** The kinds that need a source node, and the spanning-tree kinds. *)
Definition needsSource (kind : jsstring) : Prop :=
  kind = js "dfs" \/ kind = js "bfs" \/ kind = js "dijkstra".

Definition isMST (kind : jsstring) : Prop :=
  kind = js "prims" \/ kind = js "kruskals".

(** ** Lines of an input *)

(** A line is turned down by the loop, given the keys stored so far: it
    fails [validateEdgeInput], or its key or its reversed key is stored. *)
Definition lineRejected (weighted : bool) (seen : list jsstring)
    (line : jsstring) : Prop :=
  match validateEdgeInput line weighted with
  | Invalid _ => True
  | Valid s t _ => In (edgeKeyOf s t) seen \/ In (edgeKeyOf t s) seen
  end.

(** The keys stored when the loop reaches the line of index [k]. *)
Definition seenBefore (weighted : bool) (lines : list jsstring) (k : nat)
  : list jsstring :=
  edgeSet (forEach weighted (firstn k lines) 0 loopStart).

(** No line of the input is turned down. *)
Definition noLineRejected (weighted : bool) (input : jsstring) : Prop :=
  forall k line,
    nth_error (graphLines input) k = Some line ->
    ~ lineRejected weighted (seenBefore weighted (graphLines input) k) line.

(** [e] is a message labelled for the line of index [k] (counted from 0
    among the lines the loop sees): its text starts with "Line k+1: ". *)
Definition labelledFor (k : nat) (e : jsstring) : Prop :=
  exists text, e = lineMessage k text.

(** The model is empty and the parser was left alone. *)
Definition clearedWithoutParsing (run : Run) : Prop :=
  parserCalls run = []
  /\ nodes (after run) = []
  /\ links (after run) = []
  /\ adjList (after run) = []
  /\ isValidGraph (after run) = false.

(** ** Runs of characters and the meaning of the edge patterns *)

(** Every code unit of [s] is in the class [q]. *)
Definition all (q : N -> bool) (s : jsstring) : Prop :=
  Forall (fun c => q c = true) s.

(** [s] is empty or starts outside the class [q]: a run of [q] ends here. *)
Definition stops (q : N -> bool) (s : jsstring) : Prop :=
  match s with
  | [] => True
  | c :: _ => q c = false
  end.

(** Runs of whitespace, of non-whitespace, and of digits. *)
Abbreviation ws := (all isWhiteSpace).
Abbreviation word := (all nonWhiteSpace).
Abbreviation digits := (all isDigit).

(** What [/^\s*(\S+)\s+(\S+)\s*$/] means: the string is two words set
    apart by whitespace, with whitespace allowed around them. *)
Definition twoWords (s g1 g2 : jsstring) : Prop :=
  exists w0 w1 w2,
    s = w0 ++ g1 ++ w1 ++ g2 ++ w2
    /\ ws w0 /\ word g1 /\ g1 <> []
    /\ ws w1 /\ w1 <> []
    /\ word g2 /\ g2 <> []
    /\ ws w2.

(** What [(\d+(?:\.\d+)?)] means: digits, then possibly a dot and more
    digits. *)
Definition decimalShape (w : jsstring) : Prop :=
  exists ip,
    digits ip /\ ip <> []
    /\ (w = ip \/ exists fp, digits fp /\ fp <> [] /\ w = ip ++ 46 :: fp).

(** What [/^\s*(\S+)\s+(\S+)\s+(\d+(?:\.\d+)?)\s*$/] means: two words
    and a number of that shape, set apart by whitespace. *)
Definition twoWordsAndWeight (s g1 g2 g3 : jsstring) : Prop :=
  exists w0 w1 w2 w3,
    s = w0 ++ g1 ++ w1 ++ g2 ++ w2 ++ g3 ++ w3
    /\ ws w0 /\ word g1 /\ g1 <> []
    /\ ws w1 /\ w1 <> []
    /\ word g2 /\ g2 <> []
    /\ ws w2 /\ w2 <> []
    /\ decimalShape g3
    /\ ws w3.

(** [ip] or [ip.fp], as the weighted pattern captures it. *)
Definition decimalText (ip fp : jsstring) : jsstring :=
  if nonEmpty fp then ip ++ 46 :: fp else ip.

(** ** Edges *)

(** Two edges join the same two nodes, in the same or the opposite
    direction. *)
Definition samePair (e1 e2 : Edge) : Prop :=
  (source e1 = source e2 /\ target e1 = target e2)
  \/ (source e1 = target e2 /\ target e1 = source e2).

(** What every validated edge looks like in a given mode: valid, distinct
    endpoints, and a weight exactly in weighted mode, which is then a number
    that is not NaN and not below zero. *)
Definition wellFormedEdge (weighted : bool) (e : Edge) : Prop :=
  isValidNodeId (source e) = true
  /\ isValidNodeId (target e) = true
  /\ source e <> target e
  /\ (if weighted
      then exists w, weight e = Some w /\ w <> NaN /\ ltZero w = false
      else weight e = None).

(** What the loop keeps true of its three locals after [lines] lines. *)
Definition loopInvariant (weighted : bool) (lines : nat) (st : LoopState)
  : Prop :=
  (List.length (errs st) + List.length (accepted st) = lines)%nat
  /\ edgeSet st
     = List.map (fun e => edgeKeyOf (source e) (target e)) (accepted st)
  /\ Forall (wellFormedEdge weighted) (accepted st)
  /\ ForallOrdPairs (fun e1 e2 => ~ samePair e1 e2) (accepted st).

(** ** The graph state manager *)

(** The model, errors and verdict of a state are the ones the effect
    derives from the state's own text and flags. *)
Definition derived
    (parseGraphInput : jsstring -> bool -> bool -> option ParsedGraph)
    (st : GraphState) : Prop :=
  after (reparse parseGraphInput st) = st.

(** ** The controller *)

(** The hook state right after the guard has let a call through. *)
Definition entered (st : ExecState) : ExecState :=
  mkExec true (VString []) (VString []) false (speedrunRef st).

(** Either nothing is in flight and [isRunning] is false, or exactly one
    invocation is in flight and [isRunning] is true. *)
Definition oneAtATime (m : Machine) : Prop :=
  (isRunning (hook m) = false /\ inFlight m = [])
  \/ (isRunning (hook m) = true /\ exists options, inFlight m = [options]).

(** Every call of [executeAlgorithm] in the trace, run from [m], goes
    through a callback that is up to date: the render that made it saw the
    value [isRunning] has when the call is made. *)
Fixpoint calledUpToDate (trace : list Event) (m : Machine) : bool :=
  match trace with
  | [] => true
  | ev :: rest =>
      match ev with
      | Invoke _ => Bool.eqb (rendered m) (isRunning (hook m))
      | _ => true
      end
      && calledUpToDate rest (step m ev)
  end.

(** ** Debounced and throttled functions, seen from outside *)

(** What a debounced function should do, told without timers: remember the
    arguments of the latest call; when the timer runs, pass them to [func]
    and forget them. *)
Definition debounceSpecStep {Args} (sp : option Args * list Args)
    (ev : Timing.Event Args) : option Args * list Args :=
  match ev with
  | Timing.Call a => (Some a, snd sp)
  | Timing.Fire =>
      match fst sp with
      | Some a => (None, snd sp ++ [a])
      | None => sp
      end
  end.

Definition debounceSpec {Args} (trace : list (Timing.Event Args))
  : option Args * list Args :=
  fold_left debounceSpecStep trace (None, []).

(** What a throttled function should do, told without timers: a call
    passes when the function is not waiting, and makes it wait unless [func]
    throws; a call that finds it waiting is dropped; the timer ends the
    wait. *)
Definition throttleSpecStep {Args} (throws : Args -> bool)
    (sp : bool * list Args) (ev : Timing.Event Args) : bool * list Args :=
  match ev with
  | Timing.Call a =>
      if fst sp then sp else (negb (throws a), snd sp ++ [a])
  | Timing.Fire => (false, snd sp)
  end.

Definition throttleSpec {Args} (throws : Args -> bool)
    (trace : list (Timing.Event Args)) : bool * list Args :=
  fold_left (throttleSpecStep throws) trace (false, []).

(** The debounced function and its timer-free description agree. *)
Definition debounceAgree {Args} (st : Timing.Debounced Args)
    (sp : option Args * list Args) : Prop :=
  Timing.funcCalls st = snd sp
  /\ match fst sp with
     | None => Timing.pending (Timing.timers st) = []
     | Some a =>
         exists id, Timing.pending (Timing.timers st) = [(id, a)]
                    /\ Timing.timeout st = Some id
     end.

(** The throttled function and its timer-free description agree, and calls
    are dropped exactly while one reset timer is pending. *)
Definition throttleAgree {Args} (st : Timing.Throttled Args)
    (sp : bool * list Args) : Prop :=
  Timing.inThrottle st = fst sp
  /\ Timing.passedCalls st = snd sp
  /\ (if fst sp
      then exists id, Timing.pending (Timing.resets st) = [(id, tt)]
      else Timing.pending (Timing.resets st) = []).

(** ** Sample inputs *)

(** The spec's scenario graph: the undirected, unweighted triangle A-B-C. *)
Definition triangle : GraphState :=
  mkState [mkNode (js "A"); mkNode (js "B"); mkNode (js "C")]
          [mkEdge (js "A") (js "B") None; mkEdge (js "B") (js "C") None;
           mkEdge (js "C") (js "A") None]
          [] UNDIRECTED UNWEIGHTED (js "A B" ++ 10 :: js "B C" ++ 10 :: js "C A")
          [] true.

(** The undirected input of two lines, [a b] and then [b a]. *)
Definition ab_then_ba : jsstring := js "a b" ++ 10 :: js "b a".

(** Three lines of text, the second one blank, the third a self-loop. *)
Definition blank_line_between : jsstring := js "a b" ++ [10; 10] ++ js "a a".

(** A parser that, whenever it is called, answers with a one-node graph. *)
Definition oneNodeParser (input : jsstring) (directed weighted : bool)
  : option ParsedGraph :=
  Some (mkParsed [mkNode (js "x")] [] []).

(** An algorithm that only animates and returns nothing. *)
Definition returnsUndefined : M jsvalue := ret VUndefined.

(** An algorithm that fails. *)
Definition throwsError : M jsvalue :=
  fun st => (Throw (VString (js "boom")), st).

(** Two lines whose edge keys coincide: [a] to [b-c], then [a-b] to [c]. *)
Definition hyphenated : jsstring := js "a b-c" ++ 10 :: js "a-b c".

(** A plain object holding a date and an array of primitives. *)
Definition nestedHeap : Cloning.Heap :=
  [Cloning.OPlain [(js "when", VObject 1); (js "list", VObject 2)];
   Cloning.ODate (Dec false 5 0);
   Cloning.OArray [VNull; VBool true]].

Definition nestedTree : Cloning.Tree :=
  Cloning.TPlain
    [(js "when", Cloning.TDate (Dec false 5 0));
     (js "list", Cloning.TArray [Cloning.TValue VNull;
                                 Cloning.TValue (VBool true)])].

(** An object whose property [self] is the object itself. *)
Definition selfHeap : Cloning.Heap :=
  [Cloning.OPlain [(js "self", VObject 0)]].

(** A heap with one date. *)
Definition dateHeap : Cloning.Heap := [Cloning.ODate (Dec false 5 0)].

End Vocabulary.
Export Vocabulary.

(* ================================================================== *)
(** * Strings: basic facts                                             *)
(* ================================================================== *)

Section StringFacts.

Lemma streq_true (a b : jsstring) : streq a b = true <-> a = b.
Proof.
  unfold streq. destruct (jsstring_eq_dec a b); split; congruence.
Qed.

Lemma streq_false (a b : jsstring) : streq a b = false <-> a <> b.
Proof.
  unfold streq. destruct (jsstring_eq_dec a b); split; congruence.
Qed.

Lemma streq_refl (a : jsstring) : streq a a = true.
Proof. now apply streq_true. Qed.

Lemma nonEmpty_false (s : jsstring) : nonEmpty s = false <-> s = [].
Proof. destruct s; simpl; split; congruence. Qed.

Lemma nonEmpty_true (s : jsstring) : nonEmpty s = true <-> s <> [].
Proof. destruct s; simpl; split; congruence. Qed.

Lemma dropWhile_all (p : N -> bool) (s : jsstring) :
  Forall (fun c => p c = true) s -> dropWhile p s = [].
Proof.
  induction 1 as [|c r Hc _ IH]; simpl; [reflexivity|].
  now rewrite Hc.
Qed.

Lemma takeWhile_all (p : N -> bool) (s : jsstring) :
  Forall (fun c => p c = true) s -> takeWhile p s = s.
Proof.
  induction 1 as [|c r Hc _ IH]; simpl; [reflexivity|].
  now rewrite Hc, IH.
Qed.

Lemma trim_nil : trim [] = [].
Proof. reflexivity. Qed.

(** An all-whitespace string trims to the empty string. *)
Lemma trim_whitespace (s : jsstring) :
  Forall (fun c => isWhiteSpace c = true) s -> trim s = [].
Proof.
  intros H. unfold trim, trimStart.
  now rewrite (dropWhile_all _ _ H).
Qed.

End StringFacts.

(* ================================================================== *)
(** * Eligibility of algorithms                                        *)
(* ================================================================== *)

Section Eligibility.

Lemma hasNode_In (ns : list Node) (s : jsstring) :
  hasNode ns (Some s) = true <-> In s (List.map id ns).
Proof.
  unfold hasNode. rewrite existsb_exists, in_map_iff.
  split; intros [n [H1 H2]]; exists n.
  - apply streq_true in H2. now split.
  - split; [assumption|]. now apply streq_true.
Qed.

Lemma valid_nonempty_passes (st : GraphState) :
  isValidGraph st = true -> nodes st <> [] ->
  negb (isValidGraph st) || Nat.eqb (List.length (nodes st)) 0 = false.
Proof.
  intros Hv Hn. rewrite Hv. simpl.
  destruct (nodes st); [congruence | reflexivity].
Qed.

Ltac kind_cases :=
  repeat match goal with
         | |- context [streq ?a ?b] =>
             let E := fresh "E" in
             destruct (streq a b) eqn:E;
             [apply streq_true in E | apply streq_false in E]
         end.

(** C1.  On a valid, non-empty graph [canRunAlgorithm] follows the
    eligibility table: 'dfs', 'bfs' and 'dijkstra' are rejected with the
    missing-source message when no source is given and with the
    source-does-not-exist message when the source is not a node, and accepted
    otherwise; 'scc' is rejected exactly when the graph is not directed;
    'prims' and 'kruskals' are rejected when the graph is directed and also
    when it is not weighted; every other case is accepted. *)
Theorem canRunAlgorithm_table :
  forall (st : GraphState) (kind : jsstring) (src : option jsstring),
    isValidGraph st = true ->
    nodes st <> [] ->
    (needsSource kind ->
       ((src = None \/ src = Some []) ->
          canRunAlgorithm st kind src = reject MISSING_SOURCE) /\
       (forall s, src = Some s -> s <> [] ->
          ~ In s (List.map id (nodes st)) ->
          canRunAlgorithm st kind src = reject SOURCE_NOT_IN_GRAPH) /\
       (forall s, src = Some s -> s <> [] ->
          In s (List.map id (nodes st)) ->
          canRunAlgorithm st kind src = accept)) /\
    (kind = js "scc" ->
       canRunAlgorithm st kind src =
         if isDirected st then accept else reject SCC_NEEDS_DIRECTED) /\
    (isMST kind ->
       canRunAlgorithm st kind src =
         if isDirected st then reject MST_NEEDS_UNDIRECTED
         else if isWeighted st then accept
         else reject MST_NEEDS_WEIGHTED) /\
    (~ needsSource kind -> kind <> js "scc" -> ~ isMST kind ->
       canRunAlgorithm st kind src = accept).
Proof.
  intros st kind src Hv Hn.
  pose proof (valid_nonempty_passes st Hv Hn) as Hfirst.
  unfold canRunAlgorithm. rewrite Hfirst.
  split; [|split; [|split]].
  - intros Hk.
    assert (Hsel : streq kind (js "dfs") || streq kind (js "bfs")
                   || streq kind (js "dijkstra") = true).
    { destruct Hk as [-> | [-> | ->]]; reflexivity. }
    rewrite Hsel. split; [|split].
    + intros [-> | ->]; reflexivity.
    + intros s -> Hs Hnot.
      simpl noSource. apply nonEmpty_true in Hs. rewrite Hs.
      simpl negb at 1. cbv iota.
      destruct (hasNode (nodes st) (Some s)) eqn:Hh; [|reflexivity].
      apply hasNode_In in Hh. contradiction.
    + intros s -> Hs Hin.
      simpl noSource. apply nonEmpty_true in Hs. rewrite Hs.
      simpl negb at 1. cbv iota.
      apply hasNode_In in Hin. now rewrite Hin.
  - intros ->. simpl. now destruct (isDirected st).
  - intros [-> | ->]; simpl;
      destruct (isDirected st); try reflexivity;
      now destruct (isWeighted st).
  - intros Hns Hscc Hmst. unfold needsSource, isMST in *.
    kind_cases; simpl; tauto.
Qed.

End Eligibility.

Lemma canRunAlgorithm_table_witness :
  canRunAlgorithm triangle (js "scc") None = reject SCC_NEEDS_DIRECTED
  /\ canRunAlgorithm triangle (js "dfs") (Some (js "A")) = accept.
Proof.
  assert (Hv : isValidGraph triangle = true) by reflexivity.
  assert (Hn : nodes triangle <> []) by discriminate.
  split.
  - destruct (canRunAlgorithm_table triangle (js "scc") None Hv Hn)
      as [_ [Hscc _]].
    exact (Hscc eq_refl).
  - destruct (canRunAlgorithm_table triangle (js "dfs") (Some (js "A")) Hv Hn)
      as [Hsrc _].
    destruct (Hsrc (or_introl eq_refl)) as [_ [_ Hok]].
    apply (Hok (js "A") eq_refl); [discriminate | simpl; auto].
Defined.

(* ================================================================== *)
(** * Empty input                                                      *)
(* ================================================================== *)

Section EmptyInput.

Variable parseGraphInput : jsstring -> bool -> bool -> option ParsedGraph.

Lemma validateGraphInput_blank (input : jsstring) (weighted : bool) :
  trim input = [] ->
  validateGraphInput input weighted = mkGraphValidation false [EMPTY_GRAPH] [].
Proof.
  intros H. unfold validateGraphInput. rewrite H. simpl.
  now rewrite orb_true_r.
Qed.

Lemma canRunAlgorithm_invalid (st : GraphState) kind src :
  isValidGraph st = false -> canRunAlgorithm st kind src = reject EMPTY_GRAPH.
Proof. intros H. unfold canRunAlgorithm. now rewrite H. Qed.

(** C7.  For the empty or an all-whitespace input, [validateGraphInput]
    fails with the [EMPTY_GRAPH] error and no edges; and the state the
    manager is in for such an input (after its re-parse effect, or after a
    direct [parseAndValidateInput]) makes [canRunAlgorithm] reject every
    algorithm kind with the same [EMPTY_GRAPH] reason. *)
Theorem empty_input_rejected :
  forall (input : jsstring) (weighted : bool),
    Forall (fun c => isWhiteSpace c = true) input ->
    validateGraphInput input weighted
      = mkGraphValidation false [EMPTY_GRAPH] []
    /\ (forall st kind src,
          canRunAlgorithm
            (after (handleInputChange parseGraphInput input st)) kind src
          = reject EMPTY_GRAPH)
    /\ (forall st directed kind src,
          canRunAlgorithm
            (after (parseAndValidateInput parseGraphInput input directed
                      weighted st)) kind src
          = reject EMPTY_GRAPH).
Proof.
  intros input weighted Hws.
  pose proof (trim_whitespace input Hws) as Ht.
  split; [now apply validateGraphInput_blank|]. split.
  - intros st kind src. apply canRunAlgorithm_invalid.
    unfold handleInputChange, reparse. simpl. now rewrite Ht.
  - intros st directed kind src. apply canRunAlgorithm_invalid.
    unfold parseAndValidateInput.
    now rewrite (validateGraphInput_blank input weighted Ht).
Qed.

End EmptyInput.

Lemma empty_input_rejected_witness :
  validateGraphInput (js "   ") false
    = mkGraphValidation false [EMPTY_GRAPH] []
  /\ canRunAlgorithm
       (after (handleInputChange oneNodeParser (js "   ") triangle))
       (js "prims") None
     = reject EMPTY_GRAPH.
Proof.
  destruct (empty_input_rejected oneNodeParser (js "   ") false)
    as [H1 [H2 _]].
  - repeat constructor.
  - split; [exact H1 | apply H2].
Defined.

(* ================================================================== *)
(** * The line loop of [validateGraphInput]                            *)
(* ================================================================== *)

Section LineLoop.

Variable weighted : bool.

Lemma setHas_In (set : list jsstring) (key : jsstring) :
  setHas set key = true <-> In key set.
Proof.
  unfold setHas. rewrite existsb_exists. split.
  - intros [x [Hin Heq]]. apply streq_true in Heq. now subst.
  - intros Hin. exists key. split; [assumption | apply streq_refl].
Qed.

Lemma seen_dec (set : list jsstring) (a b : jsstring) :
  setHas set (edgeKeyOf a b) || setHas set (edgeKeyOf b a) = true
  <-> In (edgeKeyOf a b) set \/ In (edgeKeyOf b a) set.
Proof. now rewrite orb_true_iff, !setHas_In. Qed.

Lemma forEach_app (l1 l2 : list jsstring) (i : nat) (st : LoopState) :
  forEach weighted (l1 ++ l2) i st
  = forEach weighted l2 (i + List.length l1) (forEach weighted l1 i st).
Proof.
  revert i st. induction l1 as [|x l1 IH]; intros i st; simpl.
  - now rewrite Nat.add_0_r.
  - rewrite IH. f_equal. lia.
Qed.

(** One round of the loop either reports the line or stores its edge. *)
Lemma forEachBody_cases (st : LoopState) (line : jsstring) (i : nat) :
  (lineRejected weighted (edgeSet st) line /\
   exists text,
     forEachBody weighted st line i
     = mkLoop (errs st ++ [lineMessage i text]) (accepted st) (edgeSet st))
  \/
  (~ lineRejected weighted (edgeSet st) line /\
   exists s t w,
     validateEdgeInput line weighted = Valid s t w /\
     forEachBody weighted st line i
     = mkLoop (errs st) (accepted st ++ [mkEdge s t w])
              (edgeSet st ++ [edgeKeyOf s t])).
Proof.
  unfold forEachBody, lineRejected.
  destruct (validateEdgeInput line weighted) as [e | s t w].
  - left. split; [exact I | now exists e].
  - destruct (setHas (edgeSet st) (edgeKeyOf s t)
              || setHas (edgeSet st) (edgeKeyOf t s)) eqn:E.
    + left. split; [now apply seen_dec | now exists DUPLICATE_EDGE].
    + right. split.
      * intros H. apply seen_dec in H. congruence.
      * now exists s, t, w.
Qed.

(** Stored keys and reported errors are never taken back. *)
Lemma forEachBody_keeps (st : LoopState) (line : jsstring) (i : nat) :
  incl (edgeSet st) (edgeSet (forEachBody weighted st line i))
  /\ incl (errs st) (errs (forEachBody weighted st line i)).
Proof.
  destruct (forEachBody_cases st line i)
    as [[_ [text ->]] | [_ [s [t [w [_ ->]]]]]]; simpl; split;
    auto using incl_refl, incl_appl.
Qed.

Lemma forEach_keeps (lines : list jsstring) (i : nat) (st : LoopState) :
  incl (edgeSet st) (edgeSet (forEach weighted lines i st))
  /\ incl (errs st) (errs (forEach weighted lines i st)).
Proof.
  revert i st. induction lines as [|x lines IH]; intros i st; simpl.
  - split; apply incl_refl.
  - destruct (forEachBody_keeps st x i) as [H1 H2].
    destruct (IH (S i) (forEachBody weighted st x i)) as [H3 H4].
    split; eapply incl_tran; eauto.
Qed.

(** The edges and keys the loop ends with do not depend on the line
    numbering nor on the errors collected so far. *)
Lemma forEach_edges_indep (lines : list jsstring) :
  forall i j st st',
    accepted st = accepted st' -> edgeSet st = edgeSet st' ->
    accepted (forEach weighted lines i st)
      = accepted (forEach weighted lines j st')
    /\ edgeSet (forEach weighted lines i st)
      = edgeSet (forEach weighted lines j st').
Proof.
  induction lines as [|x lines IH]; intros i j st st' Ha Hs; simpl.
  - now split.
  - apply IH; unfold forEachBody;
      destruct (validateEdgeInput x weighted) as [e | s t w]; simpl; auto;
      rewrite Hs;
      destruct (setHas (edgeSet st') (edgeKeyOf s t)
                || setHas (edgeSet st') (edgeKeyOf t s)); simpl; congruence.
Qed.

(** Once a valid line with endpoints [a], [b] has gone through the loop,
    one of the two keys of the pair is stored. *)
Lemma forEachBody_stores (st : LoopState) (x : jsstring) (i : nat) a b wa :
  validateEdgeInput x weighted = Valid a b wa ->
  let st' := forEachBody weighted st x i in
  In (edgeKeyOf a b) (edgeSet st') \/ In (edgeKeyOf b a) (edgeSet st').
Proof.
  intros Hx. unfold forEachBody. rewrite Hx.
  destruct (setHas (edgeSet st) (edgeKeyOf a b)
            || setHas (edgeSet st) (edgeKeyOf b a)) eqn:E; simpl.
  - now apply seen_dec.
  - left. apply in_or_app. right. now left.
Qed.

(** A valid line whose pair is stored, in either order, is reported as a
    duplicate and leaves the edges and keys as they were. *)
Lemma forEachBody_duplicate (st : LoopState) (y : jsstring) (j : nat) a b wb :
  validateEdgeInput y weighted = Valid a b wb ->
  In (edgeKeyOf a b) (edgeSet st) \/ In (edgeKeyOf b a) (edgeSet st) ->
  forEachBody weighted st y j
  = mkLoop (errs st ++ [lineMessage j DUPLICATE_EDGE])
           (accepted st) (edgeSet st).
Proof.
  intros Hy Hseen. unfold forEachBody. rewrite Hy.
  apply seen_dec in Hseen. now rewrite Hseen.
Qed.

(** The loop on lines that hold a valid edge [a b] and, further down, the
    same pair again in either order. *)
Lemma forEach_duplicate
    (before between behind : list jsstring) (x y : jsstring)
    (a b : jsstring) (wa wb : option jsnumber) (i : nat) (st : LoopState) :
  validateEdgeInput x weighted = Valid a b wa ->
  (validateEdgeInput y weighted = Valid b a wb
   \/ validateEdgeInput y weighted = Valid a b wb) ->
  let final :=
    forEach weighted (before ++ x :: between ++ y :: behind) i st in
  In (lineMessage (i + List.length before + List.length between + 1)
        DUPLICATE_EDGE) (errs final)
  /\ accepted final
     = accepted (forEach weighted (before ++ x :: between ++ behind) i st).
Proof.
  intros Hx Hy final. subst final.
  rewrite !forEach_app. simpl.
  set (i1 := (i + List.length before)%nat).
  set (st1 := forEachBody weighted (forEach weighted before i st) x i1).
  rewrite !forEach_app. simpl.
  set (st2 := forEach weighted between (S i1) st1).
  assert (Hseen : In (edgeKeyOf a b) (edgeSet st2)
                  \/ In (edgeKeyOf b a) (edgeSet st2)).
  { destruct (forEachBody_stores (forEach weighted before i st) x i1 a b wa Hx)
      as [H | H];
      [left | right];
      apply (proj1 (forEach_keeps between (S i1) st1)); exact H. }
  assert (Hdup : forEachBody weighted st2 y (S i1 + List.length between)
                 = mkLoop (errs st2 ++ [lineMessage (S i1 + List.length between)%nat
                                          DUPLICATE_EDGE])
                          (accepted st2) (edgeSet st2)).
  { destruct Hy as [Hy | Hy].
    - apply (forEachBody_duplicate st2 y _ b a wb Hy). tauto.
    - apply (forEachBody_duplicate st2 y _ a b wb Hy). tauto. }
  simpl in Hdup. rewrite Hdup. split.
  - apply (proj2 (forEach_keeps behind _ _)). simpl.
    apply in_or_app. right. left. f_equal. unfold i1. lia.
  - apply forEach_edges_indep; reflexivity.
Qed.

End LineLoop.

(* ================================================================== *)
(** * [validateGraphInput] as a whole                                  *)
(* ================================================================== *)

Section GraphInput.

Variable weighted : bool.

Lemma graphLines_blank (input : jsstring) :
  trim input = [] -> graphLines input = [].
Proof. intros H. unfold graphLines. now rewrite H. Qed.

Lemma graphLines_nonblank (input : jsstring) :
  graphLines input <> [] -> trim input <> [].
Proof. intros H Ht. now apply H, graphLines_blank. Qed.

(** On an input that is not blank the result is what the loop leaves. *)
Lemma validateGraphInput_lines (input : jsstring) :
  trim input <> [] ->
  validateGraphInput input weighted
  = let st := forEach weighted (graphLines input) 0 loopStart in
    mkGraphValidation (Nat.eqb (List.length (errs st)) 0)
                      (errs st) (accepted st).
Proof.
  intros H. unfold validateGraphInput.
  assert (Hi : nonEmpty input = true).
  { destruct input; [now elim H | reflexivity]. }
  apply nonEmpty_true in H. now rewrite Hi, H.
Qed.

Lemma forEachBody_errs_length (st : LoopState) (line : jsstring) (i : nat) :
  (lineRejected weighted (edgeSet st) line /\
   List.length (errs (forEachBody weighted st line i))
   = S (List.length (errs st)))
  \/ (~ lineRejected weighted (edgeSet st) line /\
      errs (forEachBody weighted st line i) = errs st).
Proof.
  destruct (forEachBody_cases weighted st line i)
    as [[Hr [text ->]] | [Hr [s [t [w [_ ->]]]]]]; simpl.
  - left. split; [assumption|]. rewrite length_app. simpl. lia.
  - now right.
Qed.

Lemma forEach_errs_length_ge (lines : list jsstring) (i : nat) st :
  (List.length (errs st)
   <= List.length (errs (forEach weighted lines i st)))%nat.
Proof.
  revert i st. induction lines as [|x lines IH]; intros i st; simpl.
  - lia.
  - specialize (IH (S i) (forEachBody weighted st x i)).
    destruct (forEachBody_errs_length st x i) as [[_ H] | [_ H]];
      rewrite H in IH; lia.
Qed.

(** The loop reports nothing exactly when it turns no line down. *)
Lemma forEach_clean_iff (lines : list jsstring) :
  forall i st,
    List.length (errs (forEach weighted lines i st)) = List.length (errs st)
    <-> (forall k line,
           nth_error lines k = Some line ->
           ~ lineRejected weighted
               (edgeSet (forEach weighted (firstn k lines) i st)) line).
Proof.
  induction lines as [|x lines IH]; intros i st; simpl.
  - split; [|reflexivity]. intros _ [|k] line; discriminate.
  - pose proof (forEach_errs_length_ge lines (S i)
                  (forEachBody weighted st x i)) as Hge.
    split.
    + intros Hlen k line Hk.
      destruct (forEachBody_errs_length st x i) as [[_ H] | [Hok H]].
      { rewrite H in Hge. lia. }
      destruct k as [|k]; simpl in *.
      * now injection Hk as <-.
      * apply (proj1 (IH (S i) (forEachBody weighted st x i))); [|exact Hk].
        now rewrite Hlen, H.
    + intros Hall.
      destruct (forEachBody_errs_length st x i) as [[Hbad _] | [_ H]].
      { exfalso. exact (Hall 0%nat x eq_refl Hbad). }
      rewrite <- H.
      apply IH. intros k line Hk. exact (Hall (S k) line Hk).
Qed.

Lemma isValid_iff_noLineRejected (input : jsstring) :
  trim input <> [] ->
  isValid (validateGraphInput input weighted) = true
  <-> noLineRejected weighted input.
Proof.
  intros H. rewrite (validateGraphInput_lines input H). simpl.
  rewrite Nat.eqb_eq. unfold noLineRejected, seenBefore.
  now rewrite <- (forEach_clean_iff (graphLines input) 0 loopStart).
Qed.

(** Any reported error makes the input invalid. *)
Lemma isValid_false_of_error (input e : jsstring) :
  In e (errors (validateGraphInput input weighted)) ->
  isValid (validateGraphInput input weighted) = false.
Proof.
  unfold validateGraphInput.
  destruct (negb (nonEmpty input) || negb (nonEmpty (trim input)));
    simpl; [reflexivity|].
  destruct (errs _); [contradiction | reflexivity].
Qed.

(** A valid line for a pair that an earlier valid line already had, in
    either order, is reported and leaves no edge. *)
Lemma validateGraphInput_duplicate
    (input : jsstring) (before between behind : list jsstring)
    (x y a b : jsstring) (wa wb : option jsnumber) :
  graphLines input = before ++ x :: between ++ y :: behind ->
  validateEdgeInput x weighted = Valid a b wa ->
  (validateEdgeInput y weighted = Valid b a wb
   \/ validateEdgeInput y weighted = Valid a b wb) ->
  let r := validateGraphInput input weighted in
  In (lineMessage (List.length before + List.length between + 1)
        DUPLICATE_EDGE) (errors r)
  /\ edges r
     = accepted (forEach weighted (before ++ x :: between ++ behind)
                         0 loopStart).
Proof.
  intros Hlines Hx Hy r.
  assert (Hnb : trim input <> []).
  { apply graphLines_nonblank. rewrite Hlines. now destruct before. }
  subst r. rewrite (validateGraphInput_lines input Hnb), Hlines. simpl.
  exact (forEach_duplicate weighted before between behind x y a b wa wb
           0 loopStart Hx Hy).
Qed.

(** C3.  When the lines of an input hold a valid edge [a b] and, further
    down, a valid line for [b a] or again for [a b], the later line is
    reported under its line label as a duplicate edge, validation fails, and
    the returned edges are those of the input without the later line: the
    later line adds no edge. *)
Theorem duplicate_edge_flagged :
  forall (input : jsstring) (before between behind : list jsstring)
         (x y a b : jsstring) (wa wb : option jsnumber),
    graphLines input = before ++ x :: between ++ y :: behind ->
    validateEdgeInput x weighted = Valid a b wa ->
    (validateEdgeInput y weighted = Valid b a wb
     \/ validateEdgeInput y weighted = Valid a b wb) ->
    let r := validateGraphInput input weighted in
    In (lineMessage (List.length before + List.length between + 1)
          DUPLICATE_EDGE) (errors r)
    /\ isValid r = false
    /\ edges r
       = accepted (forEach weighted (before ++ x :: between ++ behind)
                           0 loopStart).
Proof.
  intros input before between behind x y a b wa wb Hlines Hx Hy r.
  destruct (validateGraphInput_duplicate input before between behind
              x y a b wa wb Hlines Hx Hy) as [Hreported Hedges].
  split; [exact Hreported | split; [|exact Hedges]].
  exact (isValid_false_of_error input _ Hreported).
Qed.

End GraphInput.

Lemma duplicate_edge_flagged_witness :
  let r := validateGraphInput ab_then_ba false in
  In (js "Line 2: Duplicate edge detected") (errors r)
  /\ isValid r = false
  /\ edges r = [mkEdge (js "a") (js "b") None].
Proof.
  exact (duplicate_edge_flagged false ab_then_ba [] [] []
           (js "a b") (js "b a") (js "a") (js "b") None None
           eq_refl eq_refl (or_introl eq_refl)).
Defined.

(* ================================================================== *)
(** * Validation in front of the parser                                *)
(* ================================================================== *)

Section BeforeParsing.

Variable parseGraphInput : jsstring -> bool -> bool -> option ParsedGraph.

Lemma parseAndValidateInput_invalid input directed weighted st :
  isValid (validateGraphInput input weighted) = false ->
  parseAndValidateInput parseGraphInput input directed weighted st
  = mkRun (setModel st (errors (validateGraphInput input weighted))
                    false [] [] []) [].
Proof.
  intros H. unfold parseAndValidateInput. now rewrite H.
Qed.

(** C2, as the code has it.  A blank input is invalid although no line of
    it is turned down; on every other input [validateGraphInput] returns
    valid = true if and only if no non-blank line is turned down; and
    whenever validation fails, the state manager ([parseAndValidateInput],
    and the re-parse effect behind [handleInputChange]) does not call the
    parser and leaves nodes, links and adjacency empty. *)
Theorem validation_precedes_parsing :
  forall (input : jsstring) (weighted : bool),
    (trim input = [] -> isValid (validateGraphInput input weighted) = false)
    /\ (trim input <> [] ->
        (isValid (validateGraphInput input weighted) = true
         <-> noLineRejected weighted input))
    /\ (isValid (validateGraphInput input weighted) = false ->
        (forall st directed,
           clearedWithoutParsing
             (parseAndValidateInput parseGraphInput input directed weighted
                                    st))
        /\ (forall st,
              isWeighted st = weighted ->
              clearedWithoutParsing
                (handleInputChange parseGraphInput input st))).
Proof.
  intros input weighted. split; [|split].
  - intros H. now rewrite (validateGraphInput_blank input weighted H).
  - apply isValid_iff_noLineRejected.
  - intros Hbad. split.
    + intros st directed.
      rewrite (parseAndValidateInput_invalid _ _ _ _ Hbad).
      repeat split.
    + intros st <-. unfold handleInputChange, reparse. simpl.
      destruct (nonEmpty (trim input)).
      * rewrite (parseAndValidateInput_invalid _ _ _ _ Hbad). repeat split.
      * repeat split.
Qed.

(** C9.  The duplicate check ignores direction whatever the graph is
    configured as: [validateGraphInput] is not given the directed flag, so
    with any value of it (directed included) a valid line for [b a] below a
    valid line for [a b] is reported as a duplicate edge, the graph is
    invalid, and no model is built from it. *)
Theorem reversed_edge_is_duplicate_even_if_directed :
  forall (input : jsstring) (weighted directed : bool) (st : GraphState)
         (before between behind : list jsstring)
         (x y a b : jsstring) (wa wb : option jsnumber),
    graphLines input = before ++ x :: between ++ y :: behind ->
    validateEdgeInput x weighted = Valid a b wa ->
    validateEdgeInput y weighted = Valid b a wb ->
    let run :=
      parseAndValidateInput parseGraphInput input directed weighted st in
    In (lineMessage (List.length before + List.length between + 1)
          DUPLICATE_EDGE) (inputErrors (after run))
    /\ clearedWithoutParsing run.
Proof.
  intros input weighted directed st before between behind x y a b wa wb
         Hlines Hx Hy run.
  destruct (validateGraphInput_duplicate weighted input before between
              behind x y a b wa wb Hlines Hx (or_introl Hy))
    as [Hin _].
  pose proof (isValid_false_of_error weighted input _ Hin) as Hbad.
  subst run. rewrite (parseAndValidateInput_invalid _ _ _ _ Hbad).
  split; [exact Hin | repeat split].
Qed.

End BeforeParsing.

(** C2 as stated fails on the empty input: it is not valid, and yet no
    line of it is turned down. *)
Lemma valid_iff_no_line_error_fails_on_empty_input :
  isValid (validateGraphInput (js "") false) = false
  /\ noLineRejected false (js "").
Proof.
  split; [reflexivity|].
  intros [|k] line Hk; discriminate Hk.
Qed.

Lemma validation_precedes_parsing_witness :
  isValid (validateGraphInput ab_then_ba false) = false
  /\ clearedWithoutParsing
       (parseAndValidateInput oneNodeParser ab_then_ba DIRECTED false
                              triangle).
Proof.
  assert (Hbad : isValid (validateGraphInput ab_then_ba false) = false)
    by (vm_compute; reflexivity).
  split; [exact Hbad|].
  destruct (validation_precedes_parsing oneNodeParser ab_then_ba false)
    as [_ [_ Hfirst]].
  exact (proj1 (Hfirst Hbad) triangle DIRECTED).
Defined.

Lemma reversed_edge_is_duplicate_even_if_directed_witness :
  let run :=
    parseAndValidateInput oneNodeParser ab_then_ba DIRECTED false
                          triangle in
  In (js "Line 2: Duplicate edge detected") (inputErrors (after run))
  /\ clearedWithoutParsing run.
Proof.
  exact (reversed_edge_is_duplicate_even_if_directed oneNodeParser
           ab_then_ba false DIRECTED triangle [] [] []
           (js "a b") (js "b a") (js "a") (js "b") None None
           eq_refl eq_refl eq_refl).
Defined.

(* ================================================================== *)
(** * The execution controller                                         *)
(* ================================================================== *)

Section Execution.

Lemma enter_idle (st : ExecState) :
  enter false st = (Normal true, entered st).
Proof. reflexivity. Qed.

Lemma enter_busy (st : ExecState) :
  enter true st = (Normal false, st).
Proof. reflexivity. Qed.

(** A call that passes the guard is the reset, the algorithm, and the
    settling of its completion, one after the other. *)
Lemma executeAlgorithm_idle (algorithmFn : M jsvalue) options st :
  executeAlgorithm false algorithmFn options st
  = let '(c, st2) := algorithmFn (entered st) in settle options c st2.
Proof.
  unfold executeAlgorithm, bind at 1. rewrite (enter_idle st).
  unfold settle, tryFinally, tryCatch, bind.
  now destruct (algorithmFn (entered st)) as [[v | e] st2].
Qed.

(** Settling always completes normally, with [isRunning] false and the
    speed signal reset. *)
Lemma settle_spec options (c : Completion jsvalue) (st2 : ExecState) :
  settle options c st2
  = (Normal tt,
     match c with
     | Normal v =>
         if truthy v
         then mkExec false (error st2) v true []
         else mkExec false (error st2) (result st2) (resultReady st2) []
     | Throw _ =>
         mkExec false
                (or_else (errorMessage options) (VString ALGORITHM_ERROR))
                (result st2) (resultReady st2) []
     end).
Proof.
  unfold settle, tryFinally, tryCatch, bind, onResult, onError, cleanup.
  destruct c as [v | e]; [destruct (truthy v) eqn:E|]; cbn; rewrite ?E;
    reflexivity.
Qed.

(** C5, as the code has it.  For a call that passes the running guard (the
    [isRunning] its callback tests is false), whatever the state is:
    if the algorithm returns a truthy value the controller stores it and
    sets resultReady; if it returns a falsy value (such as [undefined])
    nothing is stored and resultReady is not set; if it throws, the
    controller stores options.errorMessage or, absent that, the generic
    algorithm-error message; the call never throws to its caller; and in
    every case it ends with isRunning false and the speed signal reset. *)
Theorem executeAlgorithm_outcome :
  forall (algorithmFn : M jsvalue) (options : Options) (st : ExecState),
    let out := executeAlgorithm false algorithmFn options st in
    let final := snd out in
    fst out = Normal tt
    /\ isRunning final = false
    /\ speedrunRef final = []
    /\ (forall v st2,
          algorithmFn (entered st) = (Normal v, st2) ->
          error final = error st2
          /\ (truthy v = true -> result final = v /\ resultReady final = true)
          /\ (truthy v = false ->
              result final = result st2
              /\ resultReady final = resultReady st2))
    /\ (forall e st2,
          algorithmFn (entered st) = (Throw e, st2) ->
          error final
            = or_else (errorMessage options) (VString ALGORITHM_ERROR)
          /\ result final = result st2
          /\ resultReady final = resultReady st2).
Proof.
  intros algorithmFn options st out final. subst final out.
  rewrite (executeAlgorithm_idle algorithmFn options st).
  destruct (algorithmFn (entered st)) as [c st2] eqn:Hrun.
  rewrite settle_spec. simpl.
  split; [reflexivity|].
  split; [destruct c as [v|e]; [destruct (truthy v)|]; reflexivity|].
  split; [destruct c as [v|e]; [destruct (truthy v)|]; reflexivity|].
  split.
  - intros v st2' [= -> ->].
    destruct (truthy v); simpl; repeat split; congruence.
  - intros e st2' [= -> ->]. repeat split.
Qed.

(** ** The running guard *)

Lemma step_oneAtATime (m : Machine) (ev : Event) :
  isReset ev = false ->
  match ev with
  | Invoke _ => Bool.eqb (rendered m) (isRunning (hook m))
  | _ => true
  end = true ->
  oneAtATime m -> oneAtATime (step m ev).
Proof.
  intros Hev Hup Hm.
  destruct ev; simpl in *; try discriminate; try exact Hm.
  - (* Invoke *)
    apply Bool.eqb_prop in Hup. rewrite Hup.
    destruct Hm as [[Hr Hf] | [Hr Hf]]; rewrite Hr.
    + rewrite enter_idle, Hf. right. simpl. eauto.
    + rewrite enter_busy. now right.
  - (* Settle *)
    destruct Hm as [[Hr Hf] | [Hr [o Hf]]]; rewrite Hf.
    + left. now split.
    + left. unfold exec. rewrite settle_spec. simpl.
      split; [|reflexivity].
      destruct c as [v|e]; [destruct (truthy v)|]; reflexivity.
Qed.

Lemma runEvents_oneAtATime (trace : list Event) :
  forall m,
    existsb isReset trace = false ->
    calledUpToDate trace m = true ->
    oneAtATime m -> oneAtATime (runEvents trace m).
Proof.
  unfold runEvents.
  induction trace as [|ev trace IH]; intros m Hno Hup Hm; simpl in *.
  - exact Hm.
  - apply orb_false_iff in Hno. destruct Hno as [Hev Hno].
    apply andb_true_iff in Hup. destruct Hup as [Hup Hrest].
    apply IH; [exact Hno | exact Hrest | now apply step_oneAtATime].
Qed.


(** [reset] clears [isRunning] while the algorithm is still awaited, so a
    call made after it passes the guard even through an up-to-date
    callback: the bound above does need that side condition too. *)
Remark reset_reopens_the_guard :
  let trace := [Invoke noOptions; Render; Reset; Render; Invoke noOptions] in
  calledUpToDate trace initialMachine = true
  /\ inFlight (runEvents trace initialMachine) = [noOptions; noOptions].
Proof. split; reflexivity. Qed.

End Execution.

(** C5 as stated fails on an algorithm that returns normally with a falsy
    value: the returned value is not stored and resultReady stays false. *)
Lemma normal_return_without_resultReady :
  let out := executeAlgorithm false returnsUndefined noOptions initialExec in
  returnsUndefined (entered initialExec)
    = (Normal VUndefined, entered initialExec)
  /\ fst out = Normal tt
  /\ resultReady (snd out) = false
  /\ result (snd out) <> VUndefined.
Proof.
  repeat split. discriminate.
Qed.

Lemma executeAlgorithm_outcome_witness :
  let final :=
    snd (executeAlgorithm false throwsError noOptions initialExec) in
  isRunning final = false
  /\ speedrunRef final = []
  /\ error final = VString ALGORITHM_ERROR.
Proof.
  destruct (executeAlgorithm_outcome throwsError noOptions initialExec)
    as [_ [H1 [H2 [_ H3]]]].
  destruct (H3 (VString (js "boom")) (entered initialExec) eq_refl)
    as [H4 _].
  split; [exact H1 | split; [exact H2 | exact H4]].
Defined.



(* ================================================================== *)
(** * The edge patterns                                                *)
(* ================================================================== *)

Section Runs.

Variable p : N -> bool.

Lemma takeWhile_dropWhile (s : jsstring) :
  takeWhile p s ++ dropWhile p s = s.
Proof.
  induction s as [|c r IH]; simpl; [reflexivity|].
  destruct (p c); simpl; [now rewrite IH | reflexivity].
Qed.

Lemma takeWhile_all_in (s : jsstring) : all p (takeWhile p s).
Proof.
  induction s as [|c r IH]; simpl; [constructor|].
  destruct (p c) eqn:E; constructor; assumption.
Qed.

Lemma dropWhile_stops (s : jsstring) : stops p (dropWhile p s).
Proof.
  induction s as [|c r IH]; simpl; [exact I|].
  destruct (p c) eqn:E; [exact IH | exact E].
Qed.

Lemma takeWhile_app (xs rest : jsstring) :
  all p xs -> stops p rest -> takeWhile p (xs ++ rest) = xs.
Proof.
  intros Hxs Hrest. induction Hxs as [|c r Hc _ IH]; simpl.
  - destruct rest as [|d rest]; simpl in *; [reflexivity | now rewrite Hrest].
  - now rewrite Hc, IH.
Qed.

Lemma dropWhile_app (xs rest : jsstring) :
  all p xs -> stops p rest -> dropWhile p (xs ++ rest) = rest.
Proof.
  intros Hxs Hrest. induction Hxs as [|c r Hc _ IH]; simpl.
  - destruct rest as [|d rest]; simpl in *; [reflexivity | now rewrite Hrest].
  - now rewrite Hc, IH.
Qed.

Lemma span_app (xs rest : jsstring) :
  all p xs -> stops p rest -> span p (xs ++ rest) = (xs, rest).
Proof.
  intros Hxs Hrest. unfold span.
  now rewrite takeWhile_app, dropWhile_app.
Qed.

End Runs.

Section Patterns.

Lemma word_stops_ws (g rest : jsstring) :
  word g -> g <> [] -> stops isWhiteSpace (g ++ rest).
Proof.
  intros Hg Hne. destruct g as [|c g]; [congruence|]. simpl.
  inversion Hg as [|? ? Hc _]; subst. unfold nonWhiteSpace in Hc.
  now destruct (isWhiteSpace c).
Qed.

Lemma ws_stops_word (w rest : jsstring) :
  ws w -> w <> [] -> stops nonWhiteSpace (w ++ rest).
Proof.
  intros Hw Hne. destruct w as [|c w]; [congruence|]. simpl.
  inversion Hw as [|? ? Hc _]; subst. unfold nonWhiteSpace. now rewrite Hc.
Qed.

Lemma ws_tail_stops_word (w : jsstring) : ws w -> stops nonWhiteSpace w.
Proof.
  intros Hw. destruct w as [|c w]; [exact I|]. simpl.
  inversion Hw as [|? ? Hc _]; subst. unfold nonWhiteSpace. now rewrite Hc.
Qed.

Lemma digit_not_ws (c : N) : isDigit c = true -> isWhiteSpace c = false.
Proof.
  unfold isDigit, isWhiteSpace. intros H.
  apply andb_true_iff in H. destruct H as [H1 H2].
  apply N.leb_le in H1, H2.
  repeat (apply orb_false_iff; split);
    try (apply N.eqb_neq; lia).
  apply andb_false_iff. left. apply N.leb_gt. lia.
Qed.

Lemma ws_not_digit (c : N) : isWhiteSpace c = true -> isDigit c = false.
Proof.
  intros H. destruct (isDigit c) eqn:E; [|reflexivity].
  apply digit_not_ws in E. congruence.
Qed.

Lemma ws_tail_stops_digit (w : jsstring) : ws w -> stops isDigit w.
Proof.
  intros Hw. destruct w as [|c w]; [exact I|]. simpl.
  inversion Hw; subst. now apply ws_not_digit.
Qed.

(** The matcher for the unweighted pattern finds exactly these splits. *)
Lemma EDGE_UNWEIGHTED_match_spec (s g1 g2 : jsstring) :
  EDGE_UNWEIGHTED_match s = Some (g1, g2) <-> twoWords s g1 g2.
Proof.
  split.
  - unfold EDGE_UNWEIGHTED_match, span.
    set (s0 := dropWhile isWhiteSpace s).
    set (s1 := dropWhile nonWhiteSpace s0).
    set (s2 := dropWhile isWhiteSpace s1).
    set (s3 := dropWhile nonWhiteSpace s2).
    destruct (nonEmpty (takeWhile nonWhiteSpace s0)) eqn:E1; [|discriminate].
    destruct (nonEmpty (takeWhile isWhiteSpace s1)) eqn:E2; [|discriminate].
    destruct (nonEmpty (takeWhile nonWhiteSpace s2)) eqn:E3; [|discriminate].
    destruct (nonEmpty (dropWhile isWhiteSpace s3)) eqn:E4; [discriminate|].
    simpl. intros [= <- <-].
    exists (takeWhile isWhiteSpace s), (takeWhile isWhiteSpace s1),
           (takeWhile isWhiteSpace s3).
    apply nonEmpty_true in E1, E2, E3. apply nonEmpty_false in E4.
    repeat split; auto using takeWhile_all_in.
    rewrite <- (takeWhile_dropWhile isWhiteSpace s) at 1. f_equal.
    fold s0. rewrite <- (takeWhile_dropWhile nonWhiteSpace s0) at 1. f_equal.
    fold s1. rewrite <- (takeWhile_dropWhile isWhiteSpace s1) at 1. f_equal.
    fold s2. rewrite <- (takeWhile_dropWhile nonWhiteSpace s2) at 1. f_equal.
    fold s3. rewrite <- (takeWhile_dropWhile isWhiteSpace s3) at 1.
    rewrite E4. now rewrite app_nil_r.
  - intros (w0 & w1 & w2 & -> & H0 & Hg1 & N1 & H1 & M1 & Hg2 & N2 & H2).
    unfold EDGE_UNWEIGHTED_match.
    rewrite (dropWhile_app isWhiteSpace w0 _ H0
               (word_stops_ws g1 _ Hg1 N1)).
    rewrite (span_app nonWhiteSpace g1 _ Hg1 (ws_stops_word w1 _ H1 M1)).
    rewrite (span_app isWhiteSpace w1 _ H1 (word_stops_ws g2 _ Hg2 N2)).
    rewrite (span_app nonWhiteSpace g2 _ Hg2 (ws_tail_stops_word w2 H2)).
    rewrite (dropWhile_all _ _ H2).
    apply nonEmpty_true in N1, M1, N2. now rewrite N1, M1, N2.
Qed.

Lemma scanWeight_sound (s g r : jsstring) :
  scanWeight s = (g, r) -> g <> [] -> decimalShape g /\ s = g ++ r.
Proof.
  unfold scanWeight, span.
  pose proof (takeWhile_dropWhile isDigit s) as Hs.
  pose proof (takeWhile_all_in isDigit s) as Hip.
  set (ip := takeWhile isDigit s) in *.
  set (r1 := dropWhile isDigit s) in *.
  destruct (nonEmpty ip) eqn:E; [|intros [= <- <-]; congruence].
  apply nonEmpty_true in E.
  assert (Hplain : decimalShape ip) by (exists ip; auto).
  destruct r1 as [|c r'] eqn:Er1.
  { intros [= <- <-] _. now split. }
  destruct (c =? 46) eqn:Ec; [|intros [= <- <-] _; now split].
  apply N.eqb_eq in Ec. subst c.
  pose proof (takeWhile_dropWhile isDigit r') as Hr.
  pose proof (takeWhile_all_in isDigit r') as Hfp.
  destruct (nonEmpty (takeWhile isDigit r')) eqn:F;
    [|intros [= <- <-] _; now split].
  apply nonEmpty_true in F.
  intros [= <- <-] _. split.
  - exists ip. repeat split; auto. right.
    exists (takeWhile isDigit r'). auto.
  - rewrite <- Hs, <- app_assoc. simpl. now rewrite Hr.
Qed.

Lemma scanWeight_complete (g w3 : jsstring) :
  decimalShape g -> ws w3 -> scanWeight (g ++ w3) = (g, w3).
Proof.
  intros (ip & Hip & Nip & Hg) Hw3. unfold scanWeight.
  apply nonEmpty_true in Nip.
  destruct Hg as [-> | (fp & Hfp & Nfp & ->)].
  - rewrite (span_app isDigit ip w3 Hip (ws_tail_stops_digit w3 Hw3)), Nip.
    destruct w3 as [|c w3]; [reflexivity|].
    destruct (c =? 46) eqn:Ec; [|reflexivity].
    apply N.eqb_eq in Ec. subst c. inversion Hw3; subst. discriminate.
  - rewrite <- app_assoc. simpl app.
    rewrite (span_app isDigit ip (46 :: fp ++ w3) Hip eq_refl), Nip.
    rewrite N.eqb_refl.
    rewrite (span_app isDigit fp w3 Hfp (ws_tail_stops_digit w3 Hw3)).
    apply nonEmpty_true in Nfp. now rewrite Nfp.
Qed.

Lemma decimalShape_word (g : jsstring) : decimalShape g -> word g /\ g <> [].
Proof.
  assert (Hd : forall l, digits l -> word l).
  { intros l Hl. induction Hl as [|c l Hc _ IH]; constructor; auto.
    unfold nonWhiteSpace. now rewrite (digit_not_ws c Hc). }
  intros (ip & Hip & Nip & [-> | (fp & Hfp & Nfp & ->)]).
  - split; auto.
  - split.
    + apply Forall_app. split; [now apply Hd|].
      constructor; [reflexivity | now apply Hd].
    + destruct ip; discriminate.
Qed.

(** The matcher for the weighted pattern finds exactly these splits. *)
Lemma EDGE_WEIGHTED_match_spec (s g1 g2 g3 : jsstring) :
  EDGE_WEIGHTED_match s = Some (g1, g2, g3) <-> twoWordsAndWeight s g1 g2 g3.
Proof.
  split.
  - unfold EDGE_WEIGHTED_match, span.
    set (s0 := dropWhile isWhiteSpace s).
    set (s1 := dropWhile nonWhiteSpace s0).
    set (s2 := dropWhile isWhiteSpace s1).
    set (s3 := dropWhile nonWhiteSpace s2).
    set (s4 := dropWhile isWhiteSpace s3).
    destruct (scanWeight s4) as [g s5] eqn:Hscan.
    destruct (nonEmpty (takeWhile nonWhiteSpace s0)) eqn:E1; [|discriminate].
    destruct (nonEmpty (takeWhile isWhiteSpace s1)) eqn:E2; [|discriminate].
    destruct (nonEmpty (takeWhile nonWhiteSpace s2)) eqn:E3; [|discriminate].
    destruct (nonEmpty (takeWhile isWhiteSpace s3)) eqn:E4; [|discriminate].
    destruct (nonEmpty g) eqn:E5; [|discriminate].
    destruct (nonEmpty (dropWhile isWhiteSpace s5)) eqn:E6; [discriminate|].
    simpl. intros [= <- <- <-].
    apply nonEmpty_true in E1, E2, E3, E4, E5. apply nonEmpty_false in E6.
    destruct (scanWeight_sound s4 g s5 Hscan E5) as [Hshape Hs4].
    exists (takeWhile isWhiteSpace s), (takeWhile isWhiteSpace s1),
           (takeWhile isWhiteSpace s3), (takeWhile isWhiteSpace s5).
    repeat split; auto using takeWhile_all_in.
    rewrite <- (takeWhile_dropWhile isWhiteSpace s) at 1. f_equal.
    fold s0. rewrite <- (takeWhile_dropWhile nonWhiteSpace s0) at 1. f_equal.
    fold s1. rewrite <- (takeWhile_dropWhile isWhiteSpace s1) at 1. f_equal.
    fold s2. rewrite <- (takeWhile_dropWhile nonWhiteSpace s2) at 1. f_equal.
    fold s3. rewrite <- (takeWhile_dropWhile isWhiteSpace s3) at 1. f_equal.
    fold s4. rewrite Hs4. f_equal.
    rewrite <- (takeWhile_dropWhile isWhiteSpace s5) at 1.
    rewrite E6. now rewrite app_nil_r.
  - intros (w0 & w1 & w2 & w3 & -> & H0 & Hg1 & N1 & H1 & M1 & Hg2 & N2
            & H2 & M2 & Hg3 & H3).
    unfold EDGE_WEIGHTED_match.
    destruct (decimalShape_word g3 Hg3) as [Hw3 N3].
    rewrite (dropWhile_app isWhiteSpace w0 _ H0
               (word_stops_ws g1 _ Hg1 N1)).
    rewrite (span_app nonWhiteSpace g1 _ Hg1 (ws_stops_word w1 _ H1 M1)).
    rewrite (span_app isWhiteSpace w1 _ H1 (word_stops_ws g2 _ Hg2 N2)).
    rewrite (span_app nonWhiteSpace g2 _ Hg2 (ws_stops_word w2 _ H2 M2)).
    rewrite (span_app isWhiteSpace w2 _ H2 (word_stops_ws g3 _ Hw3 N3)).
    rewrite (scanWeight_complete g3 w3 Hg3 H3).
    rewrite (dropWhile_all _ _ H3).
    apply nonEmpty_true in N1, M1, N2, M2, N3.
    now rewrite N1, M1, N2, M2, N3.
Qed.

(** ** The weight that the weighted pattern captures *)

Lemma dropWhile_word (s : jsstring) :
  word s -> dropWhile isWhiteSpace s = s.
Proof.
  intros H. destruct s as [|c r]; [reflexivity|]. simpl.
  inversion H as [|? ? Hc _]; subst. unfold nonWhiteSpace in Hc.
  now destruct (isWhiteSpace c).
Qed.

Lemma trim_word (s : jsstring) : word s -> trim s = s.
Proof.
  intros H. unfold trim, trimStart, trimEnd.
  rewrite (dropWhile_word s H).
  rewrite (dropWhile_word (rev s)); [apply rev_involutive|].
  now apply Forall_rev.
Qed.

Lemma digit_not_sign (d : N) : isDigit d = true -> isSign d = false.
Proof.
  unfold isDigit, isSign. intros H.
  apply andb_true_iff in H. destruct H as [H1 H2].
  apply N.leb_le in H1, H2.
  apply orb_false_iff. split; apply N.eqb_neq; lia.
Qed.

Lemma stripPrefix_Infinity_digit (d : N) (r : jsstring) :
  isDigit d = true -> stripPrefix (js "Infinity") (d :: r) = None.
Proof.
  intros H. change (js "Infinity") with (73 :: js "nfinity").
  cbn [stripPrefix]. destruct (73 =? d) eqn:E; [|reflexivity].
  apply N.eqb_eq in E. subst d. discriminate.
Qed.

(** A string of that shape is a complete, unsigned decimal literal. *)
(** A decimal without sign is read as a number that is not NaN and not
    below zero. *)
Lemma toDouble_unsigned (m : N) (e : Z) :
  toDouble false m e = Infinity false
  \/ exists d x, toDouble false m e = Dec false d x.
Proof.
  unfold toDouble. destruct (nearestDouble m e) as [[M k]|]; [|now left].
  destruct (exactDecimal M k) as [d x]. right. eauto.
Qed.

Lemma scanDecimalLiteral_decimalShape (w : jsstring) :
  decimalShape w ->
  exists m e, scanDecimalLiteral w = Some (toDouble false m e, []).
Proof.
  intros (ip & Hip & Nip & Hw).
  destruct ip as [|d ip']; [congruence|].
  assert (Hd : isDigit d = true) by now inversion Hip.
  assert (Hstart : forall rest,
            scanDecimalLiteral ((d :: ip') ++ rest)
            = scanUnsignedDecimal false ((d :: ip') ++ rest)).
  { intros rest. simpl. now rewrite (digit_not_sign d Hd). }
  destruct Hw as [-> | (fp & Hfp & Nfp & ->)].
  - pose proof (Hstart []) as Hs0. rewrite app_nil_r in Hs0. rewrite Hs0.
    unfold scanUnsignedDecimal.
    pose proof (span_app isDigit (d :: ip') [] Hip I) as Hspan.
    rewrite app_nil_r in Hspan. rewrite Hspan.
    rewrite (stripPrefix_Infinity_digit d _ Hd).
    cbv beta iota zeta. simpl nonEmpty. simpl orb. cbv iota.
    simpl scanExponent. cbv beta iota zeta. eauto.
  - rewrite Hstart. unfold scanUnsignedDecimal.
    rewrite (span_app isDigit (d :: ip') (46 :: fp) Hip eq_refl).
    simpl app at 1. rewrite (stripPrefix_Infinity_digit d _ Hd).
    cbv beta iota zeta. rewrite N.eqb_refl.
    pose proof (span_app isDigit fp [] Hfp I) as Hspan.
    rewrite app_nil_r in Hspan. rewrite Hspan.
    simpl nonEmpty. simpl orb. cbv iota.
    simpl scanExponent. cbv beta iota zeta. eauto.
Qed.

(** Such a weight is not NaN and does not parse to a negative number. *)
Lemma decimalShape_good_weight (w : jsstring) :
  decimalShape w -> isNaN w = false /\ ltZero (parseFloat w) = false.
Proof.
  intros Hw.
  destruct (decimalShape_word w Hw) as [Hword Hne].
  destruct (scanDecimalLiteral_decimalShape w Hw) as (m & e & Hscan).
  split.
  - unfold isNaN, toNumber. rewrite (trim_word w Hword).
    destruct w as [|c w']; [congruence|]. rewrite Hscan.
    destruct (toDouble_unsigned m e) as [-> | (d & x & ->)]; reflexivity.
  - unfold parseFloat, trimStart.
    rewrite (dropWhile_word w Hword), Hscan.
    destruct (toDouble_unsigned m e) as [-> | (d & x & ->)]; reflexivity.
Qed.

(** ** Trimming a line *)

Lemma trim_between (w0 core w2 : jsstring) :
  ws w0 -> ws w2 -> core <> [] ->
  stops isWhiteSpace core -> stops isWhiteSpace (rev core) ->
  trim (w0 ++ core ++ w2) = core.
Proof.
  intros H0 H2 Hne Hhead Hlast. unfold trim, trimStart, trimEnd.
  assert (Hs : stops isWhiteSpace (core ++ w2)).
  { destruct core as [|c core]; [congruence | exact Hhead]. }
  rewrite (dropWhile_app isWhiteSpace w0 _ H0 Hs).
  rewrite rev_app_distr.
  rewrite (dropWhile_app isWhiteSpace (rev w2) (rev core)
             (Forall_rev H2) Hlast).
  apply rev_involutive.
Qed.

Lemma word_rev (g : jsstring) : word g -> word (rev g).
Proof. apply Forall_rev. Qed.

Lemma rev_nonempty (g : jsstring) : g <> [] -> rev g <> [].
Proof.
  intros H E. apply H. rewrite <- (rev_involutive g), E. reflexivity.
Qed.

(** A line that starts with a word and ends with a word trims to the part
    between its outer whitespace. *)
Lemma trim_words (w0 g1 mid g2 w2 : jsstring) :
  ws w0 -> ws w2 -> word g1 -> g1 <> [] -> word g2 -> g2 <> [] ->
  trim (w0 ++ (g1 ++ mid ++ g2) ++ w2) = g1 ++ mid ++ g2.
Proof.
  intros H0 H2 Hg1 N1 Hg2 N2. apply trim_between; auto.
  - destruct g1; [congruence | discriminate].
  - now apply word_stops_ws.
  - rewrite !rev_app_distr, <- app_assoc.
    apply word_stops_ws; [now apply word_rev | now apply rev_nonempty].
Qed.

Lemma twoWords_trim (line g1 g2 : jsstring) :
  twoWords line g1 g2 -> twoWords (trim line) g1 g2 /\ trim line <> [].
Proof.
  intros (w0 & w1 & w2 & -> & H0 & Hg1 & N1 & H1 & M1 & Hg2 & N2 & H2).
  replace (w0 ++ g1 ++ w1 ++ g2 ++ w2)
    with (w0 ++ (g1 ++ w1 ++ g2) ++ w2)
    by (now rewrite <- !app_assoc).
  rewrite (trim_words w0 g1 w1 g2 w2); auto. split.
  - exists [], w1, []. rewrite app_nil_r. simpl.
    repeat split; auto; constructor.
  - destruct g1; [congruence | discriminate].
Qed.

Lemma twoWordsAndWeight_trim (line g1 g2 g3 : jsstring) :
  twoWordsAndWeight line g1 g2 g3 ->
  twoWordsAndWeight (trim line) g1 g2 g3 /\ trim line <> [].
Proof.
  intros (w0 & w1 & w2 & w3 & -> & H0 & Hg1 & N1 & H1 & M1 & Hg2 & N2
          & H2 & M2 & Hg3 & H3).
  destruct (decimalShape_word g3 Hg3) as [Hw3 N3].
  replace (w0 ++ g1 ++ w1 ++ g2 ++ w2 ++ g3 ++ w3)
    with (w0 ++ (g1 ++ (w1 ++ g2 ++ w2) ++ g3) ++ w3)
    by (now rewrite <- !app_assoc).
  rewrite (trim_words w0 g1 (w1 ++ g2 ++ w2) g3 w3); auto. split.
  - exists [], w1, w2, []. rewrite app_nil_r, <- !app_assoc. simpl.
    repeat split; auto; constructor.
  - destruct g1; [congruence | discriminate].
Qed.

End Patterns.

(* ================================================================== *)
(** * Single lines                                                     *)
(* ================================================================== *)

Section SingleLine.

Lemma validateEdgeInput_unweighted_match (line g1 g2 : jsstring) :
  twoWords line g1 g2 ->
  validateEdgeInput line false
  = if negb (isValidNodeId g1) || negb (isValidNodeId g2)
    then Invalid BAD_NODE_ID
    else if streq g1 g2 then Invalid SELF_LOOP
    else Valid g1 g2 None.
Proof.
  intros H. destruct (twoWords_trim line g1 g2 H) as [Ht Hne].
  apply EDGE_UNWEIGHTED_match_spec in Ht.
  unfold validateEdgeInput, matchPattern.
  apply nonEmpty_true in Hne. now rewrite Hne, Ht.
Qed.

Lemma validateEdgeInput_weighted_match (line g1 g2 g3 : jsstring) :
  twoWordsAndWeight line g1 g2 g3 ->
  validateEdgeInput line true
  = if negb (isValidNodeId g1) || negb (isValidNodeId g2)
    then Invalid BAD_NODE_ID
    else if streq g1 g2 then Invalid SELF_LOOP
    else Valid g1 g2 (Some (parseFloat g3)).
Proof.
  intros H. destruct (twoWordsAndWeight_trim line g1 g2 g3 H) as [Ht Hne].
  assert (Hshape : decimalShape g3).
  { destruct H as (? & ? & ? & ? & ? & ? & ? & ? & ? & ? & ? & ? & ? & ?
                   & Hs & ?). exact Hs. }
  destruct (decimalShape_good_weight g3 Hshape) as [Hnan Hneg].
  apply EDGE_WEIGHTED_match_spec in Ht.
  unfold validateEdgeInput, matchPattern, badWeight.
  apply nonEmpty_true in Hne. rewrite Hne, Ht, Hnan, Hneg. reflexivity.
Qed.

(** No accepted line has its two endpoints equal. *)
Lemma validateEdgeInput_no_self_loop line weighted s t wt :
  validateEdgeInput line weighted = Valid s t wt -> s <> t.
Proof.
  unfold validateEdgeInput.
  destruct (negb (nonEmpty (trim line))); [discriminate|].
  destruct (matchPattern weighted (trim line)) as [[[a b] w]|];
    [|discriminate].
  destruct (negb (isValidNodeId a) || negb (isValidNodeId b));
    [discriminate|].
  destruct (streq a b) eqn:E; [discriminate|].
  apply streq_false in E.
  destruct (weighted && badWeight w); [discriminate|].
  now intros [= <- <- _].
Qed.

(** C4, as the code has it.  A line that matches the edge pattern of the
    mode in force (two words; two words and a weight) and whose two endpoint
    tokens are the same is rejected in either mode: as a self-loop when the
    token is a valid node identifier, as an invalid node ID otherwise.  No
    line with equal endpoints is ever accepted. *)
Theorem identical_endpoints_rejected :
  (forall line a,
     twoWords line a a ->
     validateEdgeInput line false
     = Invalid (if isValidNodeId a then SELF_LOOP else BAD_NODE_ID))
  /\ (forall line a wt,
        twoWordsAndWeight line a a wt ->
        validateEdgeInput line true
        = Invalid (if isValidNodeId a then SELF_LOOP else BAD_NODE_ID))
  /\ (forall line weighted s t wt,
        validateEdgeInput line weighted = Valid s t wt -> s <> t).
Proof.
  split; [|split].
  - intros line a H. rewrite (validateEdgeInput_unweighted_match line a a H).
    rewrite streq_refl. now destruct (isValidNodeId a).
  - intros line a wt H.
    rewrite (validateEdgeInput_weighted_match line a a wt H).
    rewrite streq_refl. now destruct (isValidNodeId a).
  - apply validateEdgeInput_no_self_loop.
Qed.

End SingleLine.

(** C4 as stated fails: the line [a a] in weighted mode is rejected for
    its format, and a line of two equal tokens that are not identifiers is
    rejected for its node IDs; neither is reported as a self-loop. *)
Lemma identical_tokens_not_reported_as_self_loop :
  validateEdgeInput (js "a a") true = Invalid BAD_WEIGHTED_FORMAT
  /\ validateEdgeInput (js "a! a!") false = Invalid BAD_NODE_ID
  /\ BAD_WEIGHTED_FORMAT <> SELF_LOOP
  /\ BAD_NODE_ID <> SELF_LOOP.
Proof.
  repeat split; try reflexivity; discriminate.
Qed.

Lemma identical_endpoints_rejected_witness :
  validateEdgeInput (js "a a") false = Invalid SELF_LOOP
  /\ validateEdgeInput (js " a  a 3.5") true = Invalid SELF_LOOP.
Proof.
  destruct identical_endpoints_rejected as [Hu [Hw _]].
  assert (Hshape : decimalShape (js "3.5")).
  { exists (js "3").
    split; [repeat constructor | split; [discriminate|]].
    right. exists (js "5").
    split; [repeat constructor | split; [discriminate | reflexivity]]. }
  split.
  - apply (Hu (js "a a") (js "a")).
    exists [], (js " "), [].
    repeat split; try discriminate; repeat constructor.
  - apply (Hw (js " a  a 3.5") (js "a") (js "3.5")).
    exists (js " "), (js "  "), (js " "), [].
    split; [reflexivity|].
    repeat (split; [first [discriminate | repeat constructor]|]);
      first [exact Hshape | constructor].
Defined.

(* ================================================================== *)
(** * The weight check                                                 *)
(* ================================================================== *)

Section WeightCheck.

Lemma dropWhile_stops_id (p : N -> bool) (s : jsstring) :
  stops p s -> dropWhile p s = s.
Proof.
  destruct s as [|c r]; simpl; [reflexivity|]. now intros ->.
Qed.

(** Three words of which the last is not of the weight's shape do not
    match the weighted pattern. *)
Lemma EDGE_WEIGHTED_no_match (a w1 b w2 c : jsstring) :
  word a -> a <> [] -> ws w1 -> w1 <> [] ->
  word b -> b <> [] -> ws w2 -> w2 <> [] ->
  word c -> c <> [] ->
  ~ decimalShape c ->
  EDGE_WEIGHTED_match (a ++ w1 ++ b ++ w2 ++ c) = None.
Proof.
  intros Ha Na H1 M1 Hb Nb H2 M2 Hc Nc Hbad.
  unfold EDGE_WEIGHTED_match.
  rewrite (dropWhile_stops_id isWhiteSpace _ (word_stops_ws a _ Ha Na)).
  rewrite (span_app nonWhiteSpace a _ Ha (ws_stops_word w1 _ H1 M1)).
  rewrite (span_app isWhiteSpace w1 _ H1 (word_stops_ws b _ Hb Nb)).
  rewrite (span_app nonWhiteSpace b _ Hb (ws_stops_word w2 _ H2 M2)).
  assert (Hsc : stops isWhiteSpace c).
  { pose proof (word_stops_ws c [] Hc Nc) as H. now rewrite app_nil_r in H. }
  rewrite (span_app isWhiteSpace w2 c H2 Hsc).
  destruct (scanWeight c) as [g r] eqn:Hscan.
  destruct (nonEmpty g) eqn:Eg; [|now rewrite !andb_false_r].
  apply nonEmpty_true in Eg.
  destruct (scanWeight_sound c g r Hscan Eg) as [Hshape Hsplit].
  assert (Hr : word r).
  { rewrite Hsplit in Hc. now apply Forall_app in Hc. }
  rewrite (dropWhile_word r Hr).
  destruct r as [|z r].
  - rewrite app_nil_r in Hsplit. subst g. contradiction.
  - simpl. now rewrite !andb_false_r.
Qed.

Lemma messages_differ :
  EDGE_EMPTY <> BAD_WEIGHT /\ BAD_WEIGHTED_FORMAT <> BAD_WEIGHT
  /\ BAD_NODE_ID <> BAD_WEIGHT /\ SELF_LOOP <> BAD_WEIGHT.
Proof. repeat split; discriminate. Qed.

(** C10.  In weighted mode the branch that returns 'Weight must be a
    non-negative number' is never taken: whatever the weighted pattern
    captures as the weight is digits with an optional decimal part, which is
    not NaN and does not parse below zero; so no line yields that error, and
    a line of three words whose third is not of that shape (a negative or
    non-numeric weight) is turned down for its format instead. *)
Theorem weight_error_unreachable :
  (forall s g1 g2 g3,
     EDGE_WEIGHTED_match s = Some (g1, g2, g3) ->
     decimalShape g3 /\ badWeight (Some g3) = false)
  /\ (forall line, validateEdgeInput line true <> Invalid BAD_WEIGHT)
  /\ (forall a w1 b w2 c,
        word a -> a <> [] -> ws w1 -> w1 <> [] ->
        word b -> b <> [] -> ws w2 -> w2 <> [] ->
        word c -> c <> [] ->
        ~ decimalShape c ->
        validateEdgeInput (a ++ w1 ++ b ++ w2 ++ c) true
        = Invalid BAD_WEIGHTED_FORMAT).
Proof.
  assert (Hcap : forall s g1 g2 g3,
             EDGE_WEIGHTED_match s = Some (g1, g2, g3) ->
             decimalShape g3 /\ badWeight (Some g3) = false).
  { intros s g1 g2 g3 Hm. apply EDGE_WEIGHTED_match_spec in Hm.
    destruct Hm as (? & ? & ? & ? & ? & ? & ? & ? & ? & ? & ? & ? & ? & ?
                    & Hshape & ?).
    split; [exact Hshape|].
    destruct (decimalShape_good_weight g3 Hshape) as [Hnan Hneg].
    simpl. now rewrite Hnan, Hneg. }
  destruct messages_differ as [D1 [D2 [D3 D4]]].
  split; [exact Hcap | split].
  - intros line. unfold validateEdgeInput.
    destruct (negb (nonEmpty (trim line))); [congruence|].
    unfold matchPattern.
    destruct (EDGE_WEIGHTED_match (trim line)) as [[[g1 g2] g3]|] eqn:Hm;
      [|congruence].
    destruct (negb (isValidNodeId g1) || negb (isValidNodeId g2));
      [congruence|].
    destruct (streq g1 g2); [congruence|].
    destruct (Hcap _ _ _ _ Hm) as [_ Hok]. rewrite Hok. discriminate.
  - intros a w1 b w2 c Ha Na H1 M1 Hb Nb H2 M2 Hc Nc Hbad.
    assert (Htrim : trim (a ++ w1 ++ b ++ w2 ++ c) = a ++ w1 ++ b ++ w2 ++ c).
    { pose proof (trim_words [] a (w1 ++ b ++ w2) c []
                    (Forall_nil _) (Forall_nil _) Ha Na Hc Nc) as H.
      rewrite app_nil_r, <- !app_assoc in H. exact H. }
    unfold validateEdgeInput, matchPattern. rewrite Htrim.
    rewrite (EDGE_WEIGHTED_no_match a w1 b w2 c); auto.
    destruct a; [congruence | reflexivity].
Qed.

End WeightCheck.

Lemma weight_error_unreachable_witness :
  badWeight (Some (js "12.50")) = false
  /\ validateEdgeInput (js "a b -1") true = Invalid BAD_WEIGHTED_FORMAT.
Proof.
  destruct weight_error_unreachable as [Hcap [_ Hfmt]].
  split.
  - exact (proj2 (Hcap (js "a b 12.50") (js "a") (js "b") (js "12.50")
                    eq_refl)).
  - apply (Hfmt (js "a") (js " ") (js "b") (js " ") (js "-1"));
      try discriminate; try (repeat constructor).
    intros (ip & Hip & Nip & [E | (fp & _ & _ & E)]).
    + subst ip. inversion Hip as [|? ? Hd _]. discriminate Hd.
    + destruct ip as [|d ip]; [congruence|].
      injection E as <- _. inversion Hip as [|? ? Hd _]. discriminate Hd.
Defined.

(* ================================================================== *)
(** * Error labels                                                     *)
(* ================================================================== *)

Section Labels.

Variable weighted : bool.

Lemma In_map_S (ks : list nat) (k : nat) :
  In (S k) (List.map S ks) <-> In k ks.
Proof.
  rewrite in_map_iff. split.
  - now intros [j [[= ->] Hj]].
  - intros H. now exists k.
Qed.

Lemma not_In_0_map_S (ks : list nat) : ~ In 0%nat (List.map S ks).
Proof. rewrite in_map_iff. now intros [j [Hj _]]. Qed.

Lemma increasing_map_S (ks : list nat) :
  StronglySorted lt ks -> StronglySorted lt (List.map S ks).
Proof.
  induction 1 as [|k ks Hs IH Hk]; simpl; constructor; [exact IH|].
  rewrite Forall_map. eapply Forall_impl; [|exact Hk].
  intros j Hj. simpl. lia.
Qed.

Lemma labelled_shift (i : nat) (ks : list nat) (new : list jsstring) :
  Forall2 (fun k e => labelledFor (S i + k) e) ks new ->
  Forall2 (fun k e => labelledFor (i + k) e) (List.map S ks) new.
Proof.
  induction 1 as [|k e ks new Hk _ IH]; simpl; constructor; [|exact IH].
  now replace (i + S k)%nat with (S i + k)%nat by lia.
Qed.

(** The loop adds one message for each line it turns down, in line order,
    each labelled with the position of its line among the lines it sees. *)
Lemma forEach_errors_labelled (lines : list jsstring) :
  forall i st,
  exists (ks : list nat) (new : list jsstring),
    errs (forEach weighted lines i st) = errs st ++ new
    /\ Forall2 (fun k e => labelledFor (i + k) e) ks new
    /\ StronglySorted lt ks
    /\ (forall k,
          In k ks <->
          exists line,
            nth_error lines k = Some line
            /\ lineRejected weighted
                 (edgeSet (forEach weighted (firstn k lines) i st)) line).
Proof.
  induction lines as [|x lines IH]; intros i st.
  - exists [], []. simpl. rewrite app_nil_r.
    repeat split; try constructor; try contradiction.
    intros [line [Hk _]]. destruct k; discriminate.
  - destruct (IH (S i) (forEachBody weighted st x i))
      as (ks & new & Herrs & Hlab & Hinc & Hin).
    destruct (forEachBody_cases weighted st x i)
      as [[Hr [text Hb]] | [Hr [s [t [wt [_ Hb]]]]]].
    + exists (0%nat :: List.map S ks), (lineMessage i text :: new).
      simpl forEach. rewrite Herrs, Hb. simpl errs.
      rewrite <- app_assoc. simpl.
      split; [reflexivity|]. split; [|split].
      * constructor; [|now apply labelled_shift].
        exists text. now rewrite Nat.add_0_r.
      * constructor; [now apply increasing_map_S|].
        rewrite Forall_map. apply Forall_forall. intros; lia.
      * intros [|k].
        -- split; [|now left]. intros _. exists x. now split.
        -- cbn [firstn forEach nth_error]. split.
           ++ intros [Hk | Hk]; [discriminate|].
              apply (proj1 (In_map_S ks k)) in Hk. now apply Hin.
           ++ intros Hk. right. apply In_map_S. now apply Hin.
    + exists (List.map S ks), new.
      simpl forEach. rewrite Herrs, Hb. simpl errs.
      split; [reflexivity|]. split; [|split].
      * now apply labelled_shift.
      * now apply increasing_map_S.
      * intros [|k].
        -- split; [intros H; now apply not_In_0_map_S in H|].
           intros [line [[= <-] Hbad]]. contradiction.
        -- cbn [firstn forEach nth_error]. rewrite In_map_S. apply Hin.
Qed.

(** For an input that is not blank: one message per line turned down, in
    order, each labelled with the position its line has once blank lines
    are dropped. *)
Lemma errors_one_per_rejected_line (input : jsstring) :
  trim input <> [] ->
  exists ks : list nat,
    Forall2 labelledFor ks (errors (validateGraphInput input weighted))
    /\ StronglySorted lt ks
    /\ (forall k,
          In k ks <->
          exists line,
            nth_error (graphLines input) k = Some line
            /\ lineRejected weighted
                 (seenBefore weighted (graphLines input) k) line).
Proof.
  intros H. rewrite (validateGraphInput_lines weighted input H). simpl.
  destruct (forEach_errors_labelled (graphLines input) 0 loopStart)
    as (ks & new & Herrs & Hlab & Hinc & Hin).
  exists ks. rewrite Herrs. simpl. repeat split; auto; apply Hin.
Qed.

End Labels.

(** C8.  The label is the position among the non-blank lines, not the
    line number in the text: the self-loop on the third line of
    [blank_line_between] is reported as "Line 2". *)
Theorem line_label_skips_blank_lines :
  nth_error (split_newline blank_line_between) 2 = Some (js "a a")
  /\ validateGraphInput blank_line_between false
     = mkGraphValidation false
         [js "Line 2: Self-loops are not supported"]
         [mkEdge (js "a") (js "b") None].
Proof.
  split; vm_compute; reflexivity.
Qed.

(* ================================================================== *)
(** * More on [trim]                                                   *)
(* ================================================================== *)

Section TrimFacts.

Lemma dropWhile_app_all (p : N -> bool) (xs rest : jsstring) :
  all p xs -> dropWhile p (xs ++ rest) = dropWhile p rest.
Proof.
  induction 1 as [|c r Hc _ IH]; simpl; [reflexivity | now rewrite Hc].
Qed.

(** [trimEnd] cuts a run of whitespace off the end. *)
Lemma trimEnd_decompose (t : jsstring) :
  exists w1, ws w1 /\ t = trimEnd t ++ w1.
Proof.
  exists (rev (takeWhile isWhiteSpace (rev t))). split.
  - apply Forall_rev, takeWhile_all_in.
  - unfold trimEnd. rewrite <- rev_app_distr, takeWhile_dropWhile.
    now rewrite rev_involutive.
Qed.

(** A string is its trimmed part with whitespace on both sides. *)
Lemma trim_decompose (s : jsstring) :
  exists w0 w1, ws w0 /\ ws w1 /\ s = w0 ++ trim s ++ w1.
Proof.
  destruct (trimEnd_decompose (trimStart s)) as (w1 & Hw1 & Ht).
  exists (takeWhile isWhiteSpace s), w1.
  split; [apply takeWhile_all_in | split; [exact Hw1|]].
  unfold trim. rewrite <- Ht. unfold trimStart.
  now rewrite takeWhile_dropWhile.
Qed.

(** The trimmed part neither starts nor ends with whitespace. *)
Lemma trim_stops (s : jsstring) :
  stops isWhiteSpace (trim s) /\ stops isWhiteSpace (rev (trim s)).
Proof.
  split.
  - destruct (trimEnd_decompose (trimStart s)) as (w1 & _ & Ht).
    pose proof (dropWhile_stops isWhiteSpace s) as Hs.
    fold (trimStart s) in Hs. rewrite Ht in Hs. unfold trim.
    now destruct (trimEnd (trimStart s)).
  - unfold trim, trimEnd. rewrite rev_involutive. apply dropWhile_stops.
Qed.

Lemma all_app (p : N -> bool) (a b : jsstring) :
  all p a -> all p b -> all p (a ++ b).
Proof. intros Ha Hb. apply Forall_app. now split. Qed.

(** Whitespace around a string does not change what it trims to. *)
Lemma trim_ws_around (w0 s w1 : jsstring) :
  ws w0 -> ws w1 -> trim (w0 ++ s ++ w1) = trim s.
Proof.
  intros H0 H1.
  destruct (trim_decompose s) as (a & b & Ha & Hb & Hs).
  destruct (trim_stops s) as [Hhead Hlast].
  destruct (trim s) as [|c core] eqn:E.
  - apply trim_whitespace. rewrite Hs. simpl.
    repeat apply all_app; assumption.
  - rewrite Hs at 1.
    replace (w0 ++ (a ++ (c :: core) ++ b) ++ w1)
      with ((w0 ++ a) ++ (c :: core) ++ (b ++ w1))
      by (now rewrite <- !app_assoc).
    apply trim_between; try apply all_app; auto. discriminate.
Qed.

Lemma trim_idempotent (s : jsstring) : trim (trim s) = trim s.
Proof.
  destruct (trim_decompose s) as (a & b & Ha & Hb & Hs).
  rewrite Hs at 2. now rewrite trim_ws_around.
Qed.

End TrimFacts.

(* ================================================================== *)
(** * What [validateEdgeInput] accepts                                 *)
(* ================================================================== *)

Section Acceptance.

Lemma twoWords_untrim (line g1 g2 : jsstring) :
  twoWords (trim line) g1 g2 -> twoWords line g1 g2.
Proof.
  intros (u0 & u1 & u2 & Ht & H0 & Hg1 & N1 & H1 & M1 & Hg2 & N2 & H2).
  destruct (trim_decompose line) as (a & b & Ha & Hb & Hs).
  exists (a ++ u0), u1, (u2 ++ b).
  repeat split; auto using all_app.
  rewrite Hs at 1. rewrite Ht. now rewrite <- !app_assoc.
Qed.

Lemma twoWordsAndWeight_untrim (line g1 g2 g3 : jsstring) :
  twoWordsAndWeight (trim line) g1 g2 g3 -> twoWordsAndWeight line g1 g2 g3.
Proof.
  intros (u0 & u1 & u2 & u3 & Ht & H0 & Hg1 & N1 & H1 & M1 & Hg2 & N2
          & H2 & M2 & Hg3 & H3).
  destruct (trim_decompose line) as (a & b & Ha & Hb & Hs).
  exists (a ++ u0), u1, u2, (u3 ++ b).
  repeat split; auto using all_app.
  rewrite Hs at 1. rewrite Ht. now rewrite <- !app_assoc.
Qed.

Lemma validateEdgeInput_unweighted_inv (line a b : jsstring) wt :
  validateEdgeInput line false = Valid a b wt ->
  twoWords line a b
  /\ isValidNodeId a = true /\ isValidNodeId b = true /\ wt = None.
Proof.
  intros H. unfold validateEdgeInput, matchPattern in H.
  destruct (negb (nonEmpty (trim line))); [discriminate|].
  destruct (EDGE_UNWEIGHTED_match (trim line)) as [[g1 g2]|] eqn:Hm;
    [|discriminate].
  destruct (isValidNodeId g1) eqn:V1; [|discriminate].
  destruct (isValidNodeId g2) eqn:V2; [|discriminate].
  simpl in H. destruct (streq g1 g2); [discriminate|].
  injection H as <- <- <-.
  apply EDGE_UNWEIGHTED_match_spec, twoWords_untrim in Hm.
  repeat split; auto.
Qed.

Lemma validateEdgeInput_weighted_inv (line a b : jsstring) wt :
  validateEdgeInput line true = Valid a b wt ->
  exists g3,
    twoWordsAndWeight line a b g3
    /\ isValidNodeId a = true /\ isValidNodeId b = true
    /\ wt = Some (parseFloat g3).
Proof.
  intros H. unfold validateEdgeInput, matchPattern in H.
  destruct (negb (nonEmpty (trim line))); [discriminate|].
  destruct (EDGE_WEIGHTED_match (trim line)) as [[[g1 g2] g3]|] eqn:Hm;
    [|discriminate].
  destruct (isValidNodeId g1) eqn:V1; [|discriminate].
  destruct (isValidNodeId g2) eqn:V2; [|discriminate].
  simpl in H. destruct (streq g1 g2); [discriminate|].
  destruct (isNaN g3 || ltZero (parseFloat g3)); [discriminate|].
  injection H as <- <- <-.
  apply EDGE_WEIGHTED_match_spec, twoWordsAndWeight_untrim in Hm.
  exists g3. repeat split; auto.
Qed.

(** X1.  Unweighted mode accepts a line exactly when it is two words set
    apart by whitespace, both valid node identifiers and different from each
    other; the accepted edge has these two words as endpoints and no
    weight. *)
Theorem validateEdgeInput_accepts_unweighted :
  forall (line a b : jsstring) (wt : option jsnumber),
    validateEdgeInput line false = Valid a b wt
    <-> (twoWords line a b
         /\ isValidNodeId a = true /\ isValidNodeId b = true
         /\ a <> b /\ wt = None).
Proof.
  intros line a b wt. split.
  - intros H. pose proof (validateEdgeInput_no_self_loop _ _ _ _ _ H) as Hne.
    destruct (validateEdgeInput_unweighted_inv line a b wt H)
      as (Hw & Ha & Hb & Hwt).
    repeat split; auto.
  - intros (Hw & Ha & Hb & Hne & ->).
    rewrite (validateEdgeInput_unweighted_match line a b Hw), Ha, Hb.
    simpl. apply streq_false in Hne. now rewrite Hne.
Qed.

(** X2.  Weighted mode accepts a line exactly when it is two words and a
    weight written as digits with an optional decimal part, set apart by
    whitespace, the two words being valid node identifiers and different
    from each other; the accepted edge carries the parsed weight. *)
Theorem validateEdgeInput_accepts_weighted :
  forall (line a b : jsstring) (wt : option jsnumber),
    validateEdgeInput line true = Valid a b wt
    <-> (exists g3,
           twoWordsAndWeight line a b g3
           /\ isValidNodeId a = true /\ isValidNodeId b = true
           /\ a <> b /\ wt = Some (parseFloat g3)).
Proof.
  intros line a b wt. split.
  - intros H. pose proof (validateEdgeInput_no_self_loop _ _ _ _ _ H) as Hne.
    destruct (validateEdgeInput_weighted_inv line a b wt H)
      as (g3 & Hw & Ha & Hb & Hwt).
    exists g3. repeat split; auto.
  - intros (g3 & Hw & Ha & Hb & Hne & ->).
    rewrite (validateEdgeInput_weighted_match line a b g3 Hw), Ha, Hb.
    simpl. apply streq_false in Hne. now rewrite Hne.
Qed.

End Acceptance.

(** The line [a b] is accepted in unweighted mode. *)
Lemma validateEdgeInput_accepts_unweighted_witness :
  twoWords (js "a b") (js "a") (js "b")
  /\ isValidNodeId (js "a") = true /\ isValidNodeId (js "b") = true
  /\ js "a" <> js "b" /\ @None jsnumber = None.
Proof.
  exact (proj1 (validateEdgeInput_accepts_unweighted
                  (js "a b") (js "a") (js "b") None) eq_refl).
Defined.

(** The line [a b 2.5] is accepted in weighted mode. *)
Lemma validateEdgeInput_accepts_weighted_witness :
  exists g3,
    twoWordsAndWeight (js "a b 2.5") (js "a") (js "b") g3
    /\ isValidNodeId (js "a") = true /\ isValidNodeId (js "b") = true
    /\ js "a" <> js "b"
    /\ Some (Dec false 25 (-1)) = Some (parseFloat g3).
Proof.
  exact (proj1 (validateEdgeInput_accepts_weighted
                  (js "a b 2.5") (js "a") (js "b")
                  (Some (Dec false 25 (-1)))) eq_refl).
Defined.

(* ================================================================== *)
(** * Accepted weights, whitespace, and the two modes                  *)
(* ================================================================== *)

Section Modes.

Lemma decimalShape_text (g : jsstring) :
  decimalShape g <->
  exists ip fp, digits ip /\ ip <> [] /\ digits fp /\ g = decimalText ip fp.
Proof.
  split.
  - intros (ip & Hip & Nip & [-> | (fp & Hfp & Nfp & ->)]).
    + exists ip, []. repeat split; auto. constructor.
    + exists ip, fp. unfold decimalText. apply nonEmpty_true in Nfp.
      rewrite Nfp. repeat split; auto.
  - intros (ip & fp & Hip & Nip & Hfp & ->). unfold decimalText.
    exists ip. split; [exact Hip | split; [exact Nip|]].
    destruct fp as [|c fp]; simpl; [now left|].
    right. exists (c :: fp). repeat split; auto. discriminate.
Qed.

(** [parseFloat] reads such a text as the double nearest to the decimal it
    denotes. *)
Lemma parseFloat_decimalText (ip fp : jsstring) :
  digits ip -> ip <> [] -> digits fp ->
  parseFloat (decimalText ip fp)
  = toDouble false (digitsValue (ip ++ fp)) (- Z.of_nat (List.length fp)).
Proof.
  intros Hip Nip Hfp.
  assert (Hshape : decimalShape (decimalText ip fp)).
  { apply decimalShape_text. exists ip, fp. auto. }
  destruct (decimalShape_word _ Hshape) as [Hword _].
  unfold parseFloat, trimStart. rewrite (dropWhile_word _ Hword).
  destruct ip as [|d ip']; [congruence|].
  assert (Hd : isDigit d = true) by now inversion Hip.
  unfold decimalText.
  destruct fp as [|c fp']; cbn [nonEmpty].
  - cbn [scanDecimalLiteral]. rewrite (digit_not_sign d Hd).
    unfold scanUnsignedDecimal.
    rewrite (stripPrefix_Infinity_digit d _ Hd).
    pose proof (span_app isDigit (d :: ip') [] Hip I) as Hspan.
    rewrite app_nil_r in Hspan. rewrite Hspan.
    cbv beta iota zeta. cbn [nonEmpty orb scanExponent].
    cbv beta iota zeta. now rewrite app_nil_r.
  - change ((d :: ip') ++ 46 :: c :: fp')
      with (d :: ip' ++ 46 :: c :: fp').
    cbn [scanDecimalLiteral]. rewrite (digit_not_sign d Hd).
    unfold scanUnsignedDecimal.
    rewrite (stripPrefix_Infinity_digit d _ Hd).
    change (d :: ip' ++ 46 :: c :: fp')
      with ((d :: ip') ++ 46 :: c :: fp').
    rewrite (span_app isDigit (d :: ip') (46 :: c :: fp') Hip eq_refl).
    cbv beta iota zeta. rewrite N.eqb_refl.
    pose proof (span_app isDigit (c :: fp') [] Hfp I) as Hspan.
    rewrite app_nil_r in Hspan. rewrite Hspan.
    cbv beta iota zeta. cbn [nonEmpty orb scanExponent].
    cbv beta iota zeta. reflexivity.
Qed.

(** X3.  The weight of a line accepted in weighted mode is the number its
    third token writes, read in full: integer digits [ip] and fraction
    digits [fp] give the double nearest to the decimal (ip fp) * 10^-|fp|
    (ties to even; positive infinity when that is out of the doubles'
    range).  It is never NaN and never below zero. *)
Theorem accepted_weight_value :
  forall (line a b : jsstring) (wt : option jsnumber),
    validateEdgeInput line true = Valid a b wt ->
    exists ip fp,
      let w := toDouble false (digitsValue (ip ++ fp))
                        (- Z.of_nat (List.length fp)) in
      digits ip /\ ip <> [] /\ digits fp
      /\ twoWordsAndWeight line a b (decimalText ip fp)
      /\ wt = Some w
      /\ w <> NaN
      /\ ltZero w = false.
Proof.
  intros line a b wt H.
  destruct (validateEdgeInput_weighted_inv line a b wt H)
    as (g3 & Hw & _ & _ & ->).
  assert (Hshape : decimalShape g3).
  { destruct Hw as (? & ? & ? & ? & ? & ? & ? & ? & ? & ? & ? & ? & ? & ?
                    & Hs & ?). exact Hs. }
  apply decimalShape_text in Hshape.
  destruct Hshape as (ip & fp & Hip & Nip & Hfp & ->).
  exists ip, fp. cbv zeta.
  rewrite (parseFloat_decimalText ip fp Hip Nip Hfp).
  repeat split; auto;
    destruct (toDouble_unsigned (digitsValue (ip ++ fp))
                (- Z.of_nat (List.length fp))) as [-> | (d & x & ->)];
    try discriminate; reflexivity.
Qed.

(** A weight of 310 digits is out of the doubles' range, and [1.0] and [1]
    are one number. *)
Remark huge_weight_is_infinite :
  validateEdgeInput (js "a b 1" ++ repeat 48 309%nat) true
  = Valid (js "a") (js "b") (Some (Infinity false))
  /\ parseFloat (js "1.0") = parseFloat (js "1").
Proof. split; vm_compute; reflexivity. Qed.

(** X4.  Whitespace before and after a line (blanks, tabs, a carriage
    return left by a CRLF line end) never changes its verdict. *)
Theorem validateEdgeInput_ignores_outer_whitespace :
  forall (w0 line w1 : jsstring) (weighted : bool),
    ws w0 -> ws w1 ->
    validateEdgeInput (w0 ++ line ++ w1) weighted
    = validateEdgeInput line weighted.
Proof.
  intros w0 line w1 weighted H0 H1. unfold validateEdgeInput.
  now rewrite (trim_ws_around w0 line w1 H0 H1).
Qed.

(** A string matches at most one of the two edge patterns. *)
Lemma patterns_exclusive (s : jsstring) :
  (EDGE_UNWEIGHTED_match s <> None -> EDGE_WEIGHTED_match s = None)
  /\ (EDGE_WEIGHTED_match s <> None -> EDGE_UNWEIGHTED_match s = None).
Proof.
  unfold EDGE_UNWEIGHTED_match, EDGE_WEIGHTED_match, span.
  set (s0 := dropWhile isWhiteSpace s).
  set (s1 := dropWhile nonWhiteSpace s0).
  set (s2 := dropWhile isWhiteSpace s1).
  set (s3 := dropWhile nonWhiteSpace s2).
  set (s4 := dropWhile isWhiteSpace s3).
  destruct (nonEmpty (takeWhile nonWhiteSpace s0));
    [|split; intros H; try reflexivity; exfalso; apply H; reflexivity].
  destruct (nonEmpty (takeWhile isWhiteSpace s1));
    [|split; intros H; try reflexivity; exfalso; apply H; reflexivity].
  destruct (nonEmpty (takeWhile nonWhiteSpace s2));
    [|split; intros H; try reflexivity; exfalso; apply H; reflexivity].
  cbn [andb].
  destruct s4 as [|c r] eqn:E4.
  - assert (Hnone : (let '(g3, s5) := scanWeight [] in
                     let s6 := dropWhile isWhiteSpace s5 in
                     if true && nonEmpty (takeWhile isWhiteSpace s3)
                        && nonEmpty g3 && negb (nonEmpty s6)
                     then Some (takeWhile nonWhiteSpace s0,
                                takeWhile nonWhiteSpace s2, g3)
                     else None) = None).
    { cbn. now rewrite andb_false_r. }
    split; [intros _; exact Hnone | intros H; exfalso; apply H; exact Hnone].
  - split; intros H; [exfalso; apply H; reflexivity | reflexivity].
Qed.

(** X5.  The two modes exclude each other line by line: a line accepted
    in unweighted mode gets the weighted-format error in weighted mode, and
    a line accepted in weighted mode gets the format error in unweighted
    mode. *)
Theorem accepted_in_one_mode_only :
  forall (line a b : jsstring) (wt : option jsnumber),
    (validateEdgeInput line false = Valid a b wt ->
     validateEdgeInput line true = Invalid BAD_WEIGHTED_FORMAT)
    /\ (validateEdgeInput line true = Valid a b wt ->
        validateEdgeInput line false = Invalid BAD_FORMAT).
Proof.
  intros line a b wt.
  destruct (patterns_exclusive (trim line)) as [Hu Hw].
  unfold validateEdgeInput, matchPattern.
  destruct (negb (nonEmpty (trim line))); [split; discriminate|].
  split; intros H.
  - destruct (EDGE_UNWEIGHTED_match (trim line)) as [[g1 g2]|];
      [|discriminate].
    now rewrite Hu.
  - destruct (EDGE_WEIGHTED_match (trim line)) as [[[g1 g2] g3]|];
      [|discriminate].
    now rewrite Hw.
Qed.

End Modes.

(** The weight of [a b 2.5] is 25 * 10^-1. *)
Lemma accepted_weight_value_witness :
  exists ip fp,
    let w := toDouble false (digitsValue (ip ++ fp))
                      (- Z.of_nat (List.length fp)) in
    digits ip /\ ip <> [] /\ digits fp
    /\ twoWordsAndWeight (js "a b 2.5") (js "a") (js "b") (decimalText ip fp)
    /\ Some (Dec false 25 (-1)) = Some w
    /\ w <> NaN
    /\ ltZero w = false.
Proof.
  exact (accepted_weight_value (js "a b 2.5") (js "a") (js "b")
           (Some (Dec false 25 (-1))) eq_refl).
Defined.

(** Two blanks before [a b], a tab and a carriage return after it. *)
Lemma validateEdgeInput_ignores_outer_whitespace_witness :
  validateEdgeInput (js "  " ++ js "a b" ++ [9; 13]) false
  = validateEdgeInput (js "a b") false.
Proof.
  apply validateEdgeInput_ignores_outer_whitespace;
    repeat constructor.
Defined.

(** [a b] fails in weighted mode, [a b 2.5] in unweighted mode. *)
Lemma accepted_in_one_mode_only_witness :
  validateEdgeInput (js "a b") true = Invalid BAD_WEIGHTED_FORMAT
  /\ validateEdgeInput (js "a b 2.5") false = Invalid BAD_FORMAT.
Proof.
  split.
  - exact (proj1 (accepted_in_one_mode_only (js "a b") (js "a") (js "b")
                    None) eq_refl).
  - exact (proj2 (accepted_in_one_mode_only (js "a b 2.5") (js "a") (js "b")
                    (Some (Dec false 25 (-1)))) eq_refl).
Defined.

(* ================================================================== *)
(** * The edges and errors [validateGraphInput] returns                *)
(* ================================================================== *)

Section ReturnedEdges.

Variable weighted : bool.

Lemma validateEdgeInput_wellFormed (line a b : jsstring) wt :
  validateEdgeInput line weighted = Valid a b wt ->
  wellFormedEdge weighted (mkEdge a b wt).
Proof.
  intros H. pose proof (validateEdgeInput_no_self_loop _ _ _ _ _ H) as Hne.
  unfold wellFormedEdge. simpl. destruct weighted.
  - destruct (validateEdgeInput_weighted_inv line a b wt H)
      as (g3 & Hw & Ha & Hb & ->).
    split; [exact Ha | split; [exact Hb | split; [exact Hne|]]].
    destruct Hw as (? & ? & ? & ? & ? & ? & ? & ? & ? & ? & ? & ? & ? & ?
                    & Hs & ?).
    apply decimalShape_text in Hs.
    destruct Hs as (ip & fp & Hip & Nip & Hfp & ->).
    rewrite (parseFloat_decimalText ip fp Hip Nip Hfp).
    eexists. split; [reflexivity|].
    destruct (toDouble_unsigned (digitsValue (ip ++ fp))
                (- Z.of_nat (List.length fp))) as [-> | (dm & dx & ->)];
      split; try discriminate; reflexivity.
  - destruct (validateEdgeInput_unweighted_inv line a b wt H)
      as (_ & Ha & Hb & ->).
    repeat split; auto.
Qed.

Lemma pairs_snoc {A} (R : A -> A -> Prop) (l : list A) (x : A) :
  ForallOrdPairs R l -> Forall (fun y => R y x) l ->
  ForallOrdPairs R (l ++ [x]).
Proof.
  induction 1 as [|a l Ha _ IH]; intros Hx; simpl.
  - constructor; constructor.
  - inversion Hx as [|? ? Hax Hlx]; subst. constructor.
    + apply Forall_app. split; [exact Ha | now constructor].
    + now apply IH.
Qed.

Lemma forEachBody_invariant (n : nat) (st : LoopState) line i :
  loopInvariant weighted n st ->
  loopInvariant weighted (S n) (forEachBody weighted st line i).
Proof.
  intros (Hcount & Hkeys & Hwf & Hpairs).
  unfold forEachBody.
  destruct (validateEdgeInput line weighted) as [e | a b wt] eqn:Hv.
  - repeat split; simpl; auto. rewrite length_app. simpl. lia.
  - destruct (setHas (edgeSet st) (edgeKeyOf a b)
              || setHas (edgeSet st) (edgeKeyOf b a)) eqn:Hseen.
    + repeat split; simpl; auto. rewrite length_app. simpl. lia.
    + apply orb_false_iff in Hseen. destruct Hseen as [Hk Hr].
      repeat split; simpl.
      * rewrite length_app. simpl. lia.
      * rewrite map_app, Hkeys. reflexivity.
      * apply Forall_app. split; [exact Hwf|].
        constructor; [|constructor].
        exact (validateEdgeInput_wellFormed line a b wt Hv).
      * apply pairs_snoc; [exact Hpairs|].
        apply Forall_forall. intros e He [[Hs Ht] | [Hs Ht]]; simpl in *.
        -- assert (Hin : In (edgeKeyOf a b) (edgeSet st)).
           { rewrite Hkeys. apply in_map_iff. exists e.
             split; [now rewrite Hs, Ht | exact He]. }
           apply setHas_In in Hin. congruence.
        -- assert (Hin : In (edgeKeyOf b a) (edgeSet st)).
           { rewrite Hkeys. apply in_map_iff. exists e.
             split; [now rewrite Hs, Ht | exact He]. }
           apply setHas_In in Hin. congruence.
Qed.

Lemma forEach_invariant (lines : list jsstring) :
  forall n i st,
    loopInvariant weighted n st ->
    loopInvariant weighted (n + List.length lines) (forEach weighted lines i st).
Proof.
  induction lines as [|x lines IH]; intros n i st H; simpl.
  - now rewrite Nat.add_0_r.
  - replace (n + S (List.length lines))%nat
      with (S n + List.length lines)%nat by lia.
    apply IH. now apply forEachBody_invariant.
Qed.

Lemma validateGraphInput_invariant (input : jsstring) :
  trim input <> [] ->
  let r := validateGraphInput input weighted in
  (List.length (errors r) + List.length (edges r)
   = List.length (graphLines input))%nat
  /\ Forall (wellFormedEdge weighted) (edges r)
  /\ ForallOrdPairs (fun e1 e2 => ~ samePair e1 e2) (edges r).
Proof.
  intros H r. subst r. rewrite (validateGraphInput_lines weighted input H).
  simpl.
  destruct (forEach_invariant (graphLines input) 0 0 loopStart)
    as (Hc & _ & Hwf & Hp).
  { repeat split; simpl; constructor. }
  now repeat split.
Qed.

(** X20.  For an input that is not blank, [validateGraphInput] returns
    exactly one message per line the loop turns down, in the order of the
    lines, each labelled "Line k+1" for the position [k] of its line among
    the non-blank lines.  The loop turns down a line that
    [validateEdgeInput] rejects, and an accepted line whose key,
    source-target or target-source, is already in the set of keys of the
    lines accepted before it; identifiers may hold a hyphen, so such a line
    need not repeat an earlier edge. *)
Theorem one_message_per_rejected_line :
  forall input : jsstring,
    trim input <> [] ->
    exists ks : list nat,
      Forall2 labelledFor ks (errors (validateGraphInput input weighted))
      /\ StronglySorted lt ks
      /\ (forall k,
            In k ks <->
            exists line,
              nth_error (graphLines input) k = Some line
              /\ lineRejected weighted
                   (seenBefore weighted (graphLines input) k) line).
Proof.
  intros input H. exact (errors_one_per_rejected_line weighted input H).
Qed.

(** X6.  Every non-blank line of a non-blank input ends up as exactly one
    error or exactly one edge: the numbers of errors and of edges add up to
    the number of non-blank lines, and on a valid input there are as many
    edges as non-blank lines. *)
Theorem every_line_is_an_error_or_an_edge :
  forall input : jsstring,
    trim input <> [] ->
    let r := validateGraphInput input weighted in
    (List.length (errors r) + List.length (edges r)
     = List.length (graphLines input))%nat
    /\ (isValid r = true ->
        List.length (edges r) = List.length (graphLines input)).
Proof.
  intros input H r.
  destruct (validateGraphInput_invariant input H) as (Hc & _ & _).
  fold r in Hc. split; [exact Hc|].
  intros Hv. subst r.
  rewrite (validateGraphInput_lines weighted input H) in *. simpl in *.
  apply Nat.eqb_eq in Hv. lia.
Qed.

(** X7.  The edges [validateGraphInput] returns, valid input or not, are
    all well formed for the mode (valid and distinct endpoints, and exactly
    in weighted mode a weight, which is a number other than NaN and not
    below zero), and no two of them join the same two nodes, in either
    direction. *)
Theorem returned_edges_well_formed_and_distinct :
  forall input : jsstring,
    let r := validateGraphInput input weighted in
    Forall (wellFormedEdge weighted) (edges r)
    /\ ForallOrdPairs (fun e1 e2 => ~ samePair e1 e2) (edges r).
Proof.
  intros input r.
  destruct (jsstring_eq_dec (trim input) []) as [Hb | Hnb].
  - subst r. rewrite (validateGraphInput_blank input weighted Hb). simpl.
    split; constructor.
  - destruct (validateGraphInput_invariant input Hnb) as (_ & Hwf & Hp).
    now split.
Qed.

End ReturnedEdges.

(** The self-loop of [blank_line_between] is the one rejected line. *)
Lemma one_message_per_rejected_line_witness :
  exists ks : list nat,
    Forall2 labelledFor ks
      (errors (validateGraphInput blank_line_between false))
    /\ StronglySorted lt ks
    /\ (forall k,
          In k ks <->
          exists line,
            nth_error (graphLines blank_line_between) k = Some line
            /\ lineRejected false
                 (seenBefore false (graphLines blank_line_between) k) line).
Proof.
  refine (one_message_per_rejected_line false blank_line_between _).
  vm_compute. discriminate.
Defined.

(** The two lines of [ab_then_ba] give one edge and one message. *)
Lemma every_line_is_an_error_or_an_edge_witness :
  let r := validateGraphInput ab_then_ba false in
  (List.length (errors r) + List.length (edges r)
   = List.length (graphLines ab_then_ba))%nat
  /\ (isValid r = true ->
      List.length (edges r) = List.length (graphLines ab_then_ba)).
Proof.
  refine (every_line_is_an_error_or_an_edge false ab_then_ba _).
  vm_compute. discriminate.
Defined.

(* ================================================================== *)
(** * Keys that collide, and inputs in the wrong mode                  *)
(* ================================================================== *)

Section Collisions.

Variable weighted : bool.

(** A key stored right after line [x] makes a later valid line with that
    key, or with its reverse, a reported duplicate. *)
Lemma forEach_seen_later
    (before between behind : list jsstring) (x y : jsstring)
    (a b k : jsstring) (wb : option jsnumber) (i : nat) (st : LoopState) :
  In k (edgeSet (forEachBody weighted (forEach weighted before i st) x
                   (i + List.length before))) ->
  validateEdgeInput y weighted = Valid a b wb ->
  k = edgeKeyOf a b \/ k = edgeKeyOf b a ->
  In (lineMessage (i + List.length before + List.length between + 1)
        DUPLICATE_EDGE)
     (errs (forEach weighted (before ++ x :: between ++ y :: behind) i st)).
Proof.
  intros Hk Hy Hkey.
  rewrite !forEach_app. simpl.
  set (i1 := (i + List.length before)%nat) in *.
  set (st1 := forEachBody weighted (forEach weighted before i st) x i1) in *.
  rewrite !forEach_app. simpl.
  set (st2 := forEach weighted between (S i1) st1).
  assert (Hseen : In (edgeKeyOf a b) (edgeSet st2)
                  \/ In (edgeKeyOf b a) (edgeSet st2)).
  { pose proof (proj1 (forEach_keeps weighted between (S i1) st1) k Hk).
    destruct Hkey as [<- | <-]; [now left | now right]. }
  rewrite (forEachBody_duplicate weighted st2 y _ a b wb Hy Hseen).
  apply (proj2 (forEach_keeps weighted behind _ _)). simpl.
  apply in_or_app. right. left. f_equal. unfold i1. lia.
Qed.

Lemma firstn_prefix {A} (l1 l2 : list A) :
  firstn (List.length l1) (l1 ++ l2) = l1.
Proof.
  induction l1 as [|a l1 IH]; simpl; [now destruct l2 | now rewrite IH].
Qed.

(** X8.  Node identifiers may contain a hyphen, and the duplicate check
    compares the texts "source-target": a valid line for the edge from [a]
    to [b-c] that the loop accepts makes a later valid line for the edge
    from [a-b] to [c] a reported duplicate, although the two lines name
    different edges. *)
Theorem hyphen_in_identifier_collides :
  forall (input : jsstring) (before between behind : list jsstring)
         (x y a b c : jsstring) (wa wb : option jsnumber),
    graphLines input = before ++ x :: between ++ y :: behind ->
    validateEdgeInput x weighted = Valid a (b ++ js "-" ++ c) wa ->
    validateEdgeInput y weighted = Valid (a ++ js "-" ++ b) c wb ->
    ~ lineRejected weighted
        (seenBefore weighted (graphLines input) (List.length before)) x ->
    let r := validateGraphInput input weighted in
    In (lineMessage (List.length before + List.length between + 1)
          DUPLICATE_EDGE) (errors r)
    /\ isValid r = false
    /\ a <> a ++ js "-" ++ b.
Proof.
  intros input before between behind x y a b c wa wb Hlines Hx Hy Hfresh r.
  assert (Hnb : trim input <> []).
  { apply graphLines_nonblank. rewrite Hlines. now destruct before. }
  assert (Hin : In (lineMessage (List.length before + List.length between + 1)
                      DUPLICATE_EDGE) (errors r)).
  { subst r. rewrite (validateGraphInput_lines weighted input Hnb), Hlines.
    simpl.
    apply (forEach_seen_later before between behind x y
             (a ++ js "-" ++ b) c (edgeKeyOf a (b ++ js "-" ++ c)) wb
             0 loopStart); [|exact Hy|].
    - unfold seenBefore in Hfresh. rewrite Hlines, firstn_prefix in Hfresh.
      destruct (forEachBody_cases weighted
                  (forEach weighted before 0 loopStart) x
                  (0 + List.length before))
        as [[Hbad _] | [_ (s & t & w & Hv & ->)]]; [contradiction|].
      rewrite Hx in Hv. injection Hv as <- <- <-. simpl.
      apply in_or_app. right. now left.
    - left. unfold edgeKeyOf. now rewrite <- !app_assoc. }
  split; [exact Hin | split].
  - exact (isValid_false_of_error weighted input _ Hin).
  - intros E. apply (f_equal (@List.length N)) in E.
    rewrite !length_app in E. simpl in E. lia.
Qed.

(** A non-blank input has at least one non-blank line. *)
Lemma graphLines_nonempty (input : jsstring) :
  trim input <> [] -> graphLines input <> [].
Proof.
  intros H. unfold graphLines.
  destruct (trim_stops input) as [Hhead _].
  destruct (trim input) as [|c r]; [congruence|]. simpl in Hhead.
  assert (Hc : (c =? 10) = false).
  { destruct (c =? 10) eqn:E; [|reflexivity].
    apply N.eqb_eq in E. subst c. discriminate. }
  assert (Hfirst : exists h tl, split_newline (c :: r) = (c :: h) :: tl).
  { simpl. rewrite Hc. destruct (split_newline r); eauto. }
  destruct Hfirst as (h & tl & ->). simpl.
  assert (Hne : trim (c :: h) <> []).
  { intros E. destruct (trim_decompose (c :: h)) as (w0 & w1 & H0 & H1 & Hs).
    rewrite E in Hs. simpl in Hs.
    assert (Hall : ws (c :: h)) by (rewrite Hs; now apply all_app).
    inversion Hall as [|? ? Hws _]. congruence. }
  apply nonEmpty_true in Hne. rewrite Hne. discriminate.
Qed.

(** A line accepted in one mode is an error in the other. *)
Lemma accepted_line_fails_in_other_mode (line a b : jsstring) wt :
  validateEdgeInput line weighted = Valid a b wt ->
  exists e, validateEdgeInput line (negb weighted) = Invalid e.
Proof.
  destruct (patterns_exclusive (trim line)) as [Hu Hw].
  unfold validateEdgeInput, matchPattern.
  destruct (negb (nonEmpty (trim line))); [discriminate|].
  destruct weighted; simpl; intros H.
  - destruct (EDGE_WEIGHTED_match (trim line)) as [[[g1 g2] g3]|];
      [|discriminate].
    rewrite Hw by discriminate. eauto.
  - destruct (EDGE_UNWEIGHTED_match (trim line)) as [[g1 g2]|];
      [|discriminate].
    rewrite Hu by discriminate. eauto.
Qed.

(** X9.  A graph text is valid in at most one of the two modes: an input
    that validates in one mode fails validation in the other, so switching
    the weighted flag on a valid graph always invalidates it. *)
Theorem valid_in_one_mode_only :
  forall input : jsstring,
    isValid (validateGraphInput input weighted) = true ->
    isValid (validateGraphInput input (negb weighted)) = false.
Proof.
  intros input Hv.
  destruct (jsstring_eq_dec (trim input) []) as [Hb | Hnb].
  { now rewrite (validateGraphInput_blank input _ Hb). }
  apply (proj1 (isValid_iff_noLineRejected weighted input Hnb)) in Hv.
  destruct (isValid (validateGraphInput input (negb weighted))) eqn:Hv';
    [|reflexivity].
  apply (proj1 (isValid_iff_noLineRejected (negb weighted) input Hnb))
    in Hv'.
  pose proof (graphLines_nonempty input Hnb) as Hne.
  destruct (graphLines input) as [|line rest] eqn:Hl; [congruence|].
  specialize (Hv 0%nat line). specialize (Hv' 0%nat line).
  rewrite Hl in Hv, Hv'. specialize (Hv eq_refl). specialize (Hv' eq_refl).
  unfold lineRejected in Hv, Hv'.
  destruct (validateEdgeInput line weighted) as [e | a b wt] eqn:E;
    [now elim Hv|].
  destruct (accepted_line_fails_in_other_mode line a b wt E) as [e' He'].
  rewrite He' in Hv'. now elim Hv'.
Qed.

End Collisions.

(** [a] to [b-c] and [a-b] to [c] are taken for the same edge. *)
Lemma hyphen_in_identifier_collides_witness :
  let r := validateGraphInput hyphenated false in
  In (js "Line 2: Duplicate edge detected") (errors r)
  /\ isValid r = false
  /\ js "a" <> js "a" ++ js "-" ++ js "b".
Proof.
  refine (hyphen_in_identifier_collides false hyphenated [] [] []
            (js "a b-c") (js "a-b c") (js "a") (js "b") (js "c") None None
            eq_refl eq_refl eq_refl _).
  intros H. vm_compute in H. destruct H as [[] | []].
Defined.

(** The text [a b] is valid unweighted, so it is not valid weighted. *)
Lemma valid_in_one_mode_only_witness :
  isValid (validateGraphInput (js "a b") true) = false.
Proof.
  exact (valid_in_one_mode_only false (js "a b") eq_refl).
Defined.

(* ================================================================== *)
(** * The states the graph state manager can be in                     *)
(* ================================================================== *)

Section ManagerStates.

Variable parseGraphInput : jsstring -> bool -> bool -> option ParsedGraph.

(** The effect looks at the text and the two flags only. *)
Lemma reparse_reads_text_and_flags (st st' : GraphState) :
  inputText st = inputText st' ->
  isDirected st = isDirected st' ->
  isWeighted st = isWeighted st' ->
  reparse parseGraphInput st = reparse parseGraphInput st'.
Proof.
  destruct st, st'. simpl. intros -> -> ->.
  unfold reparse, parseAndValidateInput, setModel. simpl.
  destruct (nonEmpty (trim _)); [|reflexivity].
  destruct (negb (isValid _)); [reflexivity|].
  now destruct (parseGraphInput _ _ _).
Qed.

Lemma reparse_keeps_text_and_flags (st : GraphState) :
  let st' := after (reparse parseGraphInput st) in
  inputText st' = inputText st
  /\ isDirected st' = isDirected st
  /\ isWeighted st' = isWeighted st.
Proof.
  unfold reparse, parseAndValidateInput.
  destruct (nonEmpty (trim _)); [|now repeat split].
  destruct (negb (isValid _)); [now repeat split|].
  destruct (parseGraphInput _ _ _); now repeat split.
Qed.

(** Running the effect a second time changes nothing. *)
Lemma reparse_idempotent (st : GraphState) :
  after (reparse parseGraphInput (after (reparse parseGraphInput st)))
  = after (reparse parseGraphInput st).
Proof.
  destruct (reparse_keeps_text_and_flags st) as (Ht & Hd & Hw).
  rewrite (reparse_reads_text_and_flags _ st Ht Hd Hw).
  unfold reparse, parseAndValidateInput, setModel.
  destruct (nonEmpty (trim _)); [|reflexivity].
  destruct (negb (isValid _)); [reflexivity|].
  now destruct (parseGraphInput _ _ _).
Qed.

Lemma act_is_reparse (a : Action) (st : GraphState) :
  exists st0, act parseGraphInput a st = reparse parseGraphInput st0.
Proof. destruct a; simpl; eexists; reflexivity. Qed.

Lemma derived_facts (st : GraphState) :
  derived parseGraphInput st ->
  (isValidGraph st = false ->
   nodes st = [] /\ links st = [] /\ adjList st = [])
  /\ (isValidGraph st = true ->
      inputErrors st = []
      /\ trim (inputText st) <> []
      /\ isValid (validateGraphInput (inputText st) (isWeighted st)) = true
      /\ parseGraphInput (inputText st) (isDirected st) (isWeighted st)
         = Some (mkParsed (nodes st) (links st) (adjList st))).
Proof.
  destruct st as [ns ls adj d w text errs valid].
  unfold derived, reparse, parseAndValidateInput, setModel. simpl.
  destruct (nonEmpty (trim text)) eqn:Et; simpl.
  - apply nonEmpty_true in Et.
    destruct (isValid (validateGraphInput text w)) eqn:Ev; simpl.
    + destruct (parseGraphInput text d w) as [g|] eqn:Ep; simpl;
        intros [= <- <- <- <- <-].
      * split; [discriminate|]. intros _. repeat split; auto.
        now destruct g.
      * split; [now repeat split | discriminate].
    + intros [= <- <- <- <- <-]. split; [now repeat split | discriminate].
  - intros [= <- <- <- <- <-]. split; [now repeat split | discriminate].
Qed.

(** X10.  Whatever sequence of text changes, flag changes and clears the
    hook has gone through, its state is the one derived from its current
    text and flags: running the effect again changes nothing.  So an
    invalid state has an empty model, and a valid state has no errors, a
    non-blank text that passes validation, and exactly the model the parser
    returns for that text and those flags. *)
Theorem manager_state_is_derived :
  forall actions : list Action,
    let st := runActions parseGraphInput actions initialState in
    derived parseGraphInput st
    /\ (isValidGraph st = false ->
        nodes st = [] /\ links st = [] /\ adjList st = [])
    /\ (isValidGraph st = true ->
        inputErrors st = []
        /\ trim (inputText st) <> []
        /\ isValid (validateGraphInput (inputText st) (isWeighted st)) = true
        /\ parseGraphInput (inputText st) (isDirected st) (isWeighted st)
           = Some (mkParsed (nodes st) (links st) (adjList st))).
Proof.
  intros actions st.
  assert (Hd : derived parseGraphInput st).
  { subst st. unfold runActions.
    induction actions as [|a actions IH] using rev_ind.
    - reflexivity.
    - rewrite fold_left_app. simpl.
      destruct (act_is_reparse a
                  (fold_left (fun s a0 => after (act parseGraphInput a0 s))
                     actions initialState)) as [st0 ->].
      apply reparse_idempotent. }
  split; [exact Hd | exact (derived_facts st Hd)].
Qed.

End ManagerStates.

(** After a valid text, a flag change, a clear and a text with a self-loop
    the model is empty. *)
Lemma manager_state_is_derived_witness :
  let st := runActions oneNodeParser
              [InputChange (js "a b"); SetDirected DIRECTED; ClearGraph;
               InputChange (js "a a")] initialState in
  derived oneNodeParser st
  /\ nodes st = [] /\ links st = [] /\ adjList st = [].
Proof.
  destruct (manager_state_is_derived oneNodeParser
              [InputChange (js "a b"); SetDirected DIRECTED; ClearGraph;
               InputChange (js "a a")]) as (Hd & Hbad & _).
  split; [exact Hd | exact (Hbad eq_refl)].
Defined.

(* ================================================================== *)
(** * When [canRunAlgorithm] accepts                                   *)
(* ================================================================== *)

Section WhenAccepted.

Ltac by_kind :=
  repeat match goal with
         | |- context [streq ?a ?b] =>
             let E := fresh "E" in
             destruct (streq a b) eqn:E;
             [apply streq_true in E | apply streq_false in E]
         end.

Lemma noSource_false (src : option jsstring) :
  noSource src = false <-> exists s, src = Some s /\ s <> [].
Proof.
  destruct src as [s|]; simpl.
  - rewrite negb_false_iff, nonEmpty_true. split.
    + intros H. now exists s.
    + now intros (s' & [= <-] & H).
  - split; [discriminate | now intros (s & H & _)].
Qed.

(** X11.  [canRunAlgorithm] accepts exactly when the graph is valid and has
    nodes and the kind's own requirement holds: a source that is a node for
    'dfs', 'bfs' and 'dijkstra'; a directed graph for 'scc'; an undirected,
    weighted graph for 'prims' and 'kruskals'; nothing more for any other
    kind.  A reason is given exactly when it does not accept. *)
Theorem canRunAlgorithm_accepts_iff :
  forall (st : GraphState) (kind : jsstring) (src : option jsstring),
    (canRun (canRunAlgorithm st kind src) = true
     <-> (isValidGraph st = true
          /\ nodes st <> []
          /\ (needsSource kind ->
              exists s, src = Some s /\ s <> []
                        /\ In s (List.map id (nodes st)))
          /\ (kind = js "scc" -> isDirected st = true)
          /\ (isMST kind -> isDirected st = false /\ isWeighted st = true)))
    /\ (reason (canRunAlgorithm st kind src) = None
        <-> canRun (canRunAlgorithm st kind src) = true).
Proof.
  intros st kind src. unfold canRunAlgorithm.
  destruct (isValidGraph st) eqn:Hv; simpl;
    [|split; split; try discriminate; now intros (H & _)].
  destruct (Nat.eqb (List.length (nodes st)) 0) eqn:Hlen.
  { apply Nat.eqb_eq, length_zero_iff_nil in Hlen.
    split; split; try discriminate. now intros (_ & H & _). }
  assert (Hnodes : nodes st <> []).
  { intros E. rewrite E in Hlen. discriminate. }
  destruct (streq kind (js "dfs") || streq kind (js "bfs")
            || streq kind (js "dijkstra")) eqn:Ksrc.
  - assert (Hk : needsSource kind).
    { unfold needsSource. apply orb_true_iff in Ksrc.
      destruct Ksrc as [Ksrc | Ksrc];
        [apply orb_true_iff in Ksrc; destruct Ksrc as [K | K]|];
        apply streq_true in Ksrc || apply streq_true in K; auto. }
    assert (Hscc : kind <> js "scc").
    { destruct Hk as [-> | [-> | ->]]; discriminate. }
    assert (Hmst : ~ isMST kind).
    { destruct Hk as [-> | [-> | ->]]; intros [H | H]; discriminate. }
    destruct (noSource src) eqn:Hs; simpl.
    + split; split; try discriminate.
      intros (_ & _ & H & _). destruct (H Hk) as (s & -> & Hs' & _).
      simpl in Hs. apply nonEmpty_true in Hs'. rewrite Hs' in Hs.
      discriminate.
    + apply noSource_false in Hs. destruct Hs as (s & -> & Hs).
      destruct (hasNode (nodes st) (Some s)) eqn:Hh; simpl.
      * apply hasNode_In in Hh. split; split; auto.
        intros _. repeat split; auto; try contradiction. eauto.
      * split; split; try discriminate.
        intros (_ & _ & H & _). destruct (H Hk) as (s' & [= <-] & _ & Hin).
        apply hasNode_In in Hin. congruence.
  - assert (Hk : ~ needsSource kind).
    { intros [-> | [-> | ->]]; discriminate. }
    destruct (streq kind (js "scc")) eqn:Kscc.
    + apply streq_true in Kscc. subst kind.
      destruct (isDirected st) eqn:Hd; simpl.
      * split; [split; [|reflexivity] | split; reflexivity].
        intros _. repeat split; auto; try contradiction;
          match goal with M : isMST _ |- _ => destruct M; discriminate end.
      * split; split; try discriminate.
        intros (_ & _ & _ & D & _). now specialize (D eq_refl).
    + apply streq_false in Kscc.
      destruct (streq kind (js "prims") || streq kind (js "kruskals"))
        eqn:Kmst.
      * assert (Hm : isMST kind).
        { unfold isMST. apply orb_true_iff in Kmst.
          destruct Kmst as [K | K]; apply streq_true in K; auto. }
        destruct (isDirected st) eqn:Hd; simpl.
        -- split; split; try discriminate.
           intros (_ & _ & _ & _ & D). now destruct (D Hm).
        -- destruct (isWeighted st) eqn:Hw; simpl.
           ++ split; [split; [|reflexivity] | split; reflexivity].
              intros _. repeat split; auto; contradiction.
           ++ split; split; try discriminate.
              intros (_ & _ & _ & _ & D). now destruct (D Hm).
      * assert (Hm : ~ isMST kind).
        { intros [-> | ->]; discriminate. }
        split; [split; [|reflexivity] | split; reflexivity].
        intros _. repeat split; auto; contradiction.
Qed.

End WhenAccepted.

(** Breadth-first search from [A] is accepted on the triangle, so [A] is
    one of its nodes. *)
Lemma canRunAlgorithm_accepts_iff_witness :
  exists s, Some (js "A") = Some s /\ s <> []
            /\ In s (List.map id (nodes triangle)).
Proof.
  destruct (proj1 (proj1 (canRunAlgorithm_accepts_iff triangle (js "bfs")
                            (Some (js "A"))))
              eq_refl) as (_ & _ & Hsrc & _).
  exact (Hsrc (or_intror (or_introl eq_refl))).
Defined.

(* ================================================================== *)
(** * Runs of the controller, one after the other                      *)
(* ================================================================== *)

Section RunStates.

Lemma or_else_generic_truthy (v : jsvalue) :
  truthy (or_else v (VString ALGORITHM_ERROR)) = true.
Proof.
  unfold or_else. destruct (truthy v) eqn:E; [exact E | reflexivity].
Qed.

Lemma settled_state (options : Options) (c : Completion jsvalue) st2 :
  let final := snd (settle options c st2) in
  isRunning final = false /\ speedrunRef final = [].
Proof.
  rewrite settle_spec. simpl.
  destruct c as [v|e]; [destruct (truthy v)|]; now split.
Qed.

(** X12.  Every run starts from a clean slate.  A call that passes the
    guard (the [isRunning] its callback tests is false) shows the algorithm
    nothing of the earlier state but the speed signal; and once a call has
    completed, the next call behaves as on a freshly created hook, whatever
    the earlier algorithm returned, threw or did to the state. *)
Theorem executeAlgorithm_starts_clean :
  (forall (g : M jsvalue) (options : Options) (st st' : ExecState),
     speedrunRef st = speedrunRef st' ->
     executeAlgorithm false g options st
     = executeAlgorithm false g options st')
  /\ (forall (f g : M jsvalue) (o1 o2 : Options) (st : ExecState),
        executeAlgorithm false g o2 (snd (executeAlgorithm false f o1 st))
        = executeAlgorithm false g o2 initialExec).
Proof.
  assert (Hsame : forall g options st st',
             speedrunRef st = speedrunRef st' ->
             executeAlgorithm false g options st
             = executeAlgorithm false g options st').
  { intros g options st st' Hs.
    rewrite (executeAlgorithm_idle g options st).
    rewrite (executeAlgorithm_idle g options st').
    unfold entered. now rewrite Hs. }
  split; [exact Hsame|].
  intros f g o1 o2 st.
  rewrite (executeAlgorithm_idle f o1 st).
  destruct (f (entered st)) as [c st2].
  destruct (settled_state o1 c st2) as [Hr Hs].
  apply Hsame. exact Hs.
Qed.

(** X13.  [reset] does not cancel a run.  When an algorithm is awaited and
    [reset] is called, the completion of that algorithm still lands in the
    hook afterwards: the state is then the one its outcome writes onto a
    fresh hook, so a truthy result shows up with resultReady set although
    the hook had been reset. *)
Theorem reset_does_not_cancel :
  forall (m : Machine) (options : Options) (rest : list Options)
         (c : Completion jsvalue),
    inFlight m = options :: rest ->
    let m' := step (step m Reset) (Settle c) in
    hook m' = snd (settle options c initialExec)
    /\ inFlight m' = rest
    /\ (forall v, c = Normal v -> truthy v = true ->
          result (hook m') = v /\ resultReady (hook m') = true)
    /\ (forall e, c = Throw e -> truthy (error (hook m')) = true).
Proof.
  intros m options rest c Hin m'. subst m'.
  simpl. rewrite Hin. simpl.
  split; [reflexivity | split; [reflexivity | split]].
  - intros v -> Hv. unfold exec. rewrite settle_spec. simpl.
    rewrite Hv. now split.
  - intros e ->. unfold exec. rewrite settle_spec. simpl.
    apply or_else_generic_truthy.
Qed.

(** X14.  For an algorithm that leaves the hook alone and a call that
    passes the guard, the state after the call tells the outcome: the error is truthy exactly when the algorithm
    threw (also when options.errorMessage is the empty string, since the
    generic message then stands in), resultReady is set exactly when it
    returned a truthy value, and the two never hold together. *)
Theorem outcome_is_readable_from_state :
  forall (c : Completion jsvalue) (options : Options) (st : ExecState),
    let final :=
      snd (executeAlgorithm false (fun s => (c, s)) options st) in
    (truthy (error final) = true <-> exists e, c = Throw e)
    /\ (resultReady final = true
        <-> exists v, c = Normal v /\ truthy v = true)
    /\ (resultReady final = true -> truthy (error final) = false).
Proof.
  intros c options st final. subst final.
  rewrite (executeAlgorithm_idle _ options st).
  rewrite settle_spec. simpl.
  destruct c as [v | e]; [destruct (truthy v) eqn:Hv|]; simpl.
  - repeat split; try discriminate; eauto.
    now intros (e & He).
  - repeat split; try discriminate.
    + now intros (e & He).
    + intros (v' & [= <-] & Hv'). congruence.
  - rewrite or_else_generic_truthy. repeat split; try discriminate; eauto.
    now intros (v & Hc & _).
Qed.

End RunStates.

(** A run after a failed run is a run from the initial state. *)
Lemma executeAlgorithm_starts_clean_witness :
  executeAlgorithm false returnsUndefined noOptions
    (snd (executeAlgorithm false throwsError noOptions initialExec))
  = executeAlgorithm false returnsUndefined noOptions initialExec.
Proof.
  exact (proj2 executeAlgorithm_starts_clean throwsError returnsUndefined
           noOptions noOptions initialExec).
Defined.

(** A run is started, [reset] is called, and then the algorithm returns
    [true]: the result is published all the same. *)
Lemma reset_does_not_cancel_witness :
  let m' := step (step (step initialMachine (Invoke noOptions)) Reset)
                 (Settle (Normal (VBool true))) in
  result (hook m') = VBool true /\ resultReady (hook m') = true.
Proof.
  destruct (reset_does_not_cancel (step initialMachine (Invoke noOptions))
              noOptions [] (Normal (VBool true)) eq_refl)
    as (_ & _ & H & _).
  exact (H (VBool true) eq_refl eq_refl).
Defined.

(** An algorithm that throws leaves an error message. *)
Lemma outcome_is_readable_from_state_witness :
  truthy (error (snd (executeAlgorithm false
                        (fun s => (Throw (VString (js "boom")), s))
                        noOptions initialExec))) = true.
Proof.
  destruct (outcome_is_readable_from_state (Throw (VString (js "boom")))
              noOptions initialExec) as (H & _).
  exact (proj2 H (ex_intro _ (VString (js "boom")) eq_refl)).
Defined.

(* ================================================================== *)
(** * [debounce] and [throttle]                                        *)
(* ================================================================== *)

Section DebounceThrottle.

Import Timing.

Context {Args : Type}.

Lemma debounceStep_agree (st : Debounced Args) sp (ev : Event Args) :
  debounceAgree st sp ->
  debounceAgree (debounceStep st ev) (debounceSpecStep sp ev).
Proof.
  destruct st as [tm [nid pend] calls], sp as [armed log].
  unfold debounceAgree. simpl. intros [-> Hp].
  destruct ev as [a'|]; simpl.
  - split; [reflexivity|].
    destruct armed as [a|].
    + destruct Hp as (id & -> & ->). simpl.
      rewrite Nat.eqb_refl. simpl. eauto.
    + subst pend. destruct tm; simpl; eauto.
  - destruct armed as [a|].
    + destruct Hp as (id & -> & ->). simpl. now split.
    + subst pend. simpl. now split.
Qed.

Lemma debounce_agree (trace : list (Event Args)) :
  forall st sp,
    debounceAgree st sp ->
    debounceAgree (fold_left debounceStep trace st)
                  (fold_left debounceSpecStep trace sp).
Proof.
  induction trace as [|ev trace IH]; intros st sp H; simpl; [exact H|].
  apply IH. now apply debounceStep_agree.
Qed.

Lemma debounceSpec_burst (trace : list (Event Args)) (burst : list Args)
    (last : Args) :
  snd (debounceSpec (trace ++ List.map Call burst ++ [Call last; Fire]))
  = snd (debounceSpec trace) ++ [last].
Proof.
  unfold debounceSpec. rewrite !fold_left_app. simpl.
  generalize (fold_left debounceSpecStep trace (@None Args, [])).
  induction burst as [|a burst IH]; intros sp; simpl; [reflexivity|].
  now rewrite IH.
Qed.

(** X15.  A debounced function never has more than one timer pending, and
    it calls [func] only when the timer runs, with the arguments of the
    latest call: of a burst of calls followed by the timer, whatever came
    before, only the last call of the burst reaches [func], once; and a
    timer run with no call before it does nothing. *)
Theorem debounce_passes_last_call_once :
  forall trace : list (Event Args),
    let st := debounceRun trace in
    funcCalls st = snd (debounceSpec trace)
    /\ (List.length (pending (timers st)) <= 1)%nat
    /\ (forall (burst : list Args) (last : Args),
          funcCalls
            (debounceRun (trace ++ List.map Call burst ++ [Call last; Fire]))
          = funcCalls st ++ [last])
    /\ funcCalls (debounceRun (trace ++ [Fire; Fire]))
       = funcCalls (debounceRun (trace ++ [Fire])).
Proof.
  assert (Hrun : forall tr : list (Event Args),
             debounceAgree (debounceRun tr) (debounceSpec tr)).
  { intros tr. apply debounce_agree. now split. }
  intros trace st. subst st.
  destruct (Hrun trace) as [Hcalls Hp].
  split; [exact Hcalls | split; [|split]].
  - destruct (fst (debounceSpec trace)).
    + destruct Hp as (id & -> & _). simpl. lia.
    + rewrite Hp. simpl. lia.
  - intros burst last.
    rewrite (proj1 (Hrun _)), debounceSpec_burst. now rewrite Hcalls.
  - rewrite (proj1 (Hrun _)), (proj1 (Hrun _)).
    unfold debounceSpec. rewrite !fold_left_app. simpl.
    destruct (fold_left debounceSpecStep trace (None, [])) as [[a|] log];
      reflexivity.
Qed.

Variable throws : Args -> bool.

Lemma throttleStep_agree (st : Throttled Args) sp (ev : Event Args) :
  throttleAgree st sp ->
  throttleAgree (throttleStep throws st ev) (throttleSpecStep throws sp ev).
Proof.
  destruct st as [busy [nid pend] calls], sp as [shut log].
  unfold throttleAgree. simpl. intros (-> & -> & Hp).
  destruct ev as [a|]; simpl.
  - unfold throttledCall. simpl. destruct shut; simpl.
    + now repeat split.
    + subst pend. destruct (throws a); simpl; repeat split; eauto.
  - unfold throttledFire. simpl. destruct shut.
    + destruct Hp as (id & ->). simpl. now repeat split.
    + subst pend. now repeat split.
Qed.

Lemma throttle_agree (trace : list (Event Args)) :
  forall st sp,
    throttleAgree st sp ->
    throttleAgree (fold_left (throttleStep throws) trace st)
                  (fold_left (throttleSpecStep throws) trace sp).
Proof.
  induction trace as [|ev trace IH]; intros st sp H; simpl; [exact H|].
  apply IH. now apply throttleStep_agree.
Qed.


End DebounceThrottle.


(* ================================================================== *)
(** * [deepClone]                                                      *)
(* ================================================================== *)

Section CloneFacts.

Import Cloning.

(** Induction on trees, with the hypothesis for every element. *)
Lemma Tree_nested_ind (P : Tree -> Prop) :
  (forall v, P (TValue v)) ->
  (forall time, P (TDate time)) ->
  (forall ts, Forall P ts -> P (TArray ts)) ->
  (forall tps, Forall (fun kt => P (snd kt)) tps -> P (TPlain tps)) ->
  forall t, P t.
Proof.
  intros HV HD HA HP.
  fix IH 1. intros [v | time | ts | tps].
  - apply HV.
  - apply HD.
  - apply HA. induction ts as [|t ts IHts]; constructor; [apply IH | exact IHts].
  - apply HP. induction tps as [|[k t] tps IHtps]; constructor;
      [apply IH | exact IHtps].
Qed.

Lemma unfolds_array (lo : N) (h : Heap) ts v :
  unfolds lo h (TArray ts) v
  <-> exists a items,
        v = VObject a /\ lo <= a /\ lookup h a = Some (OArray items)
        /\ Forall2 (unfolds lo h) ts items.
Proof.
  simpl. split; intros (a & items & Hv & Hlo & Hl & He);
    exists a, items; repeat split; auto; clear Hl.
  - revert items He. induction ts as [|t ts IH]; intros [|i items] He;
      try contradiction; constructor; [tauto | apply IH; tauto].
  - induction He; [exact I | now split].
Qed.

Lemma unfolds_plain (lo : N) (h : Heap) tps v :
  unfolds lo h (TPlain tps) v
  <-> exists a props,
        v = VObject a /\ lo <= a /\ lookup h a = Some (OPlain props)
        /\ Forall2 (fun kt kv => fst kt = fst kv
                                 /\ unfolds lo h (snd kt) (snd kv))
                   tps props.
Proof.
  simpl. split; intros (a & props & Hv & Hlo & Hl & He);
    exists a, props; repeat split; auto; clear Hl.
  - revert props He.
    induction tps as [|[k t] tps IH]; intros [|[key value] props] He;
      try contradiction; constructor; [simpl; tauto | apply IH; tauto].
  - induction He as [|[k t] [key value] tps props [Hk Ht] _ IH];
      [exact I | simpl in *; now repeat split].
Qed.

(** A tree read off one heap can be read off any heap that has the same
    objects from [lo] on. *)
Lemma unfolds_transfer (lo : N) (h h' : Heap) :
  (forall a o, lo <= a -> lookup h a = Some o -> lookup h' a = Some o) ->
  forall t v, unfolds lo h t v -> unfolds lo h' t v.
Proof.
  intros Hsame t. induction t as [p | time | ts IH | tps IH]
    using Tree_nested_ind; intros v.
  - exact (fun H => H).
  - intros (a & Hv & Hlo & Hl). exists a. auto.
  - rewrite !unfolds_array. intros (a & items & Hv & Hlo & Hl & He).
    exists a, items. repeat split; auto.
    clear Hl. induction He as [|t i ts items Hti _ IHe]; constructor.
    + inversion IH; subst. auto.
    + inversion IH; subst. auto.
  - rewrite !unfolds_plain. intros (a & props & Hv & Hlo & Hl & He).
    exists a, props. repeat split; auto.
    clear Hl. induction He as [|kt kv tps props [Hk Ht] _ IHe]; constructor.
    + inversion IH; subst. auto.
    + inversion IH; subst. auto.
Qed.

Lemma unfolds_weaken (lo lo' : N) (h : Heap) :
  lo' <= lo -> forall t v, unfolds lo h t v -> unfolds lo' h t v.
Proof.
  intros Hle t. induction t as [p | time | ts IH | tps IH]
    using Tree_nested_ind; intros v.
  - exact (fun H => H).
  - intros (a & Hv & Hlo & Hl). exists a. repeat split; auto. lia.
  - rewrite !unfolds_array. intros (a & items & Hv & Hlo & Hl & He).
    exists a, items. repeat split; auto; [lia|].
    clear Hl. induction He as [|t i ts items Hti _ IHe]; constructor.
    + inversion IH; subst. auto.
    + inversion IH; subst. auto.
  - rewrite !unfolds_plain. intros (a & props & Hv & Hlo & Hl & He).
    exists a, props. repeat split; auto; [lia|].
    clear Hl. induction He as [|kt kv tps props [Hk Ht] _ IHe]; constructor.
    + inversion IH; subst. auto.
    + inversion IH; subst. auto.
Qed.

(** ** The heap *)

Lemma lookup_lt (h : Heap) a o :
  lookup h a = Some o -> (N.to_nat a < List.length h)%nat.
Proof.
  unfold lookup. intros H. apply nth_error_Some. congruence.
Qed.

Lemma keeps_app (h ext : Heap) : keeps h (h ++ ext).
Proof.
  intros a o H. unfold lookup in *.
  rewrite nth_error_app1; [exact H | exact (lookup_lt h a o H)].
Qed.

Lemma lookup_fresh (h : Heap) o : lookup (h ++ [o]) (fresh h) = Some o.
Proof.
  unfold lookup, fresh. rewrite Nat2N.id, nth_error_app2, Nat.sub_diag; auto.
Qed.

Lemma fresh_to_nat (h : Heap) : N.to_nat (fresh h) = List.length h.
Proof. apply Nat2N.id. Qed.

Lemma nth_error_update {A} (o : A) :
  forall (l : list A) (n m : nat),
    (n < List.length l)%nat ->
    nth_error (firstn n l ++ o :: skipn (S n) l) m
    = if Nat.eqb m n then Some o else nth_error l m.
Proof.
  induction l as [|x l IH]; intros n m Hn; [simpl in Hn; lia|].
  destruct n as [|n]; destruct m as [|m]; simpl; try reflexivity.
  apply IH. simpl in Hn. lia.
Qed.

Lemma store_same (h : Heap) a o :
  (N.to_nat a < List.length h)%nat -> lookup (store h a o) a = Some o.
Proof.
  intros Ha. unfold lookup, store.
  rewrite nth_error_update, Nat.eqb_refl; auto.
Qed.

Lemma store_other (h : Heap) a b o :
  (N.to_nat a < List.length h)%nat -> a <> b ->
  lookup (store h a o) b = lookup h b.
Proof.
  intros Ha Hab. unfold lookup, store.
  rewrite nth_error_update by exact Ha.
  destruct (Nat.eqb_spec (N.to_nat b) (N.to_nat a)) as [E|_]; [|reflexivity].
  exfalso. apply Hab. symmetry. now apply N2Nat.inj.
Qed.

Lemma store_length (h : Heap) a o :
  (N.to_nat a < List.length h)%nat ->
  List.length (store h a o) = List.length h.
Proof.
  intros Ha. unfold store.
  rewrite length_app, firstn_length_le by lia.
  change (List.length (o :: skipn (S (N.to_nat a)) h))
    with (S (List.length (skipn (S (N.to_nat a)) h))).
  rewrite length_skipn. lia.
Qed.

Lemma keeps_trans (h1 h2 h3 : Heap) : keeps h1 h2 -> keeps h2 h3 -> keeps h1 h3.
Proof. intros H12 H23 a o H. auto. Qed.

(** Filling in the clone at [a'] changes no object of a heap that ended
    before [a']. *)
Lemma keeps_store (h0 h1 : Heap) a' o :
  (List.length h0 <= N.to_nat a')%nat ->
  (N.to_nat a' < List.length h1)%nat ->
  keeps h0 h1 -> keeps h0 (store h1 a' o).
Proof.
  intros H0 H1 K a x Ha.
  rewrite store_other; auto.
  intros ->. apply lookup_lt in Ha. lia.
Qed.

Lemma unfolds_keeps (lo : N) (h h' : Heap) t v :
  keeps h h' -> unfolds lo h t v -> unfolds lo h' t v.
Proof. intros K. apply unfolds_transfer. intros a o _. apply K. Qed.

Lemma unfolds_store (h : Heap) a' o t v :
  (N.to_nat a' < List.length h)%nat ->
  unfolds (a' + 1) h t v -> unfolds (a' + 1) (store h a' o) t v.
Proof.
  intros Ha. apply unfolds_transfer. intros a x Hlo Hl.
  rewrite store_other; auto. lia.
Qed.

(** ** The two loops *)

Lemma cloneItems_ok (rec : Heap -> jsvalue -> Result) (h0 : Heap) (a' : N) :
  (List.length h0 <= N.to_nat a')%nat ->
  forall ttodo todo,
    Forall2 (unfolds 0 h0) ttodo todo ->
    Forall (clonesWell rec) ttodo ->
    forall tdone done hc,
      keeps h0 hc ->
      lookup hc a' = Some (OArray done) ->
      Forall2 (unfolds (a' + 1) hc) tdone done ->
      exists h' items',
        cloneItems rec a' todo done hc = Done (VObject a') h'
        /\ lookup h' a' = Some (OArray items')
        /\ Forall2 (unfolds (a' + 1) h') (tdone ++ ttodo) items'
        /\ keeps h0 h'
        /\ (List.length hc <= List.length h')%nat.
Proof.
  intros H0 ttodo todo Htodo.
  induction Htodo as [|t item ttodo todo Hti _ IH];
    intros Hrec tdone done hc K Hl Hdone.
  - exists hc, done. rewrite app_nil_r. simpl. auto.
  - inversion Hrec as [|? ? Ht Hrest]; subst.
    destruct (Ht hc item (unfolds_keeps _ _ _ _ _ K Hti))
      as (v' & h1 & Hcall & Hv' & K1 & Hlen).
    simpl. rewrite Hcall.
    pose proof (lookup_lt _ _ _ Hl) as Hlt.
    assert (Hlt1 : (N.to_nat a' < List.length h1)%nat) by lia.
    destruct (IH Hrest (tdone ++ [t]) (done ++ [v'])
                 (store h1 a' (OArray (done ++ [v']))))
      as (h' & items' & Hrun & Hl' & Hall & K' & Hlen').
    + apply keeps_store; auto. exact (keeps_trans _ _ _ K K1).
    + now apply store_same.
    + apply Forall2_app.
      * eapply Forall2_impl; [|exact Hdone].
        intros t0 v0 H. apply unfolds_store; auto.
        exact (unfolds_keeps _ _ _ _ _ K1 H).
      * constructor; [|constructor].
        apply unfolds_store; auto.
        apply (unfolds_weaken (fresh hc)); auto.
        unfold fresh. lia.
    + exists h', items'. rewrite <- app_assoc in Hall. simpl in Hall.
      rewrite store_length in Hlen' by exact Hlt1.
      repeat split; auto. lia.
Qed.

Lemma assign_plain (done : list (jsstring * jsvalue)) key value :
  reserved key = false ->
  assign (OPlain done) key value = OPlain (done ++ [(key, value)]).
Proof.
  unfold reserved. intros H. apply orb_false_iff in H. simpl.
  now rewrite (proj2 H).
Qed.

Lemma cloneProps_ok (rec : Heap -> jsvalue -> Result) (h0 : Heap) (a' : N) :
  (List.length h0 <= N.to_nat a')%nat ->
  forall ttodo todo,
    Forall2 (fun kt kv => fst kt = fst kv /\ unfolds 0 h0 (snd kt) (snd kv))
            ttodo todo ->
    Forall (fun kt => reserved (fst kt) = false /\ clonesWell rec (snd kt))
           ttodo ->
    forall tdone done hc,
      keeps h0 hc ->
      lookup hc a' = Some (OPlain done) ->
      Forall2 (fun kt kv => fst kt = fst kv
                            /\ unfolds (a' + 1) hc (snd kt) (snd kv))
              tdone done ->
      exists h' props',
        cloneProps rec true a' todo (OPlain done) hc = Done (VObject a') h'
        /\ lookup h' a' = Some (OPlain props')
        /\ Forall2 (fun kt kv => fst kt = fst kv
                                 /\ unfolds (a' + 1) h' (snd kt) (snd kv))
                   (tdone ++ ttodo) props'
        /\ keeps h0 h'
        /\ (List.length hc <= List.length h')%nat.
Proof.
  intros H0 ttodo todo Htodo.
  induction Htodo as [|[k t] [key value] ttodo todo [Hk Hti] _ IH];
    intros Hrec tdone done hc K Hl Hdone.
  - exists hc, done. rewrite app_nil_r. simpl. auto.
  - simpl in Hk, Hti. subst key.
    inversion Hrec as [|? ? [Hres Ht] Hrest]; subst. simpl in Hres, Ht.
    destruct (Ht hc value (unfolds_keeps _ _ _ _ _ K Hti))
      as (v' & h1 & Hcall & Hv' & K1 & Hlen).
    cbn [cloneProps]. rewrite Hcall. cbv zeta.
    rewrite (assign_plain done k v' Hres).
    pose proof (lookup_lt _ _ _ Hl) as Hlt.
    assert (Hlt1 : (N.to_nat a' < List.length h1)%nat) by lia.
    destruct (IH Hrest (tdone ++ [(k, t)]) (done ++ [(k, v')])
                 (store h1 a' (OPlain (done ++ [(k, v')]))))
      as (h' & props' & Hrun & Hl' & Hall & K' & Hlen').
    + apply keeps_store; auto. exact (keeps_trans _ _ _ K K1).
    + now apply store_same.
    + apply Forall2_app.
      * eapply Forall2_impl; [|exact Hdone].
        intros kt kv [E H]. split; [exact E|]. apply unfolds_store; auto.
        exact (unfolds_keeps _ _ _ _ _ K1 H).
      * constructor; [|constructor]. split; [reflexivity|]. simpl.
        apply unfolds_store; auto.
        apply (unfolds_weaken (fresh hc)); auto.
        unfold fresh. lia.
    + exists h', props'. rewrite <- app_assoc in Hall. simpl in Hall.
      rewrite store_length in Hlen' by exact Hlt1.
      repeat split; auto. lia.
Qed.

(** Objects that unfold to a tree with plain keys have no property named
    [hasOwnProperty]. *)
Lemma plainKeys_ownKey (P : Tree -> jsvalue -> Prop) tps
    (props : list (jsstring * jsvalue)) :
  Forall2 (fun kt kv => fst kt = fst kv /\ P (snd kt) (snd kv)) tps props ->
  forallb (fun kt => negb (reserved (fst kt)) && plainKeys (snd kt)) tps
  = true ->
  ownKey (js "hasOwnProperty") props = false.
Proof.
  induction 1 as [|[k t] [key value] tps props [Hk _] _ IH]; simpl;
    [reflexivity|].
  intros H. apply andb_true_iff in H. destruct H as [H Hrest].
  apply andb_true_iff in H. destruct H as [H _].
  apply negb_true_iff in H. unfold reserved in H.
  apply orb_false_iff in H. simpl in Hk. subst key.
  rewrite (proj1 H). simpl. now apply IH.
Qed.

Lemma nesting_item t ts :
  In t ts ->
  (nesting t <= fold_right (fun t m => Nat.max (nesting t) m) 0 ts)%nat.
Proof.
  induction ts as [|x ts IH]; intros []; simpl.
  - subst. lia.
  - specialize (IH H). lia.
Qed.

Lemma nesting_prop (kt : jsstring * Tree) tps :
  In kt tps ->
  (nesting (snd kt)
   <= fold_right (fun kt m => Nat.max (nesting (snd kt)) m) 0 tps)%nat.
Proof.
  induction tps as [|x tps IH]; intros []; simpl.
  - subst. lia.
  - specialize (IH H). lia.
Qed.

Lemma deepClone_clonesWell :
  forall depth t,
    (nesting t < depth)%nat -> plainKeys t = true ->
    clonesWell (deepClone depth) t.
Proof.
  induction depth as [|depth IH]; intros t Hn Hkeys; [lia|].
  intros h v Hu. destruct t as [p | time | ts | tps].
  - destruct Hu as [-> Hp]. exists p, h. simpl.
    repeat split; auto; try (intros a o H; exact H).
    destruct p; try reflexivity; discriminate.
  - destruct Hu as (a & -> & _ & Hl).
    exists (VObject (fresh h)), (h ++ [ODate time]). simpl. rewrite Hl.
    repeat split.
    + exists (fresh h). repeat split; [lia | apply lookup_fresh].
    + apply keeps_app.
    + rewrite length_app. lia.
  - apply unfolds_array in Hu. destruct Hu as (a & items & -> & _ & Hl & He).
    simpl. rewrite Hl.
    destruct (cloneItems_ok (deepClone depth) h (fresh h)) with
      (ttodo := ts) (todo := items) (tdone := @nil Tree)
      (done := @nil jsvalue) (hc := h ++ [OArray []])
      as (h' & items' & Hrun & Hl' & Hall & K' & Hlen').
    + rewrite fresh_to_nat. lia.
    + exact He.
    + apply Forall_forall. intros t Ht. apply IH.
      * pose proof (nesting_item t ts Ht). simpl in Hn. lia.
      * simpl in Hkeys. rewrite forallb_forall in Hkeys. now apply Hkeys.
    + apply keeps_app.
    + apply lookup_fresh.
    + constructor.
    + exists (VObject (fresh h)), h'. rewrite length_app in Hlen'.
      simpl in Hlen'. repeat split; auto; [|lia].
      apply unfolds_array. exists (fresh h), items'.
      repeat split; auto; [lia|].
      eapply Forall2_impl; [|exact Hall].
      intros t0 v0. apply unfolds_weaken. lia.
  - apply unfolds_plain in Hu. destruct Hu as (a & props & -> & _ & Hl & He).
    cbn [deepClone cloneBody]. rewrite Hl.
    cbn [inheritsHasOwnProperty]. simpl in Hkeys.
    rewrite (plainKeys_ownKey _ tps props He Hkeys). cbn [negb].
    destruct (cloneProps_ok (deepClone depth) h (fresh h)) with
      (ttodo := tps) (todo := props) (tdone := @nil (jsstring * Tree))
      (done := @nil (jsstring * jsvalue)) (hc := h ++ [OPlain []])
      as (h' & props' & Hrun & Hl' & Hall & K' & Hlen').
    + rewrite fresh_to_nat. lia.
    + exact He.
    + apply Forall_forall. intros kt Ht.
      rewrite forallb_forall in Hkeys. specialize (Hkeys kt Ht).
      apply andb_true_iff in Hkeys. destruct Hkeys as [Hres Hsub].
      apply negb_true_iff in Hres. split; [exact Hres|].
      apply IH; [|exact Hsub].
      pose proof (nesting_prop kt tps Ht). simpl in Hn. lia.
    + apply keeps_app.
    + apply lookup_fresh.
    + constructor.
    + exists (VObject (fresh h)), h'. rewrite length_app in Hlen'.
      simpl in Hlen'. repeat split; auto; [|lia].
      apply unfolds_plain. exists (fresh h), props'.
      repeat split; auto; [lia|].
      eapply Forall2_impl; [|exact Hall].
      intros kt kv [E H]. split; [exact E|].
      revert H. apply unfolds_weaken. lia.
Qed.

(** ** Heaps of any shape *)

Lemma keeps_length (h h' : Heap) :
  keeps h h' -> (List.length h <= List.length h')%nat.
Proof.
  intros K. destruct (Nat.le_gt_cases (List.length h) (List.length h'))
    as [Hle | Hgt]; [exact Hle | exfalso].
  destruct (nth_error h (List.length h')) as [o|] eqn:E.
  - specialize (K (N.of_nat (List.length h')) o).
    unfold lookup in K. rewrite Nat2N.id in K.
    specialize (K E).
    assert (List.length h' < List.length h')%nat; [|lia].
    apply nth_error_Some. congruence.
  - apply nth_error_None in E. lia.
Qed.

Lemma cloneItems_keeps (rec : Heap -> jsvalue -> Result) (h0 : Heap) a' :
  (forall h v v' h', rec h v = Done v' h' -> keeps h h') ->
  (List.length h0 <= N.to_nat a')%nat ->
  forall todo done hc v' h',
    keeps h0 hc -> (N.to_nat a' < List.length hc)%nat ->
    cloneItems rec a' todo done hc = Done v' h' ->
    keeps h0 h'.
Proof.
  intros Hrec H0. induction todo as [|item rest IH];
    intros done hc v' h' K Hlt; simpl.
  - intros [= _ <-]. exact K.
  - destruct (rec hc item) as [item' h1 | | | |] eqn:E; try discriminate.
    pose proof (Hrec _ _ _ _ E) as K1.
    pose proof (keeps_length _ _ K1) as L1.
    apply IH.
    + apply keeps_store; auto; [lia | exact (keeps_trans _ _ _ K K1)].
    + rewrite store_length; lia.
Qed.

Lemma cloneProps_keeps (rec : Heap -> jsvalue -> Result) (h0 : Heap) a'
    (callable : bool) :
  (forall h v v' h', rec h v = Done v' h' -> keeps h h') ->
  (List.length h0 <= N.to_nat a')%nat ->
  forall todo clonedObj hc v' h',
    keeps h0 hc -> (N.to_nat a' < List.length hc)%nat ->
    cloneProps rec callable a' todo clonedObj hc = Done v' h' ->
    keeps h0 h'.
Proof.
  intros Hrec H0. induction todo as [|[key value] rest IH];
    intros clonedObj hc v' h' K Hlt; simpl.
  - intros [= _ <-]. exact K.
  - destruct callable; [|discriminate].
    destruct (rec hc value) as [value' h1 | | | |] eqn:E; try discriminate.
    pose proof (Hrec _ _ _ _ E) as K1.
    pose proof (keeps_length _ _ K1) as L1.
    apply IH.
    + apply keeps_store; auto; [lia | exact (keeps_trans _ _ _ K K1)].
    + rewrite store_length; lia.
Qed.

Lemma deepClone_keeps :
  forall depth h v v' h', deepClone depth h v = Done v' h' -> keeps h h'.
Proof.
  induction depth as [|depth IH]; intros h v v' h'; [discriminate|].
  simpl. destruct v as [| |b|x|s|a]; try (intros [= _ <-]; intros a o H; exact H).
  unfold cloneBody.
  assert (Hprops : forall callable props,
             cloneProps (deepClone depth) callable (fresh h) props
                        (OPlain []) (h ++ [OPlain []]) = Done v' h' ->
             keeps h h').
  { intros callable props.
    apply (cloneProps_keeps _ h (fresh h) callable IH).
    - rewrite fresh_to_nat. lia.
    - apply keeps_app.
    - rewrite fresh_to_nat, length_app. simpl. lia. }
  destruct (lookup h a) as [[time | items | props | proto props]|] eqn:Hl;
    try discriminate.
  - intros [= _ <-]. apply keeps_app.
  - apply (cloneItems_keeps _ h (fresh h) IH).
    + rewrite fresh_to_nat. lia.
    + apply keeps_app.
    + rewrite fresh_to_nat, length_app. simpl. lia.
  - apply Hprops.
  - destruct proto; try discriminate. apply Hprops.
Qed.

(** ** Objects that reach themselves *)

Lemma reaches_then_child (h : Heap) a b c :
  reaches h a b -> child h b c -> reaches h a c.
Proof.
  induction 1 as [a b Hab | a b c' Hab _ IH]; intros Hc.
  - exact (reach_more h a b c Hab (reach_one h b c Hc)).
  - exact (reach_more h a b c Hab (IH Hc)).
Qed.

Lemma cycle_step (h : Heap) a :
  reaches h a a -> exists b, child h a b /\ reaches h b b.
Proof.
  intros H. inversion H as [? ? Hab | ? b ? Hab Hba]; subst.
  - exists a. auto.
  - exists b. split; [exact Hab|]. exact (reaches_then_child h b a b Hba Hab).
Qed.

Lemma cloneItems_stuck (rec : Heap -> jsvalue -> Result) (h0 : Heap) a' b :
  (forall h v v' h', rec h v = Done v' h' -> keeps h h') ->
  (forall hc v' h', keeps h0 hc -> rec hc (VObject b) <> Done v' h') ->
  (List.length h0 <= N.to_nat a')%nat ->
  forall todo done hc v' h',
    In (VObject b) todo ->
    keeps h0 hc -> (N.to_nat a' < List.length hc)%nat ->
    cloneItems rec a' todo done hc <> Done v' h'.
Proof.
  intros Hrec Hb H0. induction todo as [|item rest IH];
    intros done hc v' h' Hin K Hlt; [destruct Hin|]. simpl.
  destruct (rec hc item) as [item' h1 | | | |] eqn:E; try discriminate.
  destruct Hin as [-> | Hin]; [exfalso; exact (Hb _ _ _ K E)|].
  pose proof (Hrec _ _ _ _ E) as K1.
  pose proof (keeps_length _ _ K1) as L1.
  apply IH; auto.
  - apply keeps_store; auto; [lia | exact (keeps_trans _ _ _ K K1)].
  - rewrite store_length; lia.
Qed.

Lemma cloneProps_stuck (rec : Heap -> jsvalue -> Result) (h0 : Heap) a' b
    (callable : bool) :
  (forall h v v' h', rec h v = Done v' h' -> keeps h h') ->
  (forall hc v' h', keeps h0 hc -> rec hc (VObject b) <> Done v' h') ->
  (List.length h0 <= N.to_nat a')%nat ->
  forall todo clonedObj hc v' h',
    In (VObject b) (map snd todo) ->
    keeps h0 hc -> (N.to_nat a' < List.length hc)%nat ->
    cloneProps rec callable a' todo clonedObj hc <> Done v' h'.
Proof.
  intros Hrec Hb H0. induction todo as [|[key value] rest IH];
    intros clonedObj hc v' h' Hin K Hlt; [destruct Hin|]. simpl.
  destruct callable; [|discriminate].
  destruct (rec hc value) as [value' h1 | | | |] eqn:E; try discriminate.
  destruct Hin as [Hv | Hin];
    [simpl in Hv; subst value; exfalso; exact (Hb _ _ _ K E)|].
  pose proof (Hrec _ _ _ _ E) as K1.
  pose proof (keeps_length _ _ K1) as L1.
  apply IH; auto.
  - apply keeps_store; auto; [lia | exact (keeps_trans _ _ _ K K1)].
  - rewrite store_length; lia.
Qed.

Lemma deepClone_stuck (h : Heap) :
  forall depth a hc v' h',
    reaches h a a -> keeps h hc ->
    deepClone depth hc (VObject a) <> Done v' h'.
Proof.
  induction depth as [|depth IH]; intros a hc v' h' Hcyc K; [discriminate|].
  destruct (cycle_step h a Hcyc) as (b & (o & Hl & Hin) & Hb).
  simpl. rewrite (K _ _ Hl).
  pose proof (keeps_length _ _ K) as L.
  assert (Hprops : forall callable props,
             In (VObject b) (map snd props) ->
             cloneProps (deepClone depth) callable (fresh hc) props
                        (OPlain []) (hc ++ [OPlain []]) <> Done v' h').
  { intros callable props Hp.
    apply (cloneProps_stuck _ h (fresh hc) b callable (deepClone_keeps depth)).
    - intros hx vx hx' Kx. apply IH; auto.
    - rewrite fresh_to_nat. lia.
    - exact Hp.
    - exact (keeps_trans _ _ _ K (keeps_app hc _)).
    - rewrite fresh_to_nat, length_app. simpl. lia. }
  destruct o as [time | items | props | proto props]; simpl in Hin.
  - destruct Hin.
  - apply (cloneItems_stuck _ h (fresh hc) b (deepClone_keeps depth)).
    + intros hx vx hx' Kx. apply IH; auto.
    + rewrite fresh_to_nat. lia.
    + exact Hin.
    + exact (keeps_trans _ _ _ K (keeps_app hc _)).
    + rewrite fresh_to_nat, length_app. simpl. lia.
  - now apply Hprops.
  - destruct proto; try discriminate.
    destruct Hin as [Hin | Hin]; [discriminate|]. now apply Hprops.
Qed.

(** ** Heaps of dates, arrays and plain objects *)

Lemma cloneItems_runs (rec : Heap -> jsvalue -> Result) (h0 : Heap) (a' : N) :
  (forall h v v' h', rec h v = Done v' h' -> keeps h h') ->
  (forall v hc, valid h0 v -> keeps h0 hc ->
     rec hc v = StackOverflow \/ exists v' h', rec hc v = Done v' h') ->
  (List.length h0 <= N.to_nat a')%nat ->
  forall todo done hc,
    Forall (valid h0) todo ->
    keeps h0 hc -> (N.to_nat a' < List.length hc)%nat ->
    cloneItems rec a' todo done hc = StackOverflow
    \/ exists v' h', cloneItems rec a' todo done hc = Done v' h'.
Proof.
  intros Hkeeps Hrec H0. induction todo as [|item rest IH];
    intros done hc Htodo K Hlt; simpl.
  - right. eauto.
  - inversion Htodo as [|? ? Hitem Hrest]; subst.
    destruct (Hrec item hc Hitem K) as [-> | (v' & h1 & E)]; [now left|].
    rewrite E.
    pose proof (Hkeeps _ _ _ _ E) as K1.
    pose proof (keeps_length _ _ K1) as L1.
    apply IH; auto.
    + apply keeps_store; auto; [lia | exact (keeps_trans _ _ _ K K1)].
    + rewrite store_length; lia.
Qed.

Lemma cloneProps_runs (rec : Heap -> jsvalue -> Result) (h0 : Heap) (a' : N) :
  (forall h v v' h', rec h v = Done v' h' -> keeps h h') ->
  (forall v hc, valid h0 v -> keeps h0 hc ->
     rec hc v = StackOverflow \/ exists v' h', rec hc v = Done v' h') ->
  (List.length h0 <= N.to_nat a')%nat ->
  forall todo clonedObj hc,
    Forall (valid h0) (map snd todo) ->
    keeps h0 hc -> (N.to_nat a' < List.length hc)%nat ->
    cloneProps rec true a' todo clonedObj hc = StackOverflow
    \/ exists v' h', cloneProps rec true a' todo clonedObj hc = Done v' h'.
Proof.
  intros Hkeeps Hrec H0. induction todo as [|[key value] rest IH];
    intros clonedObj hc Htodo K Hlt; simpl.
  - right. eauto.
  - inversion Htodo as [|? ? Hitem Hrest]; subst.
    destruct (Hrec value hc Hitem K) as [-> | (v' & h1 & E)]; [now left|].
    rewrite E.
    pose proof (Hkeeps _ _ _ _ E) as K1.
    pose proof (keeps_length _ _ K1) as L1.
    apply IH; auto.
    + apply keeps_store; auto; [lia | exact (keeps_trans _ _ _ K K1)].
    + rewrite store_length; lia.
Qed.

(** On such a heap a call returns a clone or runs out of stack, nothing
    else. *)
Lemma deepClone_runs (h0 : Heap) :
  closed h0 -> ordinary h0 ->
  forall depth v hc,
    valid h0 v -> keeps h0 hc ->
    deepClone depth hc v = StackOverflow
    \/ exists v' h', deepClone depth hc v = Done v' h'.
Proof.
  intros C O. induction depth as [|depth IH]; intros v hc V K; [now left|].
  destruct v as [| |b|x|s|a]; try solve [right; simpl; eauto].
  simpl in V. simpl.
  destruct (lookup h0 a) as [o|] eqn:Hl;
    [|apply nth_error_None in Hl; lia].
  rewrite (K _ _ Hl).
  pose proof (C a o Hl) as Ho. pose proof (O a o Hl) as Hord.
  pose proof (keeps_length _ _ K) as L.
  destruct o as [time | items | props | proto props]; simpl in Ho, Hord.
  - right. eauto.
  - apply (cloneItems_runs _ h0 (fresh hc) (deepClone_keeps depth) IH); auto.
    + rewrite fresh_to_nat. lia.
    + exact (keeps_trans _ _ _ K (keeps_app hc _)).
    + rewrite fresh_to_nat, length_app. simpl. lia.
  - cbn [inheritsHasOwnProperty]. rewrite Hord.
    apply (cloneProps_runs _ h0 (fresh hc) (deepClone_keeps depth) IH); auto.
    + rewrite fresh_to_nat. lia.
    + exact (keeps_trans _ _ _ K (keeps_app hc _)).
    + rewrite fresh_to_nat, length_app. simpl. lia.
  - discriminate.
Qed.

Lemma cloneItems_result (rec : Heap -> jsvalue -> Result) (a' : N) :
  forall todo done hc v' h',
    cloneItems rec a' todo done hc = Done v' h' -> v' = VObject a'.
Proof.
  induction todo as [|item rest IH]; intros done hc v' h'; simpl.
  - now intros [= <- _].
  - destruct (rec hc item); try discriminate. apply IH.
Qed.

Lemma cloneProps_result (rec : Heap -> jsvalue -> Result) (a' : N)
    (callable : bool) :
  forall todo clonedObj hc v' h',
    cloneProps rec callable a' todo clonedObj hc = Done v' h' ->
    v' = VObject a'.
Proof.
  induction todo as [|[key value] rest IH]; intros clonedObj hc v' h'; simpl.
  - now intros [= <- _].
  - destruct callable; [|discriminate].
    destruct (rec hc value); try discriminate. apply IH.
Qed.

Lemma cloneItems_length (rec : Heap -> jsvalue -> Result) (a' : N) :
  (forall h v v' h', rec h v = Done v' h' -> keeps h h') ->
  forall todo done hc v' h',
    (N.to_nat a' < List.length hc)%nat ->
    cloneItems rec a' todo done hc = Done v' h' ->
    (List.length hc <= List.length h')%nat.
Proof.
  intros Hkeeps. induction todo as [|item rest IH];
    intros done hc v' h' Hlt; simpl.
  - intros [= _ <-]. lia.
  - destruct (rec hc item) as [item' h1 | | | |] eqn:E; try discriminate.
    pose proof (keeps_length _ _ (Hkeeps _ _ _ _ E)) as L1.
    intros Hrun. apply IH in Hrun; rewrite store_length in *; lia.
Qed.

Lemma cloneProps_length (rec : Heap -> jsvalue -> Result) (a' : N)
    (callable : bool) :
  (forall h v v' h', rec h v = Done v' h' -> keeps h h') ->
  forall todo clonedObj hc v' h',
    (N.to_nat a' < List.length hc)%nat ->
    cloneProps rec callable a' todo clonedObj hc = Done v' h' ->
    (List.length hc <= List.length h')%nat.
Proof.
  intros Hkeeps. induction todo as [|[key value] rest IH];
    intros clonedObj hc v' h' Hlt; simpl.
  - intros [= _ <-]. lia.
  - destruct callable; [|discriminate].
    destruct (rec hc value) as [value' h1 | | | |] eqn:E; try discriminate.
    pose proof (keeps_length _ _ (Hkeeps _ _ _ _ E)) as L1.
    intros Hrun. apply IH in Hrun; rewrite store_length in *; lia.
Qed.

(** X17.  [deepClone] copies a value whose objects form a tree of dates,
    arrays and plain objects, nested to any depth the stack has room for,
    none of them with a property named [hasOwnProperty] or [__proto__]: it
    returns, the clone has the same shape, keys, order and primitive values
    as the original, every object of the clone is new, so clone and
    original share nothing, and the original is left as it was. *)
Theorem deepClone_copies_a_tree (h : Heap) (t : Tree) (v : jsvalue)
    (depth : nat) :
  unfolds 0 h t v ->
  plainKeys t = true ->
  (nesting t < depth)%nat ->
  exists v' h',
    deepClone depth h v = Done v' h'
    /\ unfolds (fresh h) h' t v'
    /\ unfolds 0 h' t v
    /\ keeps h h'.
Proof.
  intros Hu Hkeys Hn.
  destruct (deepClone_clonesWell depth t Hn Hkeys h v Hu)
    as (v' & h' & Hrun & Hclone & K & _).
  exists v', h'. repeat split; auto.
  exact (unfolds_keeps _ _ _ _ _ K Hu).
Qed.

(** X18.  Whatever the heap looks like (shared or not), a call of
    [deepClone] that returns has changed no object that existed before; a
    primitive or [null] comes back as it is with nothing allocated; and for
    an object the result is a new object, never the argument or any other
    object that existed. *)
Theorem deepClone_returns_a_new_object (depth : nat) (h : Heap)
    (v v' : jsvalue) (h' : Heap) :
  deepClone depth h v = Done v' h' ->
  keeps h h'
  /\ (isObject v = false -> v' = v /\ h' = h)
  /\ (isObject v = true ->
        v' = VObject (fresh h) /\ lookup h (fresh h) = None
        /\ lookup h' (fresh h) <> None).
Proof.
  intros Hrun. pose proof (deepClone_keeps _ _ _ _ _ Hrun) as K.
  split; [exact K|].
  destruct depth as [|depth]; [discriminate|].
  destruct v as [| |b|x|s|a]; simpl in *;
    try (injection Hrun as <- <-; split; [auto | discriminate]).
  split; [discriminate | intros _].
  assert (Hnone : lookup h (fresh h) = None).
  { unfold lookup. rewrite fresh_to_nat. apply nth_error_None. lia. }
  assert (Hone : forall o : HeapObject,
             (N.to_nat (fresh h) < List.length (h ++ [o]))%nat)
    by (intros; rewrite fresh_to_nat, length_app; simpl; lia).
  assert (Hmore : forall o : HeapObject,
             List.length (h ++ [o]) = S (List.length h))
    by (intros; rewrite length_app; simpl; lia).
  assert (Hprops : forall callable props,
             cloneProps (deepClone depth) callable (fresh h) props
                        (OPlain []) (h ++ [OPlain []]) = Done v' h' ->
             v' = VObject (fresh h)
             /\ (List.length h < List.length h')%nat).
  { intros callable props Hp. split.
    - exact (cloneProps_result _ _ _ _ _ _ _ _ Hp).
    - apply (cloneProps_length _ _ _ (deepClone_keeps depth)) in Hp;
        [rewrite Hmore in Hp; lia | apply Hone]. }
  assert (Hboth : v' = VObject (fresh h)
                  /\ (List.length h < List.length h')%nat).
  { destruct (lookup h a) as [[time | items | props | proto props]|] eqn:Hl;
      try discriminate.
    - injection Hrun as <- <-. rewrite Hmore. split; [reflexivity | lia].
    - split.
      + exact (cloneItems_result _ _ _ _ _ _ _ Hrun).
      + apply (cloneItems_length _ _ (deepClone_keeps depth)) in Hrun;
          [rewrite Hmore in Hrun; lia | apply Hone].
    - exact (Hprops _ _ Hrun).
    - destruct proto; try discriminate. exact (Hprops _ _ Hrun). }
  destruct Hboth as [Hv' Hlong].
  repeat split; auto.
  intros Hn. apply nth_error_None in Hn. rewrite fresh_to_nat in Hn. lia.
Qed.

(** X19.  [deepClone] has no cycle detection.  On a heap of dates, arrays
    and plain objects none of which has a property named [hasOwnProperty],
    an object that reaches itself through its elements or properties cannot
    be cloned: however much room the stack has, the call runs out of it (a
    [RangeError]). *)
Theorem deepClone_overflows_on_a_cycle (h : Heap) (a : N) (depth : nat) :
  closed h ->
  ordinary h ->
  reaches h a a ->
  deepClone depth h (VObject a) = StackOverflow.
Proof.
  intros C O Hcyc.
  assert (V : valid h (VObject a)).
  { destruct (cycle_step h a Hcyc) as (b & (o & Hl & _) & _).
    exact (lookup_lt _ _ _ Hl). }
  assert (K : keeps h h) by (intros x o H; exact H).
  destruct (deepClone_runs h C O depth (VObject a) h V K)
    as [E | (v' & h' & E)]; [exact E|].
  exfalso. exact (deepClone_stuck h depth a h v' h' Hcyc K E).
Qed.

(** The two keys at work: an object with a property named
    [hasOwnProperty] of its own cannot be cloned at all, since the call
    [obj.hasOwnProperty(key)] is a [TypeError]; and a property named
    [__proto__] is not copied: its clone becomes the prototype of the
    clone. *)
Remark deepClone_reserved_keys :
  deepClone 2 [OPlain [(js "a", VNull); (js "hasOwnProperty", VBool true)]]
            (VObject 0)
  = TypeError
  /\ deepClone 2 [OPlain [(js "a", VBool true); (js "__proto__", VNull);
                          (js "b", VBool false)]]
               (VObject 0)
     = Done (VObject 1)
            [OPlain [(js "a", VBool true); (js "__proto__", VNull);
                     (js "b", VBool false)];
             OOther VNull [(js "a", VBool true); (js "b", VBool false)]].
Proof. split; reflexivity. Qed.

End CloneFacts.

(** The object of [nestedHeap], nested two deep, is cloned with room for
    three calls. *)
Lemma deepClone_copies_a_tree_witness :
  exists v' h',
    Cloning.deepClone 3 nestedHeap (VObject 0) = Cloning.Done v' h'
    /\ Cloning.unfolds (Cloning.fresh nestedHeap) h' nestedTree v'
    /\ Cloning.unfolds 0 h' nestedTree (VObject 0)
    /\ Cloning.keeps nestedHeap h'.
Proof.
  apply deepClone_copies_a_tree.
  - simpl. exists 0, [(js "when", VObject 1); (js "list", VObject 2)].
    repeat split; try discriminate.
    + exists 1. repeat split. discriminate.
    + exists 2, [VNull; VBool true]. repeat split. discriminate.
  - reflexivity.
  - simpl. lia.
Defined.

(** Cloning the date of [dateHeap] adds a date and keeps the first. *)
Lemma deepClone_returns_a_new_object_witness :
  Cloning.keeps dateHeap (dateHeap ++ [Cloning.ODate (Dec false 5 0)]).
Proof.
  exact (proj1 (deepClone_returns_a_new_object 1 dateHeap (VObject 0)
                  (VObject 1) (dateHeap ++ [Cloning.ODate (Dec false 5 0)])
                  eq_refl)).
Defined.

(** The object of [selfHeap] holds itself. *)
Lemma deepClone_overflows_on_a_cycle_witness :
  Cloning.deepClone 1000 selfHeap (VObject 0) = Cloning.StackOverflow.
Proof.
  apply deepClone_overflows_on_a_cycle.
  - intros a o H. unfold Cloning.lookup in H.
    destruct (N.to_nat a) as [|n]; simpl in H.
    + injection H as <-. repeat constructor.
    + destruct n; discriminate.
  - intros a o H. unfold Cloning.lookup in H.
    destruct (N.to_nat a) as [|n]; simpl in H.
    + now injection H as <-.
    + destruct n; discriminate.
  - apply Cloning.reach_one. exists (Cloning.OPlain [(js "self", VObject 0)]).
    split; [reflexivity | left; reflexivity].
Defined.
